(** * subtitle-hunter: the acquisition-and-placement pipeline

    A shallow embedding of the Go sources (config, jellyfin, opensubtitles,
    subtitle and handlers packages) together with the properties of the
    pipeline: discovery filtering, search query construction, path mapping,
    the SRT codec, the bounded-retry translation adapter and the save-path
    resolution.

    Conventions.  A Go [string] is a sequence of bytes: [list ascii].  A Go
    [int] is 64 bits wide on the supported targets (linux/amd64 and
    linux/arm64) and is represented by [Z]; the only place where its range
    matters is [strconv.Atoi].  The functions of the Go standard library that
    the program calls are ported below, package by package, before the
    program's own packages. *)

From Stdlib Require Import String Ascii List ZArith Lia Bool.
From Stdlib Require Import Permutation Sorted.
Import ListNotations.

#[local] Open Scope Z_scope.
#[local] Open Scope list_scope.

(** ** Bytes and strings *)

Definition gostring : Type := list ascii.

(** A string literal as a Go string. *)
Definition go (s : string) : gostring := list_ascii_of_string s.
Arguments go s%_string : simpl never.

Definition byteZ (c : ascii) : Z := Z.of_N (N_of_ascii c).

Fixpoint streq (a b : gostring) : bool :=
  match a, b with
  | [], [] => true
  | x :: a', y :: b' => Ascii.eqb x y && streq a' b'
  | _, _ => false
  end.

Definition LF : ascii := "010"%char.
Definition CR : ascii := "013"%char.

(** ** unicode/utf8 *)

Module utf8.

Definition RuneError : Z := 0xFFFD.
Definition RuneSelf : Z := 0x80.
Definition UTFMax : nat := 4.

(** The table [first]: information about the first byte of an encoding.
    [0xF0] is an ASCII byte, [0xF1] an invalid one; otherwise the low three
    bits give the size and the high four the index into [acceptRanges]. *)
Definition first (b : Z) : Z :=
  if b <? 0x80 then 0xF0
  else if b <? 0xC2 then 0xF1
  else if b <? 0xE0 then 0x02
  else if b =? 0xE0 then 0x13
  else if b <? 0xED then 0x03
  else if b =? 0xED then 0x23
  else if b <? 0xF0 then 0x03
  else if b =? 0xF0 then 0x34
  else if b <? 0xF4 then 0x04
  else if b =? 0xF4 then 0x44
  else 0xF1.

Definition acceptRanges (i : Z) : Z * Z :=
  match i with
  | 0 => (0x80, 0xBF)
  | 1 => (0xA0, 0xBF)
  | 2 => (0x80, 0x9F)
  | 3 => (0x90, 0xBF)
  | 4 => (0x80, 0x8F)
  | _ => (0, 0)
  end.

Definition locb : Z := 0x80.
Definition hicb : Z := 0xBF.
Definition maskx : Z := 0x3F.
Definition mask2 : Z := 0x1F.
Definition mask3 : Z := 0x0F.
Definition mask4 : Z := 0x07.

(** [DecodeRuneInString s]: the first rune of [s] and its width in bytes. *)
Definition DecodeRuneInString (s : gostring) : Z * nat :=
  match s with
  | [] => (RuneError, 0%nat)
  | c0 :: t0 =>
    let s0 := byteZ c0 in
    let x := first s0 in
    if 0xF0 <=? x then
      ((if Z.testbit x 0 then RuneError else s0), 1%nat)
    else
      let sz := Z.land x 7 in
      let '(lo, hi) := acceptRanges (Z.shiftr x 4) in
      if Z.of_nat (length s) <? sz then (RuneError, 1%nat)
      else
        match t0 with
        | [] => (RuneError, 1%nat)
        | c1 :: t1 =>
          let s1 := byteZ c1 in
          if (s1 <? lo) || (hi <? s1) then (RuneError, 1%nat)
          else if sz <=? 2 then
            (Z.lor (Z.shiftl (Z.land s0 mask2) 6) (Z.land s1 maskx), 2%nat)
          else
            match t1 with
            | [] => (RuneError, 1%nat)
            | c2 :: t2 =>
              let s2 := byteZ c2 in
              if (s2 <? locb) || (hicb <? s2) then (RuneError, 1%nat)
              else if sz <=? 3 then
                (Z.lor (Z.lor (Z.shiftl (Z.land s0 mask3) 12)
                              (Z.shiftl (Z.land s1 maskx) 6))
                       (Z.land s2 maskx), 3%nat)
              else
                match t2 with
                | [] => (RuneError, 1%nat)
                | c3 :: _ =>
                  let s3 := byteZ c3 in
                  if (s3 <? locb) || (hicb <? s3) then (RuneError, 1%nat)
                  else
                    (Z.lor (Z.lor (Z.lor (Z.shiftl (Z.land s0 mask4) 18)
                                         (Z.shiftl (Z.land s1 maskx) 12))
                                  (Z.shiftl (Z.land s2 maskx) 6))
                           (Z.land s3 maskx), 4%nat)
                end
            end
        end
  end.

(** [RuneStart b]: [b] is not a continuation byte. *)
Definition RuneStart (c : ascii) : bool :=
  negb (Z.land (byteZ c) 0xC0 =? 0x80).

(** The backward scan of [DecodeLastRuneInString]: [rs] holds the bytes
    before the last one, nearest first; the result is how many of them
    belong to the candidate encoding.  The scan stops at the first rune
    start, looks at no more than [UTFMax - 1] bytes and, finding none,
    steps one byte further when there is one. *)
Fixpoint scanBack (budget : nat) (rs : gostring) {struct rs} : nat :=
  match rs with
  | [] => 0%nat
  | c :: rs' =>
    match budget with
    | O => 1%nat
    | S b => if RuneStart c then 1%nat else S (scanBack b rs')
    end
  end.

(** [DecodeLastRuneInString s]: the last rune of [s] and its width. *)
Definition DecodeLastRuneInString (s : gostring) : Z * nat :=
  match rev s with
  | [] => (RuneError, 0%nat)
  | c :: rs =>
    let r := byteZ c in
    if r <? RuneSelf then (r, 1%nat)
    else
      let k := scanBack (UTFMax - 1) rs in
      let start := (length s - 1 - k)%nat in
      let '(r', size) := DecodeRuneInString (skipn start s) in
      if Nat.eqb (start + size) (length s) then (r', size)
      else (RuneError, 1%nat)
  end.

End utf8.

(** ** unicode *)

Module unicode.

Definition MaxLatin1 : Z := 0xFF.

(** [IsSpace r]: white space as defined by Unicode's White Space property;
    in the Latin-1 range these are tab, LF, VT, FF, CR, space, NEL and
    NBSP. *)
Definition IsSpace (r : Z) : bool :=
  if r <=? MaxLatin1 then
    (r =? 0x09) || (r =? 0x0A) || (r =? 0x0B) || (r =? 0x0C) || (r =? 0x0D)
    || (r =? 0x20) || (r =? 0x85) || (r =? 0xA0)
  else
    (r =? 0x1680) || ((0x2000 <=? r) && (r <=? 0x200A))
    || (r =? 0x2028) || (r =? 0x2029) || (r =? 0x202F) || (r =? 0x205F)
    || (r =? 0x3000).

End unicode.

(** ** strings *)

Module strings.

Fixpoint HasPrefix (s prefix : gostring) {struct prefix} : bool :=
  match prefix with
  | [] => true
  | p :: ps =>
    match s with
    | c :: cs => Ascii.eqb c p && HasPrefix cs ps
    | [] => false
    end
  end.

Definition HasSuffix (s suffix : gostring) : bool :=
  HasPrefix (rev s) (rev suffix).

Definition TrimPrefix (s prefix : gostring) : gostring :=
  if HasPrefix s prefix then skipn (length prefix) s else s.

Definition TrimSuffix (s suffix : gostring) : gostring :=
  if HasSuffix s suffix then firstn (length s - length suffix) s else s.

(** [Cut s sep]: the text before and after the leftmost occurrence of
    [sep] in [s] (at byte offset [Index(s, sep)]), when there is one. *)
Fixpoint Cut (s sep : gostring) : option (gostring * gostring) :=
  if HasPrefix s sep then Some ([], skipn (length sep) s)
  else
    match s with
    | [] => None
    | c :: r =>
      match Cut r sep with
      | Some (before, after) => Some (c :: before, after)
      | None => None
      end
    end.

(** The loop of [Replace] for a non-empty [old]: up to [n] leftmost,
    non-overlapping occurrences are replaced ([n < 0]: all of them).  Each
    round consumes at least one byte, so [length s] rounds suffice. *)
Fixpoint replaceLoop (fuel : nat) (s old new : gostring) (n : Z) : gostring :=
  match fuel with
  | O => s
  | S fuel' =>
    if n =? 0 then s
    else
      match Cut s old with
      | None => s
      | Some (before, after) =>
        before ++ new ++ replaceLoop fuel' after old new (n - 1)
      end
  end.

(** The same loop for the empty pattern, which matches before the first
    rune and after every rune. *)
Fixpoint replaceEmpty (fuel : nat) (s new : gostring) (n : Z) : gostring :=
  match fuel with
  | O => s
  | S fuel' =>
    if n =? 0 then s
    else
      match s with
      | [] => s
      | _ =>
        let wid := snd (utf8.DecodeRuneInString s) in
        firstn wid s ++ new ++ replaceEmpty fuel' (skipn wid s) new (n - 1)
      end
  end.

Definition Replace (s old new : gostring) (n : Z) : gostring :=
  if streq old new || (n =? 0) then s
  else
    match old with
    | [] => new ++ replaceEmpty (length s) s new (n - 1)
    | _ => replaceLoop (length s) s old new n
    end.

Definition ReplaceAll (s old new : gostring) : gostring :=
  Replace s old new (-1).

(** [explode s]: [s] cut into its UTF-8 sequences, one per rune. *)
Fixpoint explode (fuel : nat) (s : gostring) : list gostring :=
  match fuel with
  | O => []
  | S fuel' =>
    match s with
    | [] => []
    | _ =>
      let size := snd (utf8.DecodeRuneInString s) in
      firstn size s :: explode fuel' (skipn size s)
    end
  end.

(** The loop of [genSplit] for a non-empty separator. *)
Fixpoint genSplit (fuel : nat) (s sep : gostring) : list gostring :=
  match fuel with
  | O => [s]
  | S fuel' =>
    match Cut s sep with
    | None => [s]
    | Some (before, after) => before :: genSplit fuel' after sep
    end
  end.

Definition Split (s sep : gostring) : list gostring :=
  match sep with
  | [] => explode (length s) s
  | _ => genSplit (length s) s sep
  end.

Fixpoint Join (elems : list gostring) (sep : gostring) : gostring :=
  match elems with
  | [] => []
  | [e] => e
  | e :: rest => e ++ sep ++ Join rest sep
  end.

(** The table [asciiSpace]: tab, LF, VT, FF, CR and space. *)
Definition asciiSpace (c : ascii) : bool :=
  let b := byteZ c in
  (b =? 0x09) || (b =? 0x0A) || (b =? 0x0B) || (b =? 0x0C) || (b =? 0x0D)
  || (b =? 0x20).

(** [TrimLeftFunc f s]: [s] from its first rune that does not satisfy [f]
    on; the runes are those a [range] over [s] yields. *)
Fixpoint trimLeftLoop (fuel : nat) (f : Z -> bool) (s : gostring) : gostring :=
  match fuel with
  | O => []
  | S fuel' =>
    match s with
    | [] => []
    | _ =>
      let '(r, size) := utf8.DecodeRuneInString s in
      if f r then trimLeftLoop fuel' f (skipn size s) else s
    end
  end.

Definition TrimLeftFunc (s : gostring) (f : Z -> bool) : gostring :=
  trimLeftLoop (length s) f s.

(** [lastIndexFunc s f false]: the offset of the last rune of [s] that does
    not satisfy [f], scanning [s[0:i]] backwards from [i = len(s)]. *)
Fixpoint lastIndexLoop (fuel : nat) (f : Z -> bool) (s : gostring) (i : nat)
  : option nat :=
  match fuel with
  | O => None
  | S fuel' =>
    match i with
    | O => None
    | _ =>
      let '(r, size) := utf8.DecodeLastRuneInString (firstn i s) in
      let i' := (i - size)%nat in
      if f r then lastIndexLoop fuel' f s i' else Some i'
    end
  end.

Definition TrimRightFunc (s : gostring) (f : Z -> bool) : gostring :=
  match lastIndexLoop (length s) f s (length s) with
  | Some i =>
    if utf8.RuneSelf <=? byteZ (nth i s zero) then
      let wid := snd (utf8.DecodeRuneInString (skipn i s)) in
      firstn (i + wid) s
    else firstn (i + 1) s
  | None => []
  end.

Definition TrimFunc (s : gostring) (f : Z -> bool) : gostring :=
  TrimRightFunc (TrimLeftFunc s f) f.

(** The first loop of [TrimSpace]: skip leading ASCII space; [true] when a
    non-ASCII byte is met and the Unicode-aware path takes over. *)
Fixpoint trimStart (s : gostring) : bool * gostring :=
  match s with
  | [] => (false, [])
  | c :: r =>
    if utf8.RuneSelf <=? byteZ c then (true, s)
    else if asciiSpace c then trimStart r
    else (false, s)
  end.

Definition TrimSpace (s : gostring) : gostring :=
  let '(slow, s1) := trimStart s in
  if slow then TrimFunc s1 unicode.IsSpace
  else
    (* the second loop runs over s[start:stop] from its end *)
    let '(slow', rs) := trimStart (rev s1) in
    if slow' then TrimRightFunc (rev rs) unicode.IsSpace
    else rev rs.

End strings.

(** ** strconv *)

Module strconv.

Definition intSize : Z := 64.

Definition isDigit (c : ascii) : bool :=
  (0x30 <=? byteZ c) && (byteZ c <=? 0x39).

(** The digit loop: [n = n*10 + (ch - '0')], failing on a byte that is not
    a decimal digit. *)
Fixpoint parseDigits (s : gostring) (n : Z) : option Z :=
  match s with
  | [] => Some n
  | ch :: r =>
    if isDigit ch then parseDigits r (n * 10 + (byteZ ch - 0x30)) else None
  end.

(** [Atoi s]: [Some n] when [err == nil].  An optional sign, then one or
    more decimal digits, the value within the range of [int]; a syntax or
    a range error is [None]. *)
Definition Atoi (s : gostring) : option Z :=
  match s with
  | [] => None
  | c :: r =>
    let neg := Ascii.eqb c "-" in
    let digits := if neg || Ascii.eqb c "+" then r else s in
    match digits with
    | [] => None
    | _ =>
      match parseDigits digits 0 with
      | None => None
      | Some u =>
        let n := if neg then - u else u in
        if (- 2 ^ (intSize - 1) <=? n) && (n <? 2 ^ (intSize - 1))
        then Some n else None
      end
    end
  end.

End strconv.

(** ** fmt *)

Module fmt.

Definition digitChar (d : Z) : ascii := ascii_of_N (Z.to_N (0x30 + d)).

(** The digit loop of [fmtInteger] in base 10, filling the buffer from its
    end. *)
Fixpoint fmtDigits (fuel : nat) (u : Z) (buf : gostring) : gostring :=
  match fuel with
  | O => buf
  | S fuel' =>
    if u <? 10 then digitChar u :: buf
    else fmtDigits fuel' (u / 10) (digitChar (u mod 10) :: buf)
  end.

Definition digits (u : Z) : gostring :=
  fmtDigits (S (Z.to_nat (Z.log2 u))) u [].

(** [fmtInteger n wid zero]: the verb [%d] with an optional width and the
    [0] flag.  With the flag the digits are padded with zeros up to the
    width, one less when a sign is written; the width alone pads with
    spaces on the left. *)
Definition fmtInteger (n : Z) (wid : nat) (zero : bool) : gostring :=
  let negative := n <? 0 in
  let prec := if zero then (if negative then wid - 1 else wid)%nat else O in
  let ds := digits (Z.abs n) in
  let padded := repeat "0"%char (prec - length ds) ++ ds in
  let signed := if negative then "-"%char :: padded else padded in
  repeat " "%char (wid - length signed) ++ signed.

(** [Sprintf("%d", n)] and [Sprintf("%02d", n)]. *)
Definition d (n : Z) : gostring := fmtInteger n 0 false.
Definition d02 (n : Z) : gostring := fmtInteger n 2 true.

End fmt.

(** ** regexp, for the one expression the parser compiles:
    [(\d{2}:\d{2}:\d{2},\d{3})\s*-->\s*(\d{2}:\d{2}:\d{2},\d{3})] *)

Module regexp.

(** [\d] *)
Definition isDigit (c : ascii) : bool := strconv.isDigit c.

(** [\s]: tab, LF, FF, CR and space. *)
Definition isSpace (c : ascii) : bool :=
  let b := byteZ c in
  (b =? 0x09) || (b =? 0x0A) || (b =? 0x0C) || (b =? 0x0D) || (b =? 0x20).

(** [\d{2}:\d{2}:\d{2},\d{3}] at the head of [s]: the matched text and the
    rest. *)
Definition matchTimestamp (s : gostring) : option (gostring * gostring) :=
  match s with
  | h1 :: h2 :: c1 :: m1 :: m2 :: c2 :: s1 :: s2 :: c3 :: f1 :: f2 :: f3 :: rest =>
    if isDigit h1 && isDigit h2 && Ascii.eqb c1 ":"
       && isDigit m1 && isDigit m2 && Ascii.eqb c2 ":"
       && isDigit s1 && isDigit s2 && Ascii.eqb c3 ","
       && isDigit f1 && isDigit f2 && isDigit f3
    then Some ([h1; h2; c1; m1; m2; c2; s1; s2; c3; f1; f2; f3], rest)
    else None
  | _ => None
  end.

(** [\s*] *)
Fixpoint skipSpace (s : gostring) : gostring :=
  match s with
  | c :: r => if isSpace c then skipSpace r else s
  | [] => []
  end.

(** [-->] *)
Definition matchArrow (s : gostring) : option gostring :=
  match s with
  | a :: b :: c :: rest =>
    if Ascii.eqb a "-" && Ascii.eqb b "-" && Ascii.eqb c ">"
    then Some rest else None
  | _ => None
  end.

(** A match that starts at the head of [s]: the two groups.  Neither [-]
    nor a digit is white space, so the greedy [\s*] has one way to match. *)
Definition matchHere (s : gostring) : option (gostring * gostring) :=
  match matchTimestamp s with
  | None => None
  | Some (g1, r1) =>
    match matchArrow (skipSpace r1) with
    | None => None
    | Some r2 =>
      match matchTimestamp (skipSpace r2) with
      | None => None
      | Some (g2, _) => Some (g1, g2)
      end
    end
  end.

(** [timeRegex.FindStringSubmatch(s)]: the groups of the leftmost match;
    [None] is the nil slice, and a match has length 3. *)
Fixpoint FindStringSubmatch (s : gostring) : option (gostring * gostring) :=
  match matchHere s with
  | Some m => Some m
  | None =>
    match s with
    | [] => None
    | _ :: r => FindStringSubmatch r
    end
  end.

End regexp.

(** ** path/filepath, on Unix *)

Module filepath.

Definition Separator : ascii := "/"%char.

Definition IsPathSeparator (c : ascii) : bool := Ascii.eqb c Separator.

(** The elements of a path: the text between separators. *)
Fixpoint elements (path : gostring) : list gostring :=
  match path with
  | [] => [[]]
  | c :: r =>
    if IsPathSeparator c then [] :: elements r
    else
      match elements r with
      | e :: es => (c :: e) :: es
      | [] => [[c]]
      end
  end.

(** One element processed by [Clean]; [out] holds the elements written so
    far, last first.  Empty and [.] elements are dropped, [..] removes the
    last written element when there is one that is not itself [..], and is
    kept on a path that is not rooted. *)
Definition cleanStep (rooted : bool) (out : list gostring) (e : gostring)
  : list gostring :=
  if streq e [] || streq e (go ".") then out
  else if streq e (go "..") then
    match out with
    | top :: below => if streq top (go "..") then e :: out else below
    | [] => if rooted then out else [e]
    end
  else e :: out.

Definition Clean (path : gostring) : gostring :=
  match path with
  | [] => go "."
  | c :: _ =>
    let rooted := IsPathSeparator c in
    let out := fold_left (cleanStep rooted) (elements path) [] in
    let body := strings.Join (rev out) [Separator] in
    if rooted then Separator :: body
    else match body with [] => go "." | _ => body end
  end.

Fixpoint dropWhile {A} (p : A -> bool) (l : list A) : list A :=
  match l with
  | x :: r => if p x then dropWhile p r else l
  | [] => []
  end.

Fixpoint takeWhile {A} (p : A -> bool) (l : list A) : list A :=
  match l with
  | x :: r => if p x then x :: takeWhile p r else []
  | [] => []
  end.

(** [Base path]: the last element, trailing separators removed first. *)
Definition Base (path : gostring) : gostring :=
  match path with
  | [] => go "."
  | _ =>
    let stripped := dropWhile IsPathSeparator (rev path) in
    match stripped with
    | [] => [Separator]
    | _ => rev (takeWhile (fun c => negb (IsPathSeparator c)) stripped)
    end
  end.

(** The backward scan of [Ext] over the reversed path; [suffix] is the
    text already passed. *)
Fixpoint extScan (rpath suffix : gostring) : gostring :=
  match rpath with
  | [] => []
  | c :: r =>
    if IsPathSeparator c then []
    else if Ascii.eqb c "." then c :: suffix
    else extScan r (c :: suffix)
  end.

Definition Ext (path : gostring) : gostring := extScan (rev path) [].

(** [Dir path]: all but the last element, cleaned. *)
Definition Dir (path : gostring) : gostring :=
  Clean (rev (dropWhile (fun c => negb (IsPathSeparator c)) (rev path))).

(** [Join elem...]: the elements from the first non-empty one on, joined
    by separators and cleaned. *)
Fixpoint Join (elem : list gostring) : gostring :=
  match elem with
  | [] => []
  | e :: rest =>
    match e with
    | [] => Join rest
    | _ => Clean (strings.Join elem [Separator])
    end
  end.

End filepath.

(** * The program *)

(** ** Errors

    An [error] is its message; [notExist] is what [os.IsNotExist] answers
    for it. *)

Record error : Type := mkError { errMsg : gostring; notExist : bool }.

(** [fmt.Errorf(msg)] and [fmt.Errorf(msg + ": %w", err)]. *)
Definition Errorf (msg : gostring) : error := mkError msg false.
Definition Errorf_w (msg : gostring) (err : error) : error :=
  mkError (msg ++ go ": " ++ errMsg err) false.

(** The result of a call that returns [(value, error)]. *)
Definition result (A : Type) : Type := (A + error)%type.

(** ** package config *)

Module config.

Record Config : Type := mkConfig {
    JellyfinURL : gostring;
    JellyfinAPIKey : gostring;
    JellyfinUserID : gostring;
    OpenSubtitlesKey : gostring;
    Port : Z;
    SubtitleDirectory : gostring;
    EnableDirectSave : bool;
    JellyfinPathPrefix : gostring;
    ContainerPathPrefix : gostring
  }.

Definition MapJellyfinPathToContainer (c : Config) (jellyfinPath : gostring)
  : gostring :=
  (* If no path mapping is configured, return the original path *)
  if streq (JellyfinPathPrefix c) [] || streq (ContainerPathPrefix c) [] then
    jellyfinPath
  (* Replace the Jellyfin path prefix with the container path prefix *)
  else if strings.HasPrefix jellyfinPath (JellyfinPathPrefix c) then
    strings.Replace jellyfinPath (JellyfinPathPrefix c) (ContainerPathPrefix c) 1
  (* If the path doesn't match the expected prefix, return as-is *)
  else jellyfinPath.

End config.

(** ** package jellyfin *)

Module jellyfin.

Record MediaSource : Type := mkMediaSource { SourcePath : gostring }.

Record MediaStream : Type := mkMediaStream {
    StreamType : gostring;
    Language : gostring;
    Codec : gostring;
    IsExternal : bool
  }.

Record MediaItem : Type := mkMediaItem {
    ID : gostring;
    Name : gostring;
    Type_ : gostring;
    Path : gostring;
    SeriesName : gostring;
    SeasonName : gostring;
    IndexNumber : Z;
    ParentIndexNumber : Z;
    ProductionYear : Z;
    MediaSources : list MediaSource;
    MediaStreams : list MediaStream
  }.

Definition fileExists (path : gostring) : bool := false.

(** The first loop of [hasChineseSubtitle], over the stream descriptors. *)
Fixpoint streamLoop (streams : list MediaStream) : bool :=
  match streams with
  | [] => false
  | stream :: rest =>
    if streq (StreamType stream) (go "Subtitle")
       && (streq (Language stream) (go "zh-TW")
           || streq (Language stream) (go "zh-Hant")
           || streq (Language stream) (go "chi"))
    then true
    else streamLoop rest
  end.

(** Its second loop, over the candidate sidecar paths. *)
Fixpoint sidecarLoop (chineseSubtitles : list gostring) : bool :=
  match chineseSubtitles with
  | [] => false
  | subPath :: rest => if fileExists subPath then true else sidecarLoop rest
  end.

Definition hasChineseSubtitle (item : MediaItem) : bool :=
  if streamLoop (MediaStreams item) then true
  else
    match MediaSources item with
    | source :: _ =>
      let videoPath := SourcePath source in
      let dir := filepath.Dir videoPath in
      let base := strings.TrimSuffix (filepath.Base videoPath)
                                     (filepath.Ext videoPath) in
      let chineseSubtitles :=
        [ filepath.Join [dir; base ++ go ".zh-Hant.srt"];
          filepath.Join [dir; base ++ go ".zh-TW.srt"];
          filepath.Join [dir; base ++ go ".chi.srt"] ] in
      sidecarLoop chineseSubtitles
    | [] => false
    end.

(** The filter loop of [GetMediaWithoutChineseSubtitles] over the items of
    the catalog's response. *)
Definition filterItems (items : list MediaItem) : list MediaItem :=
  fold_left
    (fun filtered item =>
       if negb (hasChineseSubtitle item) then filtered ++ [item]
       else filtered)
    items [].

Definition GetSearchQuery (item : MediaItem) : gostring :=
  if streq (Type_ item) (go "Episode") then
    (* For TV episodes, use "SeriesName S##E##" format *)
    if negb (streq (SeriesName item) []) then
      let season := ParentIndexNumber item in
      let episode := IndexNumber item in
      SeriesName item ++ go " S" ++ fmt.d02 season ++ go "E" ++ fmt.d02 episode
    else Name item
  else if streq (Type_ item) (go "Movie") then
    (* For movies, use the name and year if available *)
    if ProductionYear item >? 0 then
      Name item ++ go " " ++ fmt.d (ProductionYear item)
    else Name item
  else
    (* Fallback to just the name *)
    Name item.

End jellyfin.

(** ** package opensubtitles *)

Module opensubtitles.

Record Subtitle : Type := mkSubtitle {
    ID : gostring;
    FileID : Z;
    Language : gostring;
    MovieHash : gostring;
    MovieBytes : Z;
    FileName : gostring;
    URL : gostring
  }.

End opensubtitles.

(** ** The outside world

    The media catalog, the subtitle provider, the translation backend, the
    file system and the clock are collaborators of the pipeline.  Their
    operations act on a world [W] that the program threads through its
    calls; a run also yields the trace of the calls it made, in order, each
    with its outcome.  Log output is not part of the model. *)

Inductive Event : Type :=
  | EvSleep (d : Z)
  | EvTranslate (text : gostring) (r : result gostring)
  | EvListItems (r : result (list jellyfin.MediaItem))
  | EvGetItem (itemID : gostring) (r : result jellyfin.MediaItem)
  | EvRefreshMetadata (itemID : gostring) (r : option error)
  | EvSearchSubtitles (movieName imdbID language : gostring)
                      (r : result (list opensubtitles.Subtitle))
  | EvDownloadSubtitle (subtitle : opensubtitles.Subtitle) (r : result gostring)
  | EvStat (name : gostring) (r : option error)
  | EvMkdirAll (path : gostring) (perm : Z) (r : option error)
  | EvCreate (name : gostring) (r : option error)
  | EvClose (name : gostring)
  | EvRemove (name : gostring) (r : option error)
  | EvWriteFile (name data : gostring) (perm : Z) (r : option error).

(** A computation over the world: its value, the world after it and the
    calls it made. *)
Definition M (W A : Type) : Type := W -> A * W * list Event.

Definition ret {W A} (a : A) : M W A := fun w => (a, w, []).

Definition bind {W A B} (m : M W A) (k : A -> M W B) : M W B :=
  fun w =>
    let '(a, w1, t1) := m w in
    let '(b, w2, t2) := k a w1 in
    (b, w2, t1 ++ t2).

(** One call of a collaborator, recorded in the trace. *)
Definition call {W A} (op : W -> A * W) (ev : A -> Event) : M W A :=
  fun w => let '(a, w') := op w in (a, w', [ev a]).

Declare Scope world_scope.
Delimit Scope world_scope with world.
Notation "x <- m ;; k" := (bind m (fun x => k))
  (at level 61, m at next level, right associativity) : world_scope.
Notation "' pat <- m ;; k" := (bind m (fun x => match x with pat => k end))
  (at level 61, pat pattern, m at next level, right associativity)
  : world_scope.
Notation "m ;; k" := (bind m (fun _ => k))
  (at level 61, right associativity) : world_scope.
#[local] Open Scope world_scope.

(** The clients of the catalog and of the subtitle provider, the [os]
    package and [time.Sleep], as far as the pipeline uses them. *)
Class Env (W : Type) : Type := {
    timeSleep : Z -> W -> unit * W;
    listItems : W -> result (list jellyfin.MediaItem) * W;
    GetItem : gostring -> W -> result jellyfin.MediaItem * W;
    RefreshMetadata : gostring -> W -> option error * W;
    SearchSubtitles :
      gostring -> gostring -> gostring -> W ->
      result (list opensubtitles.Subtitle) * W;
    DownloadSubtitle : opensubtitles.Subtitle -> W -> result gostring * W;
    osStat : gostring -> W -> option error * W;
    osMkdirAll : gostring -> Z -> W -> option error * W;
    osCreate : gostring -> W -> option error * W;
    fileClose : gostring -> W -> unit * W;
    osRemove : gostring -> W -> option error * W;
    osWriteFile : gostring -> gostring -> Z -> W -> option error * W
  }.

(** ** package subtitle: the codec *)

Module subtitle.

Record SubtitleEntry : Type := mkEntry {
    Index : Z;
    StartTime : gostring;
    EndTime : gostring;
    Text : gostring
  }.

(** The body of the loop of [Parse] for one block; [None] is a
    [continue]. *)
Definition parseBlock (block : gostring) : option SubtitleEntry :=
  let block := strings.TrimSpace block in
  if streq block [] then None
  else
    let lines := strings.Split block [LF] in
    if (length lines <? 3)%nat then None
    else
      match strconv.Atoi (strings.TrimSpace (nth 0 lines [])) with
      | None => None
      | Some index =>
        match regexp.FindStringSubmatch (nth 1 lines []) with
        | None => None
        | Some (start, stop) =>
          let text := strings.Join (skipn 2 lines) [LF] in
          let text := strings.TrimSpace text in
          Some (mkEntry index start stop text)
        end
      end.

Definition Parse (content : gostring) : list SubtitleEntry * option error :=
  let text := content in
  let text := strings.ReplaceAll text [CR; LF] [LF] in
  let blocks := strings.Split text [LF; LF] in
  let entries :=
    fold_left
      (fun entries block =>
         match parseBlock block with
         | Some entry => entries ++ [entry]
         | None => entries
         end)
      blocks [] in
  (entries, None).

(** The loop of [Format]; [i] is the position of the next entry and
    [result] the text built so far. *)
Fixpoint formatLoop (i : nat) (entries : list SubtitleEntry)
  (result : gostring) : gostring :=
  match entries with
  | [] => result
  | entry :: rest =>
    let result := if (0 <? i)%nat then result ++ [LF] else result in
    let result := result ++ (fmt.d (Index entry) ++ [LF]) in
    let result :=
      result ++ (StartTime entry ++ go " --> " ++ EndTime entry ++ [LF]) in
    let result := result ++ Text entry in
    let result := result ++ [LF] in
    formatLoop (S i) rest result
  end.

Definition Format (entries : list SubtitleEntry) : gostring :=
  formatLoop 0 entries [].

(** *** The translation adapter *)

(** The interface [Translator]. *)
Class Translator (W : Type) : Type := {
    TranslateToChineseTraditional : gostring -> W -> result gostring * W
  }.

Definition Second : Z := 1000000000.

(** [%w] of an error, possibly nil. *)
Definition errText (err : option error) : gostring :=
  match err with
  | Some e => errMsg e
  | None => go "%!w(<nil>)"
  end.

Section Adapter.

Context {W : Type} `{Env W} `{Translator W}.

(** The loop of [translateWithRetry] from [attempt] on; [rounds] is the
    number of rounds left, [maxRetries - attempt + 1]. *)
Fixpoint retryLoop (rounds : nat) (attempt : Z) (lastErr : option error)
  (text : gostring) (maxRetries : Z) : M W (result gostring) :=
  match rounds with
  | O =>
    ret (inr (mkError (go "translation failed after " ++ fmt.d maxRetries
                       ++ go " attempts: " ++ errText lastErr) false))
  | S rounds' =>
    _ <- (if attempt >? 1 then
            (* Wait between retries *)
            let waitTime := (attempt - 1) * Second in
            call (timeSleep waitTime) (fun _ => EvSleep waitTime)
          else ret tt) ;;
    r <- call (TranslateToChineseTraditional text) (EvTranslate text) ;;
    match r with
    | inl result => ret (inl result)
    | inr err => retryLoop rounds' (attempt + 1) (Some err) text maxRetries
    end
  end.

Definition translateWithRetry (text : gostring) (maxRetries : Z)
  : M W (result gostring) :=
  retryLoop (Z.to_nat maxRetries) 1 None text maxRetries.

(** The loop of [TranslateEntries]; [translated] is the slice built so
    far. *)
Fixpoint translateLoop (entries translated : list SubtitleEntry)
  : M W (list SubtitleEntry) :=
  match entries with
  | [] => ret translated
  | entry :: rest =>
    r <- translateWithRetry (Text entry) 3 ;;
    let translatedText :=
      match r with
      | inl translatedText => translatedText
      | inr _ => Text entry (* Fallback to original text *)
      end in
    let translatedEntry :=
      mkEntry (Index entry) (StartTime entry) (EndTime entry)
              translatedText in
    translateLoop rest (translated ++ [translatedEntry])
  end.

Definition TranslateEntries (entries : list SubtitleEntry)
  : M W (list SubtitleEntry * option error) :=
  translated <- translateLoop entries [] ;;
  ret (translated, None).

End Adapter.

End subtitle.

(** ** The clients, over the world *)

Module JellyfinClient.

Import jellyfin.

Section Client.

Context {W : Type} `{Env W}.

(** [GetMediaWithoutChineseSubtitles]: the request and the decoding of
    its response are the catalog's [listItems]. *)
Definition GetMediaWithoutChineseSubtitles
  : M W (result (list MediaItem)) :=
  r <- call listItems EvListItems ;;
  match r with
  | inr err => ret (inr err)
  | inl items => ret (inl (filterItems items))
  end.

Definition GetVideoPath (itemID : gostring) : M W (result gostring) :=
  r <- call (GetItem itemID) (EvGetItem itemID) ;;
  match r with
  | inr err => ret (inr err)
  | inl item =>
    match MediaSources item with
    | source :: _ => ret (inl (SourcePath source))
    | [] => ret (inl (Path item))
    end
  end.

End Client.

End JellyfinClient.

Module OpenSubtitlesClient.

Import opensubtitles.

Section Client.

Context {W : Type} `{Env W}.

Definition FindBestSubtitle (movieName language : gostring)
  : M W (result Subtitle) :=
  r <- call (SearchSubtitles movieName [] language)
            (EvSearchSubtitles movieName [] language) ;;
  match r with
  | inr err => ret (inr err)
  | inl subtitles =>
    match subtitles with
    | [] => ret (inr (Errorf (go "no subtitles found")))
    | first :: _ => ret (inl first)
    end
  end.

End Client.

End OpenSubtitlesClient.

(** ** package handlers *)

Module handlers.

Import subtitle.

Record Request : Type := mkRequest { Method : gostring; URLPath : gostring }.

(** What the handler writes: the status and the body. *)
Record Response : Type := mkResponse { StatusCode : Z; Body : gostring }.

Definition StatusOK : Z := 200.
Definition StatusBadRequest : Z := 400.
Definition StatusNotFound : Z := 404.
Definition StatusMethodNotAllowed : Z := 405.
Definition StatusInternalServerError : Z := 500.

(** [http.Error(w, msg, code)] *)
Definition httpError (msg : gostring) (code : Z) : Response :=
  mkResponse code (msg ++ [LF]).

(** The permission bits [0755] and [0644]. *)
Definition perm0755 : Z := 493.
Definition perm0644 : Z := 420.

Definition isNotExist (err : option error) : bool :=
  match err with
  | Some e => notExist e
  | None => false
  end.

Section Handler.

Context {W : Type} `{Env W} `{Translator W}.

Variable Config : config.Config.

Definition canWriteToDirectory (dirPath : gostring) : M W bool :=
  (* Check if directory exists *)
  statErr <- call (osStat dirPath) (EvStat dirPath) ;;
  created <-
    (if isNotExist statErr then
       (* Try to create the directory *)
       err <- call (osMkdirAll dirPath perm0755) (EvMkdirAll dirPath perm0755) ;;
       match err with
       | Some _ => ret false
       | None => ret true
       end
     else ret true) ;;
  if negb created then ret false
  else
    (* Try to create a temporary file to test write permissions *)
    let tempFile :=
      filepath.Join [dirPath; go ".subtitle-hunter-write-test"] in
    err <- call (osCreate tempFile) (EvCreate tempFile) ;;
    match err with
    | Some _ => ret false
    | None =>
      _ <- call (fileClose tempFile) (fun _ => EvClose tempFile) ;;
      _ <- call (osRemove tempFile) (EvRemove tempFile) ;;
      ret true
    end.

Definition generateSubtitlePath (videoPath language : gostring)
  : M W (gostring * gostring) :=
  let base := strings.TrimSuffix (filepath.Base videoPath)
                                 (filepath.Ext videoPath) in
  let fileName := base ++ go "." ++ language ++ go ".srt" in
  let fallback : M W (gostring * gostring) :=
    (* Fallback: save to downloads directory *)
    let downloadsDir := config.SubtitleDirectory Config in
    _ <- call (osMkdirAll downloadsDir perm0755)
              (EvMkdirAll downloadsDir perm0755) ;;
    let fallbackPath := filepath.Join [downloadsDir; fileName] in
    ret (fallbackPath, go "downloads") in
  (* If direct save is enabled, try to save to the media directory first *)
  if config.EnableDirectSave Config then
    (* Map the Jellyfin path to container path *)
    let containerPath :=
      config.MapJellyfinPathToContainer Config videoPath in
    let mediaDir := filepath.Dir containerPath in
    let mediaSubtitlePath := filepath.Join [mediaDir; fileName] in
    (* Check if we can write to the media directory *)
    ok <- canWriteToDirectory mediaDir ;;
    if ok then ret (mediaSubtitlePath, go "media")
    else fallback
  else fallback.

Definition downloadAndSaveSubtitle (sub : opensubtitles.Subtitle)
  (videoPath language : gostring) : M W (result gostring) :=
  r <- call (DownloadSubtitle sub) (EvDownloadSubtitle sub) ;;
  match r with
  | inr err => ret (inr (Errorf_w (go "failed to download subtitle") err))
  | inl content =>
    '(subtitlePath, saveLocation) <- generateSubtitlePath videoPath language ;;
    werr <- call (osWriteFile subtitlePath content perm0644)
                 (EvWriteFile subtitlePath content perm0644) ;;
    match werr with
    | Some err =>
      ret (inr (Errorf_w (go "failed to write subtitle file") err))
    | None => ret (inl saveLocation)
    end
  end.

Definition translateAndSaveSubtitle (sub : opensubtitles.Subtitle)
  (videoPath : gostring) : M W (result gostring) :=
  r <- call (DownloadSubtitle sub) (EvDownloadSubtitle sub) ;;
  match r with
  | inr err =>
    ret (inr (Errorf_w (go "failed to download English subtitle") err))
  | inl content =>
    match Parse content with
    | (_, Some err) =>
      ret (inr (Errorf_w (go "failed to parse subtitle") err))
    | (entries, None) =>
      tr <- TranslateEntries entries ;;
      match tr with
      | (_, Some err) =>
        ret (inr (Errorf_w (go "failed to translate subtitle") err))
      | (translatedEntries, None) =>
        let translatedContent := Format translatedEntries in
        '(subtitlePath, saveLocation) <-
          generateSubtitlePath videoPath (go "zh-Hant") ;;
        werr <- call (osWriteFile subtitlePath translatedContent perm0644)
                     (EvWriteFile subtitlePath translatedContent perm0644) ;;
        match werr with
        | Some err =>
          ret (inr (Errorf_w (go "failed to write subtitle file") err))
        | None => ret (inl saveLocation)
        end
      end
    end
  end.

(** The end of [ProcessHandler], once the subtitle is saved. *)
Definition finish (itemID saveLocation : gostring) : M W Response :=
  _ <- call (RefreshMetadata itemID) (EvRefreshMetadata itemID) ;;
  let successMessage :=
    if streq saveLocation (go "media") then
      go "Subtitle processed successfully and saved to media directory (Jellyfin will detect automatically)"
    else
      go "Subtitle processed successfully and saved to downloads directory ("
      ++ config.SubtitleDirectory Config ++ go ")" in
  ret (mkResponse StatusOK successMessage).

Definition ProcessHandler (r : Request) : M W Response :=
  if negb (streq (Method r) (go "POST")) then
    ret (httpError (go "Method not allowed") StatusMethodNotAllowed)
  else
    let itemID := strings.TrimPrefix (URLPath r) (go "/process/") in
    if streq itemID [] then
      ret (httpError (go "Item ID required") StatusBadRequest)
    else
      ir <- call (GetItem itemID) (EvGetItem itemID) ;;
      match ir with
      | inr err =>
        ret (httpError (go "Failed to get item details: " ++ errMsg err)
                       StatusInternalServerError)
      | inl item =>
        let videoPath :=
          match jellyfin.MediaSources item with
          | source :: _ => jellyfin.SourcePath source
          | [] => jellyfin.Path item
          end in
        let searchQuery := jellyfin.GetSearchQuery item in
        cr <- OpenSubtitlesClient.FindBestSubtitle searchQuery (go "zh-TW") ;;
        match cr with
        | inl chineseSubtitle =>
          lr <- downloadAndSaveSubtitle chineseSubtitle videoPath
                                        (go "zh-Hant") ;;
          match lr with
          | inr err =>
            ret (httpError (go "Failed to save Chinese subtitle: "
                            ++ errMsg err) StatusInternalServerError)
          | inl location => finish itemID location
          end
        | inr _ =>
          er <- OpenSubtitlesClient.FindBestSubtitle searchQuery (go "en") ;;
          match er with
          | inr err =>
            ret (httpError (go "No subtitles found: " ++ errMsg err)
                           StatusNotFound)
          | inl englishSubtitle =>
            lr <- translateAndSaveSubtitle englishSubtitle videoPath ;;
            match lr with
            | inr err =>
              ret (httpError (go "Failed to translate subtitle: "
                              ++ errMsg err) StatusInternalServerError)
            | inl location => finish itemID location
            end
          end
        end
      end.

End Handler.

End handlers.

(** ** What the properties speak about *)

(** *** The discovery filter *)

Module discovery.

Import jellyfin.

(** The target-equivalent language tags. *)
Definition targetTags : list gostring := [go "zh-TW"; go "zh-Hant"; go "chi"].

(** A stream descriptor of subtitle kind whose tag is one of them. *)
Definition matchingStream (s : MediaStream) : Prop :=
  StreamType s = go "Subtitle" /\ In (Language s) targetTags.

(** The item that shows how external streams are treated: one external
    subtitle stream in the target language and nothing else. *)
Definition externalOnly : MediaItem :=
  mkMediaItem (go "m1") (go "Movie One") (go "Movie") (go "/data/media/one.mkv")
              [] [] 0 0 2020 []
              [mkMediaStream (go "Subtitle") (go "zh-TW") (go "subrip") true].

End discovery.

(** *** The search query *)

Module query.

Import jellyfin.

(** The item of the scenario: episode 5 of season 2 of the series Foo. *)
Definition ep42 : MediaItem :=
  mkMediaItem (go "ep42") (go "Pilot") (go "Episode") (go "/data/media/Foo/S02E05.mkv")
              (go "Foo") (go "Season 2") 5 2 0
              [mkMediaSource (go "/data/media/Foo/S02E05.mkv")] [].

Definition movieWithYear : MediaItem :=
  mkMediaItem (go "m2") (go "Heat") (go "Movie") (go "/data/media/Heat.mkv")
              [] [] 0 0 1995 [] [].

Definition movieNoYear : MediaItem :=
  mkMediaItem (go "m3") (go "Heat") (go "Movie") (go "/data/media/Heat.mkv")
              [] [] 0 0 0 [] [].

Definition episodeNoSeries : MediaItem :=
  mkMediaItem (go "e9") (go "Pilot") (go "Episode") (go "/data/media/x.mkv")
              [] [] 1 1 0 [] [].

Definition boxSet : MediaItem :=
  mkMediaItem (go "b1") (go "Collection") (go "BoxSet") [] [] [] 0 0 2001 [] [].

(** A configuration that maps [/data/media] to [/media]. *)
Definition mapped : config.Config :=
  config.mkConfig (go "http://localhost:8096") (go "key") (go "user") (go "os-key")
                  8080 (go "./downloads") true (go "/data/media") (go "/media").

(** The same without a mapping. *)
Definition unmapped : config.Config :=
  config.mkConfig (go "http://localhost:8096") (go "key") (go "user") (go "os-key")
                  8080 (go "./downloads") true [] [].

End query.

(** *** The translation adapter *)

Module adapter.

Import subtitle.

(** The calls of attempt number [n] with outcome [r]: a wait of [n - 1]
    seconds when [n] is not the first attempt, then the translation call. *)
Definition attemptEvents (text : gostring) (n : Z) (r : result gostring)
    : list Event :=
  (if n >? 1 then [EvSleep ((n - 1) * Second)] else [])
  ++ [EvTranslate text r].

(** The calls of consecutive attempts, the first of them numbered [n]. *)
Fixpoint retryTrace (text : gostring) (n : Z) (rs : list (result gostring))
    : list Event :=
  match rs with
  | [] => []
  | r :: rest => attemptEvents text n r ++ retryTrace text (n + 1) rest
  end.

Definition failures (errs : list error) : list (result gostring) :=
  map (fun e => inr e) errs.

(** The error [translateWithRetry] returns when the last of three attempts
    failed with [err]. *)
Definition exhausted (err : error) : error :=
  mkError (go "translation failed after 3 attempts: " ++ errMsg err) false.

(** What one entry goes through: its attempts and the entry that is
    appended.  Either some attempt, the first one to succeed, gives the
    text, or three attempts fail and the original text is kept. *)
Inductive entryRun (e : SubtitleEntry) : SubtitleEntry -> list Event -> Prop :=
  | entry_translated (errs : list error) (translated : gostring) :
      (length errs <= 2)%nat ->
      entryRun e
        (mkEntry (Index e) (StartTime e) (EndTime e) translated)
        (retryTrace (Text e) 1 (failures errs ++ [inl translated]))
  | entry_kept (e1 e2 e3 : error) :
      entryRun e
        (mkEntry (Index e) (StartTime e) (EndTime e) (Text e))
        (retryTrace (Text e) 1 (failures [e1; e2; e3])).

(** A batch: the entries one after the other. *)
Inductive batchRun
    : list SubtitleEntry -> list SubtitleEntry -> list Event -> Prop :=
  | batch_nil : batchRun [] [] []
  | batch_cons e o t es os ts :
      entryRun e o t -> batchRun es os ts ->
      batchRun (e :: es) (o :: os) (t ++ ts).

End adapter.

(** *** A concrete world for the examples

    The world counts the translation calls made so far.  The catalog knows
    one item, the provider answers a search by language, a directory can be
    written to or not, and the backend refuses some texts. *)

Module scenario.

Record Setup : Type := mkSetup {
    catalogItem : result jellyfin.MediaItem;
    searchResult : gostring -> result (list opensubtitles.Subtitle);
    downloadResult : result gostring;
    dirExists : gostring -> bool;
    writable : gostring -> bool;
    refuses : nat -> gostring -> bool
  }.

Definition denied : error := mkError (go "permission denied") false.
Definition missing : error := mkError (go "no such file or directory") true.
Definition rateLimited : error :=
  mkError (go "Google Translate returned HTML error page, possibly rate limited or blocked")
          false.

Definition okIf (b : bool) (e : error) : option error :=
  if b then None else Some e.

#[local] Instance env (s : Setup) : Env nat := {
    timeSleep := fun _ w => (tt, w);
    listItems := fun w => (inl [], w);
    GetItem := fun _ w => (catalogItem s, w);
    RefreshMetadata := fun _ w => (None, w);
    SearchSubtitles := fun _ _ language w => (searchResult s language, w);
    DownloadSubtitle := fun _ w => (downloadResult s, w);
    osStat := fun name w => (okIf (dirExists s name) missing, w);
    osMkdirAll := fun path _ w => (okIf (writable s path) denied, w);
    osCreate := fun name w => (okIf (writable s (filepath.Dir name)) denied, w);
    fileClose := fun _ w => (tt, w);
    osRemove := fun _ w => (None, w);
    osWriteFile := fun name _ _ w => (okIf (writable s (filepath.Dir name)) denied, w)
  }.

(** The backend of the examples answers with the text in upper case
    brackets; the call number [w] and the text decide whether it refuses. *)
#[local] Instance translator (s : Setup) : subtitle.Translator nat := {
    TranslateToChineseTraditional := fun text w =>
      (if refuses s w text then inr rateLimited
       else inl (go "[zh] " ++ text), S w)
  }.

Definition english : opensubtitles.Subtitle :=
  opensubtitles.mkSubtitle (go "sub-en-1") 101 (go "en") [] 0 (go "Foo.S02E05.en.srt") [].

Definition chinese : opensubtitles.Subtitle :=
  opensubtitles.mkSubtitle (go "sub-zh-1") 202 (go "zh-TW") [] 0 (go "Foo.S02E05.zh.srt") [].

(** Two cues, with CRLF line endings. *)
Definition twoCues : gostring :=
  go "1" ++ [CR; LF] ++ go "00:00:01,000 --> 00:00:02,500" ++ [CR; LF]
  ++ go "Hello" ++ [CR; LF] ++ [CR; LF]
  ++ go "2" ++ [CR; LF] ++ go "00:00:03,000 --> 00:00:04,000" ++ [CR; LF]
  ++ go "Bye" ++ [CR; LF].

Definition hello : subtitle.SubtitleEntry :=
  subtitle.mkEntry 1 (go "00:00:01,000") (go "00:00:02,500") (go "Hello").

Definition bye : subtitle.SubtitleEntry :=
  subtitle.mkEntry 2 (go "00:00:03,000") (go "00:00:04,000") (go "Bye").

(** Only English subtitles exist, the mapped media directory is writable,
    and the backend refuses the text [Bye] every time. *)
Definition fallbackOnly : Setup :=
  mkSetup (inl query.ep42)
          (fun language =>
             if streq language (go "en") then inl [english] else inl [])
          (inl twoCues)
          (fun _ => true)
          (fun dir => existsb (streq dir)
                        [go "/media/Foo"; go "./downloads"; go "downloads"])
          (fun _ text => streq text (go "Bye")).

(** The same, the media directory read-only. *)
Definition readOnlyMedia : Setup :=
  mkSetup (inl query.ep42)
          (fun language =>
             if streq language (go "en") then inl [english] else inl [])
          (inl twoCues)
          (fun _ => true)
          (fun dir => existsb (streq dir) [go "./downloads"; go "downloads"])
          (fun _ text => streq text (go "Bye")).

(** No subtitle in either language. *)
Definition nothingFound : Setup :=
  mkSetup (inl query.ep42)
          (fun _ => inl [])
          (inl twoCues)
          (fun _ => true)
          (fun dir => existsb (streq dir)
                        [go "/media/Foo"; go "./downloads"; go "downloads"])
          (fun _ _ => false).

End scenario.

(** *** The save-path resolution *)

Module placement.

(** [<videoBasename>.<languageTag>.srt] *)
Definition subtitleFileName (videoPath language : gostring) : gostring :=
  strings.TrimSuffix (filepath.Base videoPath) (filepath.Ext videoPath)
  ++ go "." ++ language ++ go ".srt".

(** The mapped media directory of a video. *)
Definition mappedMediaDir (c : config.Config) (videoPath : gostring) : gostring :=
  filepath.Dir (config.MapJellyfinPathToContainer c videoPath).

(** The marker file of the writability probe. *)
Definition marker (dirPath : gostring) : gostring :=
  filepath.Join [dirPath; go ".subtitle-hunter-write-test"].

(** A step of the probe that failed: the creation of the directory or the
    creation of the marker file. *)
Definition probeStepFailed (dirPath : gostring) (t : list Event) : Prop :=
  exists e,
    In (EvMkdirAll dirPath handlers.perm0755 (Some e)) t
    \/ In (EvCreate (marker dirPath) (Some e)) t.

End placement.

(** *** The orchestrator *)

Module orchestration.

(** A search that yields no candidate: an empty answer or an error. *)
Definition noCandidate (r : result (list opensubtitles.Subtitle)) : Prop :=
  match r with
  | inl (_ :: _) => False
  | _ => True
  end.

(** The item a request names. *)
Definition itemIDOf (r : handlers.Request) : gostring :=
  strings.TrimPrefix (handlers.URLPath r) (go "/process/").

(** The authoritative path of an item: its first media source when it has
    one, its nominal path otherwise. *)
Definition videoPathOf (item : jellyfin.MediaItem) : gostring :=
  match jellyfin.MediaSources item with
  | source :: _ => jellyfin.SourcePath source
  | [] => jellyfin.Path item
  end.

(** The calls every request makes before it decides: the item lookup, the
    search in the target language and the search in the fallback language. *)
Definition lookups (itemID : gostring) (item : jellyfin.MediaItem)
    (zh en : result (list opensubtitles.Subtitle)) : list Event :=
  [EvGetItem itemID (inl item);
   EvSearchSubtitles (jellyfin.GetSearchQuery item) [] (go "zh-TW") zh;
   EvSearchSubtitles (jellyfin.GetSearchQuery item) [] (go "en") en].

Definition processEp42 : handlers.Request :=
  handlers.mkRequest (go "POST") (go "/process/ep42").

End orchestration.

(** *** The subtitle format *)

Module srt.

Import subtitle.

(** The blocks of a document: the text between blank lines, once CRLF is
    normalised to LF. *)
Definition blocksOf (content : gostring) : list gostring :=
  strings.Split (strings.ReplaceAll content [CR; LF] [LF]) [LF; LF].

(** The lines of a block, the white space around the block removed. *)
Definition linesOf (block : gostring) : list gostring :=
  strings.Split (strings.TrimSpace block) [LF].

Definition digit (c : ascii) : Prop := 0x30 <= byteZ c <= 0x39.

(** The white space of the timing line: tab, LF, FF, CR and space. *)
Definition blank (c : ascii) : Prop :=
  In (byteZ c) [0x09; 0x0A; 0x0C; 0x0D; 0x20].

(** The value of a decimal numeral, digit after digit. *)
Definition decimalStep (n : Z) (c : ascii) : Z := n * 10 + (byteZ c - 0x30).

Definition numeralValue (ds : gostring) : Z := fold_left decimalStep ds 0.

(** [l] is the integer [n]: an optional sign and one or more decimal digits,
    the value within the range of [int]. *)
Definition integerLine (l : gostring) (n : Z) : Prop :=
  exists sign ds,
    l = sign ++ ds /\ ds <> [] /\ Forall digit ds
    /\ (((sign = [] \/ sign = go "+") /\ n = numeralValue ds)
        \/ (sign = go "-" /\ n = - numeralValue ds))
    /\ - 2 ^ 63 <= n < 2 ^ 63.

(** [t] has the shape [HH:MM:SS,mmm]. *)
Definition timestamp (t : gostring) : Prop :=
  exists h1 h2 m1 m2 s1 s2 f1 f2 f3,
    t = [h1; h2; ":"%char; m1; m2; ":"%char; s1; s2; ","%char; f1; f2; f3]
    /\ Forall digit [h1; h2; m1; m2; s1; s2; f1; f2; f3].

(** [l] holds the timing [start --> stop], white space around the arrow
    optional. *)
Definition timingIn (l start stop : gostring) : Prop :=
  timestamp start /\ timestamp stop
  /\ exists before ws1 ws2 after,
      Forall blank ws1 /\ Forall blank ws2
      /\ l = before ++ start ++ ws1 ++ go "-->" ++ ws2 ++ stop ++ after.

(** The three ways in which a block is malformed.  The index is read from
    the first line with the white space around it removed, the timing is
    searched for in the second line. *)
Definition fewerThanThreeLines (block : gostring) : Prop :=
  (length (linesOf block) < 3)%nat.

Definition lacksIndexLine (block : gostring) : Prop :=
  forall n, ~ integerLine (strings.TrimSpace (nth 0 (linesOf block) [])) n.

Definition lacksTimingLine (block : gostring) : Prop :=
  forall start stop, ~ timingIn (nth 1 (linesOf block) []) start stop.

(** What [Parse] keeps of a block, as a list. *)
Definition kept (block : gostring) : list SubtitleEntry :=
  match parseBlock block with
  | Some entry => [entry]
  | None => []
  end.

(** A document with three malformed blocks around two well-formed ones: a
    block without index, a block of two lines, a block with a bad timing
    line. *)
Definition mixed : gostring :=
  go "Downloaded from example.org" ++ [LF; LF]
  ++ go "1" ++ [LF] ++ go "00:00:01,000 --> 00:00:02,500" ++ [LF]
  ++ go "Hello" ++ [LF; LF]
  ++ go "2" ++ [LF] ++ go "00:00:03,000 --> 00:00:04,000" ++ [LF; LF]
  ++ go "3" ++ [LF] ++ go "0:00:05 -> 0:00:06" ++ [LF] ++ go "Lost" ++ [LF; LF]
  ++ go "4" ++ [LF] ++ go "00:00:07,000 --> 00:00:08,000" ++ [LF]
  ++ go "Bye" ++ [LF].

(** [s] holds a blank line: two line ends in a row. *)
Fixpoint blankLine (s : gostring) : bool :=
  match s with
  | [] => false
  | c :: r =>
    match r with
    | d :: _ => (Ascii.eqb c LF && Ascii.eqb d LF) || blankLine r
    | [] => false
    end
  end.

(** [content] is [doc] with some of its line ends written CRLF; [doc] itself
    has no CR. *)
Inductive lineEnds : gostring -> gostring -> Prop :=
  | lineEnds_nil : lineEnds [] []
  | lineEnds_byte c s d : c <> CR -> lineEnds s d -> lineEnds (c :: s) (c :: d)
  | lineEnds_crlf s d : lineEnds s d -> lineEnds (CR :: LF :: s) (LF :: d).

(** The timing line that [Format] writes. *)
Definition timingLine (e : SubtitleEntry) : gostring :=
  StartTime e ++ go " --> " ++ EndTime e.

(** The block of an entry: its index in decimal, its timing line and its
    text, without the final line end. *)
Definition blockOf (e : SubtitleEntry) : gostring :=
  fmt.d (Index e) ++ [LF] ++ timingLine e ++ [LF] ++ Text e.

(** A text in canonical form: not empty, without CR and without blank line,
    its first and its last rune no white space. *)
Definition cleanText (t : gostring) : Prop :=
  t <> [] /\ ~ In CR t /\ blankLine t = false
  /\ unicode.IsSpace (fst (utf8.DecodeRuneInString t)) = false
  /\ unicode.IsSpace (fst (utf8.DecodeLastRuneInString t)) = false.

(** An entry in canonical form: the index an [int], both timestamps of the
    shape [HH:MM:SS,mmm], the text clean. *)
Definition canonical (e : SubtitleEntry) : Prop :=
  - 2 ^ 63 <= Index e < 2 ^ 63
  /\ timestamp (StartTime e) /\ timestamp (EndTime e)
  /\ cleanText (Text e).

Definition newlines (k : nat) : gostring := repeat LF k.

(** A document: each block followed by so many line ends. *)
Fixpoint layout (blocks : list (SubtitleEntry * nat)) : gostring :=
  match blocks with
  | [] => []
  | (e, k) :: rest => blockOf e ++ newlines k ++ layout rest
  end.

(** Every block but the last is followed by a blank line or more: by two
    line ends at least. *)
Fixpoint separated (blocks : list (SubtitleEntry * nat)) : Prop :=
  match blocks with
  | [] => True
  | (_, k) :: rest =>
    match rest with
    | [] => True
    | _ => (2 <= k)%nat /\ separated rest
    end
  end.

(** What [Format] writes: the blocks, each ended by a line end, one blank
    line between two of them. *)
Definition written (entries : list SubtitleEntry) : gostring :=
  strings.Join (map (fun e => blockOf e ++ [LF]) entries) [LF].

(** The entries of a document whose line ends are normalised. *)
Definition entriesOf (doc : gostring) : list SubtitleEntry :=
  flat_map kept (strings.Split doc [LF; LF]).

(** The lines of a block as the specification words them: an index line of
    decimal digits, a timing line of the exact shape, one text line or
    more. *)
Definition wellFormedLines (index timing : gostring) (text : list gostring)
    : Prop :=
  index <> [] /\ Forall digit index
  /\ (exists start stop,
         timestamp start /\ timestamp stop
         /\ timing = start ++ go " --> " ++ stop)
  /\ text <> []
  /\ Forall (fun l => l <> [] /\ ~ In LF l /\ ~ In CR l) text.

(** A block with the index written [007] and a text line that begins with
    two spaces. *)
Definition paddedBlock : gostring :=
  go "007" ++ [LF] ++ go "00:00:01,000 --> 00:00:02,000" ++ [LF]
  ++ go "  Hi" ++ [LF].

(** A block whose index does not fit an [int]. *)
Definition hugeIndex : gostring :=
  go "99999999999999999999" ++ [LF] ++ go "00:00:01,000 --> 00:00:02,000" ++ [LF]
  ++ go "Hi" ++ [LF].

End srt.

(** ** package config: loading *)

Module environ.

Import config.

(** The environment after [godotenv.Load]: [os.Getenv], which answers the
    empty string for a variable that is not set. *)
Definition Environ : Type := gostring -> gostring.

Definition getEnv (env : Environ) (key defaultValue : gostring) : gostring :=
  let value := env key in
  if negb (streq value []) then value else defaultValue.

Definition getBoolEnv (env : Environ) (key : gostring) (defaultValue : bool)
  : bool :=
  let value := env key in
  if negb (streq value []) then
    streq value (go "true") || streq value (go "1") || streq value (go "yes")
  else defaultValue.

Definition Load (env : Environ) : Config :=
  let port := 8080 in
  let port :=
    let p := env (go "PORT") in
    if negb (streq p []) then
      match strconv.Atoi p with
      | Some parsed => parsed
      | None => port
      end
    else port in
  mkConfig
    (getEnv env (go "JELLYFIN_URL") (go "http://localhost:8096"))
    (getEnv env (go "JELLYFIN_API_KEY") [])
    (getEnv env (go "JELLYFIN_USER_ID") [])
    (getEnv env (go "OPENSUBTITLES_API_KEY") [])
    port
    (getEnv env (go "SUBTITLE_DIRECTORY") (go "./downloads"))
    (getBoolEnv env (go "ENABLE_DIRECT_SAVE") true)
    (getEnv env (go "JELLYFIN_PATH_PREFIX") [])
    (getEnv env (go "CONTAINER_PATH_PREFIX") []).

(** An environment given by a list of bindings, the first one for a key
    counting. *)
Fixpoint lookup (bindings : list (gostring * gostring)) (key : gostring)
  : gostring :=
  match bindings with
  | [] => []
  | (k, v) :: rest => if streq k key then v else lookup rest key
  end.

(** The environment of the compose file of the repository. *)
Definition compose : Environ :=
  lookup [(go "SUBTITLE_DIRECTORY", go "/app/downloads");
          (go "ENABLE_DIRECT_SAVE", go "true");
          (go "JELLYFIN_PATH_PREFIX", go "/data/media");
          (go "CONTAINER_PATH_PREFIX", go "/media");
          (go "PORT", go "8080")].

(** An environment with a port that is no numeral and the flag spelled in
    capitals. *)
Definition odd : Environ :=
  lookup [(go "PORT", go "80 "); (go "ENABLE_DIRECT_SAVE", go "TRUE");
          (go "JELLYFIN_PATH_PREFIX", go "/data/media")].

(** The configuration that maps back: the two prefixes exchanged. *)
Definition swapped (c : Config) : Config :=
  mkConfig (JellyfinURL c) (JellyfinAPIKey c) (JellyfinUserID c)
           (OpenSubtitlesKey c) (Port c) (SubtitleDirectory c)
           (EnableDirectSave c) (ContainerPathPrefix c) (JellyfinPathPrefix c).

End environ.

(** ** package opensubtitles: the search response *)

Module searchresponse.

Record File : Type := mkFile { FileID : Z; FileName : gostring }.

Record Attributes : Type := mkAttributes {
    SubtitleID : gostring;
    Language : gostring;
    URL : gostring;
    Files : list File;
    MovieHash : gostring;
    Release : gostring
  }.

Record Item : Type := mkItem {
    ID : gostring;
    Type_ : gostring;
    Attrs : Attributes
  }.

(** The body of the conversion loop of [SearchSubtitles] for one item of
    the response. *)
Definition subtitleOf (item : Item) : opensubtitles.Subtitle :=
  let subtitle :=
    opensubtitles.mkSubtitle (SubtitleID (Attrs item)) 0
      (Language (Attrs item)) [] 0 [] (URL (Attrs item)) in
  match Files (Attrs item) with
  | file :: _ =>
    opensubtitles.mkSubtitle (opensubtitles.ID subtitle) (FileID file)
      (opensubtitles.Language subtitle) (opensubtitles.MovieHash subtitle)
      (opensubtitles.MovieBytes subtitle) (FileName file)
      (opensubtitles.URL subtitle)
  | [] => subtitle
  end.

(** The conversion loop of [SearchSubtitles] over [searchResp.Data]. *)
Definition subtitlesOf (data : list Item) : list opensubtitles.Subtitle :=
  fold_left (fun subtitles item => subtitles ++ [subtitleOf item]) data [].

(** An answer of two items: the first with two files, the second with
    none. *)
Definition answer : list Item :=
  [mkItem (go "9000") (go "subtitle")
     (mkAttributes (go "sub-zh-1") (go "zh-TW") (go "https://example.org/1")
        [mkFile 202 (go "Foo.S02E05.zh.srt"); mkFile 203 (go "Foo.S02E05.cd2.srt")]
        (go "abcdef") (go "Foo.S02E05.WEB"));
   mkItem (go "9001") (go "subtitle")
     (mkAttributes (go "sub-zh-2") (go "zh-TW") (go "https://example.org/2")
        [] [] [])].

End searchresponse.

(** ** [extractMovieName], as both packages opensubtitles and handlers
    define it *)

Module moviename.

Definition extractMovieName (videoPath : gostring) : gostring :=
  let fileName := filepath.Base videoPath in
  let name := strings.TrimSuffix fileName (filepath.Ext fileName) in
  let name := strings.ReplaceAll name (go ".") (go " ") in
  let name := strings.ReplaceAll name (go "_") (go " ") in
  strings.TrimSpace name.

End moviename.

(** *** Reading a query back *)

Module naming.

(** The integer a numeral with an optional minus sign stands for. *)
Definition signedValue (s : gostring) : Z :=
  match s with
  | c :: r =>
    if Ascii.eqb c "-" then - srt.numeralValue r else srt.numeralValue s
  | [] => 0
  end.

(** Episode 7 of season 12 of the series of [query.ep42]. *)
Definition later : jellyfin.MediaItem :=
  jellyfin.mkMediaItem (go "ep99") (go "Finale") (go "Episode")
    (go "/data/media/Foo/S12E07.mkv") (go "Foo") (go "Season 12") 7 12 0 [] [].

End naming.

(** *** A catalog to run the clients on *)

Module shelf.

Import jellyfin.

(** A movie that comes with an external subtitle stream tagged [chi]; its
    media source is not its nominal path. *)
Definition dubbed : MediaItem :=
  mkMediaItem (go "m7") (go "Ran") (go "Movie") (go "/data/media/Ran.mkv")
              [] [] 0 0 1985
              [mkMediaSource (go "/data/media/Ran (1985)/Ran.mkv")]
              [mkMediaStream (go "Subtitle") (go "chi") (go "subrip") true].

Definition catalog : list MediaItem :=
  [query.ep42; dubbed; query.movieNoYear].

Definition unreachable : error :=
  mkError (go "failed to fetch items: connection refused") false.

Definition unknownItem : error :=
  mkError (go "API error (status 404): ") false.

(** The catalog answers every listing with [answer] and looks an item up by
    its identifier; nothing else is available. *)
#[local] Instance env (answer : result (list MediaItem)) : Env unit := {
    timeSleep := fun _ w => (tt, w);
    listItems := fun w => (answer, w);
    GetItem := fun itemID w =>
      (match answer with
       | inl items =>
         match find (fun item => streq (ID item) itemID) items with
         | Some item => inl item
         | None => inr unknownItem
         end
       | inr err => inr err
       end, w);
    RefreshMetadata := fun _ w => (None, w);
    SearchSubtitles := fun _ _ _ w => (inl [], w);
    DownloadSubtitle := fun _ w => (inr unknownItem, w);
    osStat := fun _ w => (None, w);
    osMkdirAll := fun _ _ w => (None, w);
    osCreate := fun _ w => (None, w);
    fileClose := fun _ w => (tt, w);
    osRemove := fun _ w => (None, w);
    osWriteFile := fun _ _ _ w => (None, w)
  }.

End shelf.

(** *** What a run costs *)

Module cost.

(** The number of calls of the translation backend in a trace. *)
Fixpoint translateCalls (t : list Event) : nat :=
  match t with
  | [] => O
  | EvTranslate _ _ :: rest => S (translateCalls rest)
  | _ :: rest => translateCalls rest
  end.

(** The time slept in a trace, in nanoseconds. *)
Fixpoint sleepTotal (t : list Event) : Z :=
  match t with
  | [] => 0
  | EvSleep d :: rest => d + sleepTotal rest
  | _ :: rest => sleepTotal rest
  end.

(** A call of the adapter: a wait or a translation of [text]. *)
Definition adapterCall (texts : list gostring) (ev : Event) : Prop :=
  match ev with
  | EvSleep _ => True
  | EvTranslate text _ => In text texts
  | _ => False
  end.

(** The error of [translateWithRetry] after [maxRetries] attempts, the last
    of which failed with [lastErr]. *)
Definition gaveUp (maxRetries : Z) (lastErr : option error) : error :=
  mkError (go "translation failed after " ++ fmt.d maxRetries
           ++ go " attempts: " ++ subtitle.errText lastErr) false.

End cost.

(** *** What a request does *)

Module saving.

Import handlers.

(** The calls of the writability probe and of the creation of the staging
    directory. *)
Definition fsProbe (ev : Event) : bool :=
  match ev with
  | EvStat _ _ | EvMkdirAll _ _ _ | EvCreate _ _ | EvClose _ | EvRemove _ _ =>
    true
  | _ => false
  end.

(** The calls of the translation adapter. *)
Definition isAdapter (ev : Event) : bool :=
  match ev with
  | EvSleep _ | EvTranslate _ _ => true
  | _ => false
  end.

Definition isDownload (ev : Event) : bool :=
  match ev with
  | EvDownloadSubtitle _ _ => true
  | _ => false
  end.

Definition isWriteFile (ev : Event) : bool :=
  match ev with
  | EvWriteFile _ _ _ _ => true
  | _ => false
  end.

(** A subtitle file was written. *)
Definition isWritten (ev : Event) : bool :=
  match ev with
  | EvWriteFile _ _ _ None => true
  | _ => false
  end.

Definition isRefresh (ev : Event) : bool :=
  match ev with
  | EvRefreshMetadata _ _ => true
  | _ => false
  end.

Definition isSearchIn (language : gostring) (ev : Event) : bool :=
  match ev with
  | EvSearchSubtitles _ _ l _ => streq l language
  | _ => false
  end.

Definition isCatalog (ev : Event) : bool :=
  match ev with
  | EvGetItem _ _ | EvListItems _ => true
  | _ => false
  end.

(** The steps of saving a subtitle as it is, and of saving a translated
    one. *)
Definition directStep (ev : Event) : bool :=
  isDownload ev || fsProbe ev || isWriteFile ev.

Definition fallbackStep (ev : Event) : bool :=
  directStep ev || isAdapter ev.

(** A call of the probe of [dirPath]: it concerns the directory itself or
    its marker file. *)
Definition touches (dirPath : gostring) (ev : Event) : Prop :=
  match ev with
  | EvStat name _ => name = dirPath
  | EvMkdirAll path perm _ => path = dirPath /\ perm = perm0755
  | EvCreate name _ | EvClose name | EvRemove name _ =>
    name = placement.marker dirPath
  | _ => False
  end.

(** The two places a subtitle of a video can be saved at. *)
Definition mediaTarget (c : config.Config) (videoPath language : gostring)
    : gostring :=
  filepath.Join [placement.mappedMediaDir c videoPath;
                 placement.subtitleFileName videoPath language].

Definition stagingTarget (c : config.Config) (videoPath language : gostring)
    : gostring :=
  filepath.Join [config.SubtitleDirectory c;
                 placement.subtitleFileName videoPath language].

(** The place and its class, as [generateSubtitlePath] returns them. *)
Definition target (c : config.Config) (videoPath language : gostring)
    (place : gostring * gostring) : Prop :=
  (config.EnableDirectSave c = true
   /\ place = (mediaTarget c videoPath language, go "media"))
  \/ place = (stagingTarget c videoPath language, go "downloads").

(** The statuses [ProcessHandler] answers with. *)
Definition statuses : list Z :=
  [StatusOK; StatusBadRequest; StatusNotFound; StatusMethodNotAllowed;
   StatusInternalServerError].

(** The provider has a subtitle in the target language. *)
Definition directHit : scenario.Setup :=
  scenario.mkSetup (inl query.ep42)
          (fun language =>
             if streq language (go "zh-TW") then inl [scenario.chinese]
             else inl [scenario.english])
          (inl scenario.twoCues)
          (fun _ => true)
          (fun dir => existsb (streq dir)
                        [go "/media/Foo"; go "./downloads"; go "downloads"])
          (fun _ _ => false).

(** The provider lists an English subtitle and fails to deliver it. *)
Definition brokenLink : error :=
  mkError (go "download API error (status 406): ") false.

Definition downloadFails : scenario.Setup :=
  scenario.mkSetup (inl query.ep42)
          (fun language =>
             if streq language (go "en") then inl [scenario.english]
             else inl [])
          (inr brokenLink)
          (fun _ => true)
          (fun dir => existsb (streq dir)
                        [go "/media/Foo"; go "./downloads"; go "downloads"])
          (fun _ _ => false).

(** The provider delivers a page that is no subtitle. *)
Definition notSubtitles : gostring :=
  go "<html><body>Too many requests</body></html>" ++ [LF].

Definition junkDownload : scenario.Setup :=
  scenario.mkSetup (inl query.ep42)
          (fun language =>
             if streq language (go "en") then inl [scenario.english]
             else inl [])
          (inl notSubtitles)
          (fun _ => true)
          (fun dir => existsb (streq dir)
                        [go "/media/Foo"; go "./downloads"; go "downloads"])
          (fun _ _ => false).

(** Nothing can be written anywhere. *)
Definition readOnly : scenario.Setup :=
  scenario.mkSetup (inl query.ep42)
          (fun language =>
             if streq language (go "zh-TW") then inl [scenario.chinese]
             else inl [])
          (inl scenario.twoCues)
          (fun _ => true)
          (fun _ => false)
          (fun _ _ => false).

(** The catalog does not know the item. *)
Definition unknown : scenario.Setup :=
  scenario.mkSetup (inr shelf.unknownItem)
          (fun _ => inl [])
          (inl scenario.twoCues)
          (fun _ => true)
          (fun _ => true)
          (fun _ _ => false).

Definition getEp42 : Request := mkRequest (go "GET") (go "/process/ep42").
Definition processNothing : Request := mkRequest (go "POST") (go "/process/").

End saving.

(** *** Documents that [Format] writes *)

Module documents.

Import subtitle.

(** The entries with the line ends [Format] puts after each block: two, and
    one after the last. *)
Fixpoint spaced (entries : list SubtitleEntry) : list (SubtitleEntry * nat) :=
  match entries with
  | [] => []
  | e :: rest =>
    match rest with
    | [] => [(e, 1%nat)]
    | _ => (e, 2%nat) :: spaced rest
    end
  end.

(** The two cues of the scenario with LF line ends. *)
Definition twoCuesLF : gostring :=
  go "1" ++ [LF] ++ go "00:00:01,000 --> 00:00:02,500" ++ [LF]
  ++ go "Hello" ++ [LF] ++ [LF]
  ++ go "2" ++ [LF] ++ go "00:00:03,000 --> 00:00:04,000" ++ [LF]
  ++ go "Bye" ++ [LF].

End documents.

(** ** package translator *)

Module translator.

(** [htmlTagRegex.ReplaceAllString(text, "")] for the expression
    [<[^>]*>]: a match starts at a [<] that has a [>] after it and ends at
    the first such [>]; matches are taken from left to right and do not
    overlap.  [inTag] says that the scan is inside a match. *)
Fixpoint removeTags (inTag : bool) (s : gostring) : gostring :=
  match s with
  | [] => []
  | c :: r =>
    if inTag then
      if Ascii.eqb c ">" then removeTags false r else removeTags true r
    else if Ascii.eqb c "<" && existsb (Ascii.eqb ">"%char) r then
      removeTags true r
    else c :: removeTags false r
  end.

(** [spaceRegex.ReplaceAllString(text, " ")] for the expression [\s+]: every
    maximal run of tab, LF, FF, CR and space becomes one space.
    [inRun] says that the byte before belongs to a run. *)
Fixpoint collapseSpace (inRun : bool) (s : gostring) : gostring :=
  match s with
  | [] => []
  | c :: r =>
    if regexp.isSpace c then
      if inRun then collapseSpace true r
      else " "%char :: collapseSpace true r
    else c :: collapseSpace false r
  end.

Definition cleanTextForTranslation (text : gostring) : gostring :=
  (* Remove HTML tags but preserve the content *)
  let cleanText := removeTags false text in
  (* Clean up extra whitespace *)
  let cleanText := strings.TrimSpace cleanText in
  (* Replace multiple spaces with single space *)
  let cleanText := collapseSpace false cleanText in
  cleanText.

#[local] Set Warnings "-register-all".

(** A value that [json.Unmarshal] stores in an [interface{}]. *)
Inductive JSON : Type :=
  | JNull
  | JBool (b : bool)
  | JNumber (literal : gostring)
  | JString (s : gostring)
  | JArray (elems : list JSON)
  | JObject (fields : list (gostring * JSON)).

(** The body of the loop over [translations]: what is written to the
    builder for one element. *)
Definition writePart (translatedText : gostring) (translation : JSON)
    : gostring :=
  match translation with
  | JArray (JString translatedPart :: _) => translatedText ++ translatedPart
  | _ => translatedText
  end.

(** The end of [Translate], from the decoded response on. *)
Definition textOf (response : list JSON) : result gostring :=
  match response with
  | [] => inr (Errorf (go "empty translation response"))
  | first :: _ =>
    match first with
    | JArray translations => inl (fold_left writePart translations [])
    | _ => inr (Errorf (go "unexpected response format"))
    end
  end.

(** The request: the language pair and the text; the other parameters are
    constants. *)
Record Query : Type := mkQuery { sl : gostring; tl : gostring; q : gostring }.

(** What comes back: the request failed, the body could not be read, or
    the body. *)
Inductive Reply : Type :=
  | GetFailed (err : error)
  | ReadFailed (err : error)
  | Body (body : gostring).

Class Backend (W : Type) : Type := {
    clientGet : Query -> W -> Reply * W
  }.

Definition htmlPage : error :=
  Errorf (go "Google Translate returned HTML error page, possibly rate limited or blocked").

Section Google.

Context {W : Type} `{Backend W}.

(** [json.Unmarshal(body, &result)] for a result of type [[]interface{}]. *)
Variable Unmarshal : gostring -> result (list JSON).

(** [Translate]: the outcome, the world after it and the requests sent. *)
Definition Translate (text sourceLang targetLang : gostring) (w : W)
    : result gostring * W * list Query :=
  if streq text [] then (inl [], w, [])
  else
    (* Clean the text before translation *)
    let cleanText := cleanTextForTranslation text in
    let params := mkQuery sourceLang targetLang cleanText in
    let '(reply, w') := clientGet params w in
    (match reply with
     | GetFailed err =>
       inr (Errorf_w (go "failed to call Google Translate API") err)
     | ReadFailed err => inr (Errorf_w (go "failed to read response") err)
     | Body body =>
       (* Check if response is HTML (error page) *)
       if strings.HasPrefix (strings.TrimSpace body) (go "<") then
         inr htmlPage
       else
         match Unmarshal body with
         | inr err =>
           inr (mkError (go "failed to parse translation response (body: "
                         ++ body ++ go "): " ++ errMsg err) false)
         | inl response => textOf response
         end
     end, w', [params]).

Definition TranslateToChineseTraditional (text : gostring) (w : W)
    : result gostring * W * list Query :=
  Translate text (go "en") (go "zh-TW") w.

End Google.

(** *** What the cleaned text looks like *)

(** Two spaces in a row. *)
Fixpoint twoSpaces (s : gostring) : bool :=
  match s with
  | [] => false
  | c :: r =>
    match r with
    | d :: _ => (Ascii.eqb c " " && Ascii.eqb d " ") || twoSpaces r
    | [] => false
    end
  end.

(** What one element of [translations] contributes. *)
Definition partText (translation : JSON) : gostring :=
  match translation with
  | JArray (JString translatedPart :: _) => translatedPart
  | _ => []
  end.

(** A cue with markup, over two lines. *)
Definition cue : gostring :=
  go "<i>Hello,</i>" ++ [LF] ++ go "  how   are <b>you</b>? ".

(** The backend of the examples: it answers a page for the text [Bye] and
    a translation in two parts otherwise; the world counts the requests. *)
#[local] Instance canned : Backend nat := {
    clientGet := fun params w =>
      (if streq (q params) (go "Bye") then
         Body ([LF] ++ go "<html><body>Too many requests</body></html>")
       else Body (go "ok"), S w)
  }.

Definition answerOf (body : gostring) : result (list JSON) :=
  if streq body (go "ok") then
    inl [JArray [JArray [JString (go "ni"); JString (go "x")];
                 JNull;
                 JArray [JString (go " hao")]];
         JNull; JString (go "en")]
  else inr (Errorf (go "invalid character")).

End translator.

(** ** package handlers: the listing of the start page *)

Module listing.

Import jellyfin.

Record MediaItemView : Type := mkMediaItemView {
    ViewID : gostring;
    ViewName : gostring;
    ViewType : gostring;
    ViewPath : gostring;
    ViewSeriesName : gostring;
    ViewSeasonName : gostring;
    SeasonNumber : Z;
    EpisodeNumber : Z
  }.

Record SeasonGroup : Type := mkSeasonGroup {
    Number : Z;
    SeasonGroupName : gostring;
    Episodes : list MediaItemView
  }.

(** A Go map is a finite function: the key that is absent gives [None],
    the nil pointer. *)
Record SeriesGroup : Type := mkSeriesGroup {
    SeriesGroupName : gostring;
    Seasons : Z -> option SeasonGroup
  }.

Record OrganizedMedia : Type := mkOrganizedMedia {
    Series : gostring -> option SeriesGroup;
    Movies : list MediaItemView
  }.

(** [m[key] = value] *)
Definition store {K V : Type} (eqb : K -> K -> bool) (m : K -> option V)
    (key : K) (value : V) : K -> option V :=
  fun k => if eqb key k then Some value else m k.

(** The body of the first loop of [organizeMedia]. *)
Definition organizeStep (organized : OrganizedMedia) (item : MediaItem)
    : OrganizedMedia :=
  let viewItem :=
    mkMediaItemView (ID item) (Name item) (Type_ item) (Path item)
                    (SeriesName item) (SeasonName item)
                    (ParentIndexNumber item) (IndexNumber item) in
  if streq (Type_ item) (go "Episode") then
    let seriesName := SeriesName item in
    let seriesName :=
      if streq seriesName [] then go "Unknown Series" else seriesName in
    let series :=
      match Series organized seriesName with
      | None => mkSeriesGroup seriesName (fun _ => None)
      | Some series => series
      end in
    let seasonNum := ParentIndexNumber item in
    let seasonNum :=
      if seasonNum =? 0 then 1 (* Default to season 1 if not specified *)
      else seasonNum in
    let season :=
      match Seasons series seasonNum with
      | None => mkSeasonGroup seasonNum (SeasonName item) []
      | Some season => season
      end in
    let season :=
      mkSeasonGroup (Number season) (SeasonGroupName season)
                    (Episodes season ++ [viewItem]) in
    let series :=
      mkSeriesGroup (SeriesGroupName series)
                    (store Z.eqb (Seasons series) seasonNum season) in
    mkOrganizedMedia (store streq (Series organized) seriesName series)
                     (Movies organized)
  else
    mkOrganizedMedia (Series organized) (Movies organized ++ [viewItem]).

(** The groups before they are sorted. *)
Definition grouped (items : list MediaItem) : OrganizedMedia :=
  fold_left organizeStep items (mkOrganizedMedia (fun _ => None) []).

(** [a < b] on strings: byte by byte. *)
Fixpoint stringLess (a b : gostring) : bool :=
  match a, b with
  | _, [] => false
  | [], _ :: _ => true
  | x :: a', y :: b' =>
    (byteZ x <? byteZ y) || ((byteZ x =? byteZ y) && stringLess a' b')
  end.

(** [sort.Slice(x, less)] promises a sorted rearrangement of [x] and no
    more: it is not stable.  [sorts less x x'] says that [x'] is such a
    rearrangement. *)
Definition sorts {A : Type} (less : A -> A -> bool) (x x' : list A) : Prop :=
  Permutation x x' /\ StronglySorted (fun a b => less b a = false) x'.

Definition byEpisodeNumber (a b : MediaItemView) : bool :=
  EpisodeNumber a <? EpisodeNumber b.

Definition byName (a b : MediaItemView) : bool :=
  stringLess (ViewName a) (ViewName b).

(** [organizeMedia items] may return [organized]: the groups of the first
    loop, the episodes of every season sorted by episode number and the
    movies sorted by name. *)
Definition organizeMedia (items : list MediaItem) (organized : OrganizedMedia)
    : Prop :=
  sorts byName (Movies (grouped items)) (Movies organized)
  /\ forall seriesName,
      match Series (grouped items) seriesName, Series organized seriesName with
      | None, None => True
      | Some series, Some series' =>
        SeriesGroupName series' = SeriesGroupName series
        /\ forall seasonNum,
            match Seasons series seasonNum, Seasons series' seasonNum with
            | None, None => True
            | Some season, Some season' =>
              Number season' = Number season
              /\ SeasonGroupName season' = SeasonGroupName season
              /\ sorts byEpisodeNumber (Episodes season) (Episodes season')
            | _, _ => False
            end
      | _, _ => False
      end.

(** *** What the listing shows *)

Definition viewOf (item : MediaItem) : MediaItemView :=
  mkMediaItemView (ID item) (Name item) (Type_ item) (Path item)
                  (SeriesName item) (SeasonName item)
                  (ParentIndexNumber item) (IndexNumber item).

Definition isEpisode (item : MediaItem) : bool :=
  streq (Type_ item) (go "Episode").

(** The series and the season an episode is listed under. *)
Definition seriesKey (item : MediaItem) : gostring :=
  if streq (SeriesName item) [] then go "Unknown Series" else SeriesName item.

Definition seasonKey (item : MediaItem) : Z :=
  if ParentIndexNumber item =? 0 then 1 else ParentIndexNumber item.

(** The episodes the catalog lists for a series and a season. *)
Definition listed (items : list MediaItem) (seriesName : gostring)
    (seasonNum : Z) : list MediaItem :=
  filter (fun item => isEpisode item && streq (seriesKey item) seriesName
                      && (seasonKey item =? seasonNum)) items.

(** The episodes shown for a series and a season. *)
Definition shown (organized : OrganizedMedia) (seriesName : gostring)
    (seasonNum : Z) : list MediaItemView :=
  match Series organized seriesName with
  | Some series =>
    match Seasons series seasonNum with
    | Some season => Episodes season
    | None => []
    end
  | None => []
  end.

(** Two more episodes of the series Foo, listed out of order, one of them
    without season number, and an episode without series name. *)
Definition s02e01 : MediaItem :=
  mkMediaItem (go "ep38") (go "Return") (go "Episode")
              (go "/data/media/Foo/S02E01.mkv") (go "Foo") (go "Season 2")
              1 2 0 [] [].

Definition special : MediaItem :=
  mkMediaItem (go "ep01") (go "Making of") (go "Episode")
              (go "/data/media/Foo/special.mkv") (go "Foo") (go "Specials")
              3 0 0 [] [].

Definition library : list MediaItem :=
  [query.ep42; query.movieWithYear; s02e01; special; query.episodeNoSeries;
   shelf.dubbed].

End listing.

(** *** A sort to show that [organizeMedia] returns *)

Module sorting.

Fixpoint insert {A : Type} (less : A -> A -> bool) (a : A) (l : list A)
    : list A :=
  match l with
  | [] => [a]
  | b :: rest => if less b a then b :: insert less a rest else a :: l
  end.

Fixpoint isort {A : Type} (less : A -> A -> bool) (l : list A) : list A :=
  match l with
  | [] => []
  | a :: rest => insert less a (isort less rest)
  end.

Import listing.

Definition sortSeason (season : SeasonGroup) : SeasonGroup :=
  mkSeasonGroup (Number season) (SeasonGroupName season)
                (isort byEpisodeNumber (Episodes season)).

Definition sortSeries (series : SeriesGroup) : SeriesGroup :=
  mkSeriesGroup (SeriesGroupName series)
                (fun seasonNum => option_map sortSeason (Seasons series seasonNum)).

Definition sorted (organized : OrganizedMedia) : OrganizedMedia :=
  mkOrganizedMedia
    (fun seriesName => option_map sortSeries (Series organized seriesName))
    (isort byName (Movies organized)).

End sorting.

(** ** The handler's translator *)

Module wiring.

(** [NewHandler] gives the handler the translator of package translator;
    [translateAndSaveSubtitle] hands it to [TranslateEntries]. *)
Definition google {W : Type} `{translator.Backend W}
    (Unmarshal : gostring -> result (list translator.JSON))
    : subtitle.Translator W :=
  {| subtitle.TranslateToChineseTraditional := fun text w =>
       let '(res, w', _) :=
         translator.TranslateToChineseTraditional Unmarshal text w in
       (res, w') |}.

(** The backend answers every request with a page: it is blocked. *)
Definition blocked {W : Type} `{translator.Backend W} : Prop :=
  forall params w,
  exists body w',
    translator.clientGet params w = (translator.Body body, w')
    /\ strings.HasPrefix (strings.TrimSpace body) (go "<") = true.

(** Such a backend. *)
Definition captcha : translator.Backend nat :=
  {| translator.clientGet := fun _ w =>
       (translator.Body (go "<html><body>Unusual traffic</body></html>"),
        S w) |}.

(** The cues of the scenario, and a cue without text. *)
Definition silent : subtitle.SubtitleEntry :=
  subtitle.mkEntry 3 (go "00:00:05,000") (go "00:00:06,000") [].

End wiring.

(** ** package main *)

Module startup.

Import config environ.

(** How [main] ends: [log.Fatal] with a message, or the call of
    [http.ListenAndServe] with an address. *)
Inductive Outcome : Type :=
  | Fatal (msg : gostring)
  | Listen (addr : gostring).

Definition main (env : Environ) : Outcome :=
  let cfg := Load env in
  if streq (JellyfinAPIKey cfg) [] then
    Fatal (go "JELLYFIN_API_KEY environment variable is required")
  else if streq (OpenSubtitlesKey cfg) [] then
    Fatal (go "OPENSUBTITLES_API_KEY environment variable is required")
  else if streq (JellyfinUserID cfg) [] then
    Fatal (go "JELLYFIN_USER_ID environment variable is required")
  else
    let addr := go ":" ++ fmt.d (Port cfg) in
    Listen addr.

(** The variables [main] insists on. *)
Definition required : list gostring :=
  [go "JELLYFIN_API_KEY"; go "OPENSUBTITLES_API_KEY"; go "JELLYFIN_USER_ID"].

(** An environment with the three of them and a negative port. *)
Definition keyed : Environ :=
  lookup [(go "JELLYFIN_API_KEY", go "k1"); (go "OPENSUBTITLES_API_KEY", go "k2");
          (go "JELLYFIN_USER_ID", go "u1"); (go "PORT", go "-5")].

End startup.

(** ** package jellyfin: the requests *)

Module requests.

Record Client : Type := mkClient {
    BaseURL : gostring;
    APIKey : gostring;
    UserID : gostring
  }.

Definition NewClient (baseURL apiKey userID : gostring) : Client :=
  mkClient (strings.TrimSuffix baseURL (go "/")) apiKey userID.

(** The URL of [GetMediaWithoutChineseSubtitles]. *)
Definition itemsURL (c : Client) : gostring :=
  BaseURL c ++ go "/Users/" ++ UserID c
  ++ go "/Items?Recursive=true&IncludeItemTypes=Movie,Episode&Fields=Path,MediaSources,MediaStreams".

(** The URL of [GetItem]. *)
Definition itemURL (c : Client) (itemID : gostring) : gostring :=
  BaseURL c ++ go "/Users/" ++ UserID c ++ go "/Items/" ++ itemID.

(** The URL of [RefreshMetadata]. *)
Definition refreshURL (c : Client) (itemID : gostring) : gostring :=
  BaseURL c ++ go "/Items/" ++ itemID
  ++ go "/Refresh?metadataRefreshMode=FullRefresh&replaceAllMetadata=false".

End requests.

(** ** package opensubtitles: the search request *)

Module searchrequest.

(** The parameters of [SearchSubtitles], in the order they are added;
    [url.Values.Encode] writes them sorted by key. *)
Definition searchParams (movieName imdbID language : gostring)
    : list (gostring * gostring) :=
  let params := [] in
  let params :=
    if negb (streq imdbID []) then params ++ [(go "imdb_id", imdbID)]
    else params in
  let params :=
    if negb (streq movieName []) then params ++ [(go "query", movieName)]
    else params in
  params ++ [(go "languages", language)].

(** The parameters of the search [FindBestSubtitle] makes for an item. *)
Definition paramsFor (item : jellyfin.MediaItem) (language : gostring)
    : list (gostring * gostring) :=
  searchParams (jellyfin.GetSearchQuery item) [] language.

(** An item the catalog lists without a name. *)
Definition nameless : jellyfin.MediaItem :=
  jellyfin.mkMediaItem (go "m9") [] (go "Movie") (go "/data/media/x.mkv")
                       [] [] 0 0 0 [] [].

End searchrequest.

(** *** Calls that were made *)

Module calls.

Import subtitle adapter.

Section Calls.

Context {W : Type} `{Env W} `{Translator W}.

(** [performed w t w']: the calls of the adapter that [t] records were made
    from the world [w], one after the other: each wait is a call of
    [time.Sleep] and each translation a call of the translator, on the world
    that the call before it left and with the outcome that is recorded;
    [w'] is the world after the last of them. *)
Inductive performed : W -> list Event -> W -> Prop :=
  | performed_nil w : performed w [] w
  | performed_sleep d w w1 t w' :
      timeSleep d w = (tt, w1) -> performed w1 t w' ->
      performed w (EvSleep d :: t) w'
  | performed_translate text r w w1 t w' :
      TranslateToChineseTraditional text w = (r, w1) -> performed w1 t w' ->
      performed w (EvTranslate text r :: t) w'.

(** What one entry goes through, from the world [w] to the world [w']: its
    attempts are calls that were made. *)
Definition entryRunAt (w : W) (e o : SubtitleEntry) (t : list Event) (w' : W)
    : Prop :=
  entryRun e o t /\ performed w t w'.

(** A batch, from world to world: every entry starts in the world the entry
    before it left. *)
Inductive batchRunAt
    : W -> list SubtitleEntry -> list SubtitleEntry -> list Event -> W
      -> Prop :=
  | batchAt_nil w : batchRunAt w [] [] [] w
  | batchAt_cons w e o t w1 es os ts w' :
      entryRunAt w e o t w1 -> batchRunAt w1 es os ts w' ->
      batchRunAt w (e :: es) (o :: os) (t ++ ts) w'.

(** How the text of an entry came about, in terms of the translator: the
    last call of its run is a call of the translator on the text of the
    entry that succeeded, and its answer is the text that is returned; or
    three calls of the translator failed and the text is the original. *)
Definition textFrom (w : W) (e o : SubtitleEntry) (t : list Event) (w' : W)
    : Prop :=
  (exists before wa,
      t = before ++ [EvTranslate (Text e) (inl (Text o))]
      /\ performed w before wa
      /\ TranslateToChineseTraditional (Text e) wa = (inl (Text o), w'))
  \/ (Text o = Text e
      /\ exists e1 w1 w2 e2 w3 w4 e3,
          TranslateToChineseTraditional (Text e) w = (inr e1, w1)
          /\ timeSleep (1 * Second) w1 = (tt, w2)
          /\ TranslateToChineseTraditional (Text e) w2 = (inr e2, w3)
          /\ timeSleep (2 * Second) w3 = (tt, w4)
          /\ TranslateToChineseTraditional (Text e) w4 = (inr e3, w')).

End Calls.

End calls.

(** * Properties *)

(** ** Strings *)

Lemma streq_refl (a : gostring) : streq a a = true.
Proof.
  induction a as [|x a IH]; simpl; [reflexivity|].
  now rewrite Ascii.eqb_refl, IH.
Qed.

Lemma streq_eq (a b : gostring) : streq a b = true <-> a = b.
Proof.
  split; [|intros ->; apply streq_refl].
  revert b; induction a as [|x a IH]; intros [|y b]; simpl; try discriminate; auto.
  rewrite andb_true_iff, Ascii.eqb_eq. intros [-> E]. f_equal. now apply IH.
Qed.

Lemma streq_neq (a b : gostring) : streq a b = false <-> a <> b.
Proof.
  rewrite <- streq_eq. destruct (streq a b); split; congruence.
Qed.

Lemma HasPrefix_app (p r : gostring) : strings.HasPrefix (p ++ r) p = true.
Proof.
  induction p as [|x p IH]; simpl; [now destruct r|].
  now rewrite Ascii.eqb_refl, IH.
Qed.

Lemma HasPrefix_inv (s p : gostring) :
  strings.HasPrefix s p = true -> exists r, s = p ++ r.
Proof.
  revert s; induction p as [|x p IH]; intros s.
  - intros _. now exists s.
  - destruct s as [|c s]; simpl; [discriminate|].
    rewrite andb_true_iff, Ascii.eqb_eq. intros [-> E].
    destruct (IH _ E) as [r ->]. now exists r.
Qed.

Lemma HasPrefix_iff (s p : gostring) :
  strings.HasPrefix s p = true <-> exists r, s = p ++ r.
Proof.
  split; [apply HasPrefix_inv|]. intros [r ->]. apply HasPrefix_app.
Qed.

Lemma skipn_length_app {A} (p r : list A) : skipn (length p) (p ++ r) = r.
Proof. induction p; simpl; auto. Qed.

Lemma Cut_prefix (p r : gostring) : strings.Cut (p ++ r) p = Some ([], r).
Proof.
  destruct p as [|x p]; [now destruct r|].
  cbn [strings.Cut app]. change (x :: p ++ r) with ((x :: p) ++ r).
  now rewrite HasPrefix_app, skipn_length_app.
Qed.

Lemma replaceLoop_zero (fuel : nat) (s old new : gostring) :
  strings.replaceLoop fuel s old new 0 = s.
Proof. now destruct fuel. Qed.

(** Replacing one occurrence in a string that starts with the pattern
    replaces that leading occurrence and keeps what follows. *)
Lemma Replace_leading (old new rest : gostring) :
  old <> [] ->
  strings.Replace (old ++ rest) old new 1 = new ++ rest.
Proof.
  intros Hold. unfold strings.Replace.
  destruct (streq old new) eqn:E; simpl.
  - apply streq_eq in E. now subst.
  - destruct old as [|x old]; [congruence|].
    change ((x :: old) ++ rest) with (x :: (old ++ rest)) at 1.
    cbn [length strings.replaceLoop Z.eqb].
    change (x :: old ++ rest) with ((x :: old) ++ rest).
    rewrite Cut_prefix. cbn [app]. now rewrite replaceLoop_zero.
Qed.

(** ** UTF-8 decoding *)

Module utf8_facts.

Import utf8.

Ltac by_byte c :=
  destruct c as [[] [] [] [] [] [] [] []].

(** An ASCII byte decodes to itself. *)
Lemma DecodeRune_ascii (c : ascii) (r : gostring) :
  byteZ c < RuneSelf -> DecodeRuneInString (c :: r) = (byteZ c, 1%nat).
Proof.
intros Hc. by_byte c; vm_compute in Hc; try discriminate Hc; reflexivity.
Qed.

(** A continuation byte at the head is an error of width one. *)
Lemma DecodeRune_continuation (c : ascii) (r : gostring) :
  RuneStart c = false -> DecodeRuneInString (c :: r) = (RuneError, 1%nat).
Proof.
intros Hc. by_byte c; vm_compute in Hc; try discriminate Hc; reflexivity.
Qed.

(** A byte that is not ASCII, alone, is an error of width one. *)
Lemma DecodeRune_single (c : ascii) :
  RuneSelf <= byteZ c -> DecodeRuneInString [c] = (RuneError, 1%nat).
Proof.
intros Hc. by_byte c; vm_compute in Hc; try (now elim Hc); reflexivity.
Qed.

Lemma RuneStart_ascii (c : ascii) : byteZ c < RuneSelf -> RuneStart c = true.
Proof.
intros Hc. by_byte c; vm_compute in Hc; try discriminate Hc; reflexivity.
Qed.

Lemma rev_cons_inv {A} (s : list A) (c : A) (rs : list A) :
  rev s = c :: rs -> s = rev rs ++ [c].
Proof.
intros E. rewrite <- (rev_involutive s), E. reflexivity.
Qed.

Lemma skipn_last {A} (l : list A) (c : A) : skipn (length l) (l ++ [c]) = [c].
Proof. induction l; simpl; auto. Qed.

Lemma nth_last {A} (l : list A) (c d : A) : nth (length l) (l ++ [c]) d = c.
Proof. induction l; simpl; auto. Qed.

Lemma skipn_nth {A} (i : nat) (l : list A) (d : A) :
  (i < length l)%nat -> exists r, skipn i l = nth i l d :: r.
Proof.
revert l. induction i as [|i IH]; intros [|x l] Hi; simpl in *; try lia.
- now exists l.
- apply IH. lia.
Qed.

Lemma skipn_app_plus {A} (l1 l2 : list A) (k : nat) :
  skipn (length l1 + k) (l1 ++ l2) = skipn k l2.
Proof. induction l1; simpl; auto. Qed.

Lemma scanBack_le (budget : nat) (rs : gostring) :
  (scanBack budget rs <= length rs)%nat.
Proof.
revert budget. induction rs as [|c rs IH]; intros budget; simpl; [lia|].
destruct budget; [lia|]. destruct (RuneStart c); [lia|].
specialize (IH budget). lia.
Qed.

(** The last rune of a string that is not empty: its width reaches the end
    of the string from an offset whose byte is ASCII, for the width one, or
    is the head of the encoding that a forward decoding finds there. *)
Lemma DecodeLast_cases (s : gostring) :
  s <> [] ->
  let '(_, size) := DecodeLastRuneInString s in
  exists i,
    (i + size = length s)%nat /\ (1 <= size)%nat
    /\ ((byteZ (nth i s zero) < RuneSelf /\ size = 1%nat)
        \/ (RuneSelf <= byteZ (nth i s zero)
            /\ snd (DecodeRuneInString (skipn i s)) = size)).
Proof.
intros Hs. unfold DecodeLastRuneInString.
destruct (rev s) as [|c rs] eqn:Er.
{ apply (f_equal (@rev _)) in Er. rewrite rev_involutive in Er. now subst. }
apply rev_cons_inv in Er. subst s. rewrite length_app. cbn [length].
destruct (byteZ c <? RuneSelf) eqn:Ec.
- apply Z.ltb_lt in Ec. exists (length (rev rs)).
  rewrite nth_last. split; [lia|]. split; [lia|]. now left.
- apply Z.ltb_ge in Ec.
  pose proof (scanBack_le (UTFMax - 1) rs) as Hk.
  rewrite length_rev in *.
  set (start := (length rs + 1 - 1 - scanBack (UTFMax - 1) rs)%nat).
  destruct (DecodeRuneInString (skipn start (rev rs ++ [c]))) as [r' size]
    eqn:Ed.
  destruct (Nat.eqb (start + size) (length rs + 1)) eqn:Es.
  + apply Nat.eqb_eq in Es. exists start.
    assert (Hstart : (start < length (rev rs ++ [c]))%nat).
    { rewrite length_app, length_rev. cbn [length]. subst start. lia. }
    split; [exact Es|]. split; [subst start; lia|].
    destruct (skipn_nth start _ zero Hstart) as [r Hr].
    destruct (Z.lt_ge_cases (byteZ (nth start (rev rs ++ [c]) zero)) RuneSelf)
      as [Hlt|Hge].
    * left. split; [exact Hlt|].
      rewrite Hr, (DecodeRune_ascii _ _ Hlt) in Ed. congruence.
    * right. split; [exact Hge|]. now rewrite Ed.
  + exists (length rs). rewrite <- (length_rev rs), nth_last, skipn_last.
    rewrite length_rev. split; [lia|]. split; [lia|]. right.
    split; [exact Ec|]. now rewrite (DecodeRune_single _ Ec).
Qed.

(** How the backward scan over [rs] changes when an ASCII byte and more
    follow [rs]: not at all when it ends within [rs]; otherwise no byte of
    [rs] starts a rune, the scan of [rs] covers it all and the longer scan
    goes one byte further. *)
Lemma scanBack_app (budget : nat) (rs : gostring) (a : ascii) (q : gostring) :
  RuneStart a = true ->
  (scanBack budget (rs ++ a :: q) = scanBack budget rs
   /\ (1 <= scanBack budget rs)%nat)
  \/ (scanBack budget (rs ++ a :: q) = S (length rs)
      /\ scanBack budget rs = length rs
      /\ Forall (fun x => RuneStart x = false) rs).
Proof.
intros Ha. revert budget.
induction rs as [|x rs IH]; intros budget; cbn [app scanBack length].
- right. destruct budget; [auto|]. rewrite Ha. auto.
- destruct budget as [|budget]; [left; split; [reflexivity | lia]|].
  destruct (RuneStart x) eqn:Ex; [left; split; [reflexivity | lia]|].
  destruct (IH budget) as [[E Hk]|(E1 & E2 & Hall)].
  + left. rewrite E. split; [reflexivity | lia].
  + right. rewrite E1, E2. auto.
Qed.

(** The last rune of a string does not depend on what precedes an ASCII
    byte before it. *)
Lemma DecodeLast_after_ascii (p : gostring) (a : ascii) (t : gostring) :
  byteZ a < RuneSelf -> t <> [] ->
  DecodeLastRuneInString (p ++ a :: t) = DecodeLastRuneInString t.
Proof.
intros Ha Ht. unfold DecodeLastRuneInString.
destruct (rev t) as [|c rs] eqn:Er.
{ apply (f_equal (@rev _)) in Er. rewrite rev_involutive in Er. now subst. }
rewrite rev_app_distr. cbn [rev]. rewrite <- app_assoc, Er. cbn [app].
destruct (byteZ c <? RuneSelf) eqn:Ec; [reflexivity|].
apply Z.ltb_ge in Ec.
apply rev_cons_inv in Er. subst t.
assert (Hlen : length (rev rs ++ [c]) = (length rs + 1)%nat)
  by (rewrite length_app, length_rev; reflexivity).
rewrite length_app. cbn [length]. rewrite !Hlen.
pose proof (scanBack_le (UTFMax - 1) rs) as Hk.
destruct (scanBack_app (UTFMax - 1) rs a (rev p) (RuneStart_ascii _ Ha))
  as [[E Hk1]|(E1 & E2 & Hall)].
- rewrite E.
  replace (length p + S (length rs + 1) - 1 - scanBack (UTFMax - 1) rs)%nat
    with (length (p ++ [a]) + (length rs + 1 - 1 - scanBack (UTFMax - 1) rs))%nat
    by (rewrite length_app; cbn [length]; lia).
  change (p ++ a :: rev rs ++ [c]) with (p ++ [a] ++ (rev rs ++ [c])).
  rewrite app_assoc, skipn_app_plus.
  destruct (DecodeRuneInString _) as [r' size].
  rewrite length_app. cbn [length].
  destruct (Nat.eqb_spec (length rs + 1 - 1 - scanBack (UTFMax - 1) rs + size)
                         (length rs + 1)) as [E1|E1];
    destruct (Nat.eqb_spec
                (length p + 1 + (length rs + 1 - 1 - scanBack (UTFMax - 1) rs)
                 + size)
                (length p + S (length rs + 1))) as [E2|E2];
    try reflexivity; lia.
- rewrite E1, E2.
  replace (length p + S (length rs + 1) - 1 - S (length rs))%nat
    with (length p + 0)%nat by lia.
  replace (length rs + 1 - 1 - length rs)%nat with 0%nat by lia.
  rewrite skipn_app_plus.
  cbn [skipn app]. rewrite (DecodeRune_ascii _ _ Ha).
  assert (Et : DecodeRuneInString (rev rs ++ [c]) = (RuneError, 1%nat)).
  { destruct (rev rs) as [|x l] eqn:El.
    - cbn [app]. now apply DecodeRune_single.
    - cbn [app]. apply DecodeRune_continuation.
      rewrite Forall_forall in Hall. apply Hall.
      apply in_rev. rewrite El. now left. }
  rewrite Et.
  destruct (Nat.eqb_spec (length p + 0 + 1) (length p + S (length rs + 1)));
    [lia|].
  destruct (Nat.eqb_spec (0 + 1) (length rs + 1)); reflexivity.
Qed.

End utf8_facts.

(** ** Trimming white space *)

Module trim_facts.

Import utf8 strings utf8_facts.

Lemma asciiSpace_ascii (c : ascii) : asciiSpace c = true -> byteZ c < RuneSelf.
Proof.
unfold asciiSpace, RuneSelf. rewrite !orb_true_iff, !Z.eqb_eq. lia.
Qed.

(** On ASCII the Unicode white space is the table [asciiSpace]. *)
Lemma IsSpace_ascii (c : ascii) :
  byteZ c < RuneSelf -> unicode.IsSpace (byteZ c) = asciiSpace c.
Proof.
intros Hc. unfold unicode.IsSpace, asciiSpace, unicode.MaxLatin1, RuneSelf in *.
destruct (Z.leb_spec (byteZ c) 255); [|lia].
destruct (Z.eqb_spec (byteZ c) 133); [lia|].
destruct (Z.eqb_spec (byteZ c) 160); [lia|].
now rewrite !orb_false_r.
Qed.

Lemma trimStart_spaces (p s : gostring) :
  Forall (fun c => asciiSpace c = true) p -> trimStart (p ++ s) = trimStart s.
Proof.
induction 1 as [|c p Hc _ IH]; [reflexivity|].
cbn [app trimStart]. apply asciiSpace_ascii in Hc as Hlt.
destruct (Z.leb_spec RuneSelf (byteZ c)); [lia|]. now rewrite Hc.
Qed.

Lemma trimStart_stop (c : ascii) (r : gostring) :
  byteZ c < RuneSelf -> asciiSpace c = false ->
  trimStart (c :: r) = (false, c :: r).
Proof.
intros Hlt Hc. cbn [trimStart].
destruct (Z.leb_spec RuneSelf (byteZ c)); [lia|]. now rewrite Hc.
Qed.

Lemma trimStart_slow (c : ascii) (r : gostring) :
  RuneSelf <= byteZ c -> trimStart (c :: r) = (true, c :: r).
Proof.
intros Hge. cbn [trimStart].
destruct (Z.leb_spec RuneSelf (byteZ c)); [reflexivity | lia].
Qed.

(** Nothing is trimmed on the left of a string whose first rune is not
    white space. *)
Lemma TrimLeft_keep (s : gostring) :
  unicode.IsSpace (fst (DecodeRuneInString s)) = false ->
  TrimLeftFunc s unicode.IsSpace = s.
Proof.
intros Hs. unfold TrimLeftFunc. destruct s as [|c r]; [reflexivity|].
cbn [length trimLeftLoop].
destruct (DecodeRuneInString (c :: r)) as [x size]. cbn [fst] in Hs.
now rewrite Hs.
Qed.

(** Nothing is trimmed on the right of a string whose last rune is not
    white space. *)
Lemma TrimRight_keep (s : gostring) :
  s <> [] ->
  unicode.IsSpace (fst (DecodeLastRuneInString s)) = false ->
  TrimRightFunc s unicode.IsSpace = s.
Proof.
intros Hne Hs. unfold TrimRightFunc.
pose proof (DecodeLast_cases s Hne) as Hc.
destruct s as [|c0 r0] eqn:Es; [congruence|]. rewrite <- Es in *.
assert (El : length s = S (length r0)) by now subst.
rewrite El at 1 2. cbn [lastIndexLoop]. rewrite <- El.
rewrite firstn_all.
destruct (DecodeLastRuneInString s) as [x size]. cbn [fst] in Hs.
rewrite Hs.
destruct Hc as (i & Hi & Hsize & [[Hlt ->]|[Hge Hw]]).
- replace (length s - 1)%nat with i by lia.
  destruct (Z.leb_spec RuneSelf (byteZ (nth i s zero))); [lia|].
  rewrite Hi. apply firstn_all.
- replace (length s - size)%nat with i by lia.
  destruct (Z.leb_spec RuneSelf (byteZ (nth i s zero))); [|lia].
  rewrite Hw, Hi. apply firstn_all.
Qed.

(** Nothing is trimmed from a string whose first and last runes are not
    white space. *)
Lemma TrimSpace_keep (s : gostring) :
  unicode.IsSpace (fst (DecodeRuneInString s)) = false ->
  unicode.IsSpace (fst (DecodeLastRuneInString s)) = false ->
  TrimSpace s = s.
Proof.
intros Hfirst Hlast. destruct s as [|c r] eqn:Es; [reflexivity|].
rewrite <- Es in *. assert (Hne : s <> []) by now subst.
unfold TrimSpace.
destruct (Z.lt_ge_cases (byteZ c) RuneSelf) as [Hlt|Hge].
- assert (Hc : asciiSpace c = false).
  { rewrite <- (IsSpace_ascii _ Hlt).
    rewrite Es, (DecodeRune_ascii _ _ Hlt) in Hfirst. exact Hfirst. }
  rewrite Es at 1. rewrite (trimStart_stop _ _ Hlt Hc), <- Es.
  destruct (rev s) as [|d rs] eqn:Er.
  { apply (f_equal (@rev _)) in Er. rewrite rev_involutive in Er. now subst. }
  destruct (Z.lt_ge_cases (byteZ d) RuneSelf) as [Hdl|Hdg].
  + assert (Hd : asciiSpace d = false).
    { rewrite <- (IsSpace_ascii _ Hdl).
      unfold DecodeLastRuneInString in Hlast. rewrite Er in Hlast.
      destruct (Z.ltb_spec (byteZ d) RuneSelf); [exact Hlast | lia]. }
    rewrite (trimStart_stop _ _ Hdl Hd), <- Er. apply rev_involutive.
  + rewrite (trimStart_slow _ _ Hdg), <- Er, rev_involutive.
    now apply TrimRight_keep.
- rewrite Es at 1. rewrite (trimStart_slow _ _ Hge), <- Es.
  unfold TrimFunc. rewrite (TrimLeft_keep _ Hfirst).
  now apply TrimRight_keep.
Qed.

(** ASCII white space around a string that begins with an ASCII byte other
    than white space and whose last rune is not white space is trimmed
    away, and nothing else. *)
Lemma TrimSpace_padded (p q : gostring) (c : ascii) (r : gostring) :
  Forall (fun x => asciiSpace x = true) p ->
  Forall (fun x => asciiSpace x = true) q ->
  byteZ c < RuneSelf -> asciiSpace c = false ->
  unicode.IsSpace (fst (DecodeLastRuneInString (c :: r))) = false ->
  TrimSpace (p ++ (c :: r) ++ q) = c :: r.
Proof.
intros Hp Hq Hlt Hc Hlast. unfold TrimSpace.
rewrite (trimStart_spaces _ _ Hp). cbn [app].
rewrite (trimStart_stop _ _ Hlt Hc).
change (c :: r ++ q) with ((c :: r) ++ q). rewrite rev_app_distr.
rewrite trimStart_spaces by now apply Forall_rev.
set (s := c :: r) in *. assert (Hne : s <> []) by discriminate.
destruct (rev s) as [|d rs] eqn:Er.
{ apply (f_equal (@rev _)) in Er. rewrite rev_involutive in Er. now subst. }
destruct (Z.lt_ge_cases (byteZ d) RuneSelf) as [Hdl|Hdg].
- assert (Hd : asciiSpace d = false).
  { rewrite <- (IsSpace_ascii _ Hdl).
    unfold DecodeLastRuneInString in Hlast. rewrite Er in Hlast.
    destruct (Z.ltb_spec (byteZ d) RuneSelf); [exact Hlast | lia]. }
  rewrite (trimStart_stop _ _ Hdl Hd), <- Er. apply rev_involutive.
- rewrite (trimStart_slow _ _ Hdg), <- Er, rev_involutive.
  now apply TrimRight_keep.
Qed.

End trim_facts.

(** ** Cutting, splitting and joining *)

Module split_facts.

Import strings.

Lemma Cut_unfold (s sep : gostring) :
  Cut s sep
  = if HasPrefix s sep then Some ([], skipn (length sep) s)
    else
      match s with
      | [] => None
      | c :: r =>
        match Cut r sep with
        | Some (before, after) => Some (c :: before, after)
        | None => None
        end
      end.
Proof. now destruct s. Qed.

Lemma Cut_inv (s sep before after : gostring) :
  Cut s sep = Some (before, after) -> s = before ++ sep ++ after.
Proof.
revert before. induction s as [|c s IH]; intros before; rewrite Cut_unfold.
- destruct (HasPrefix [] sep) eqn:E; [|discriminate].
  intros [= <- <-]. apply HasPrefix_inv in E as [r E].
  symmetry in E. apply app_eq_nil in E as [-> ->]. reflexivity.
- destruct (HasPrefix (c :: s) sep) eqn:E.
  + intros [= <- <-]. apply HasPrefix_inv in E as [r E].
    rewrite E at 1. now rewrite E, skipn_length_app.
  + destruct (Cut s sep) as [[b a]|]; [|discriminate].
    intros [= <- <-]. cbn [app]. f_equal. now apply IH.
Qed.

Lemma Cut_nil (sep : gostring) : sep <> [] -> Cut [] sep = None.
Proof. destruct sep; [congruence | reflexivity]. Qed.

Lemma Cut_shorter (s sep before after : gostring) :
  sep <> [] -> Cut s sep = Some (before, after) ->
  (length after < length s)%nat.
Proof.
intros Hsep E. apply Cut_inv in E. subst s. rewrite !length_app.
destruct sep; [congruence|]. cbn [length]. lia.
Qed.

(** Enough rounds: the loop of [genSplit] with more of them gives the
    same. *)
Lemma genSplit_fuel (sep : gostring) (f1 f2 : nat) (s : gostring) :
  sep <> [] -> (length s <= f1)%nat -> (length s <= f2)%nat ->
  genSplit f1 s sep = genSplit f2 s sep.
Proof.
intros Hsep. revert f2 s.
induction f1 as [|f1 IH]; intros f2 s H1 H2.
- destruct s; [|cbn [length] in H1; lia].
  destruct f2; cbn [genSplit]; [reflexivity|]. now rewrite Cut_nil.
- destruct f2 as [|f2].
  + destruct s; [|cbn [length] in H2; lia].
    cbn [genSplit]. now rewrite Cut_nil.
  + cbn [genSplit]. destruct (Cut s sep) as [[b a]|] eqn:E; [|reflexivity].
    apply (Cut_shorter _ _ _ _ Hsep) in E. f_equal. apply IH; lia.
Qed.

Lemma Split_cut (s sep before after : gostring) :
  sep <> [] -> Cut s sep = Some (before, after) ->
  Split s sep = before :: Split after sep.
Proof.
intros Hsep E. unfold Split. destruct sep as [|x sep]; [congruence|].
pose proof (Cut_shorter _ _ _ _ Hsep E) as Hlt.
destruct s as [|c s]; [cbn [length] in Hlt; lia|].
cbn [length genSplit]. rewrite E. f_equal.
apply genSplit_fuel; [exact Hsep | cbn [length] in Hlt; lia | lia].
Qed.

Lemma Split_whole (s sep : gostring) :
  sep <> [] -> Cut s sep = None -> Split s sep = [s].
Proof.
intros Hsep E. unfold Split. destruct sep as [|x sep]; [congruence|].
destruct (length s); cbn [genSplit]; [reflexivity|]. now rewrite E.
Qed.

Lemma genSplit_not_nil (f : nat) (s sep : gostring) : genSplit f s sep <> [].
Proof. destruct f; cbn; [discriminate|]. now destruct (Cut s sep) as [[]|]. Qed.

Lemma Join_cons (e : gostring) (rest : list gostring) (sep : gostring) :
  rest <> [] -> Join (e :: rest) sep = e ++ sep ++ Join rest sep.
Proof. destruct rest; [congruence | reflexivity]. Qed.

(** Joining what was split gives the string back. *)
Lemma Join_genSplit (f : nat) (s sep : gostring) :
  Join (genSplit f s sep) sep = s.
Proof.
revert s. induction f as [|f IH]; intros s; cbn [genSplit]; [reflexivity|].
destruct (Cut s sep) as [[b a]|] eqn:E; [|reflexivity].
rewrite Join_cons by apply genSplit_not_nil.
rewrite IH. symmetry. now apply Cut_inv.
Qed.

Lemma Join_Split (s sep : gostring) : sep <> [] -> Join (Split s sep) sep = s.
Proof.
intros Hsep. unfold Split. destruct sep; [congruence|]. apply Join_genSplit.
Qed.

(** *** Lines *)

Lemma Cut_line (a r : gostring) :
  ~ In LF a -> Cut (a ++ LF :: r) [LF] = Some (a, r).
Proof.
induction a as [|c a IH]; intros Ha; rewrite Cut_unfold.
- cbn [app HasPrefix]. now rewrite Ascii.eqb_refl.
- cbn [app HasPrefix].
  destruct (Ascii.eqb_spec c LF) as [->|Hc]; [elim Ha; now left|].
  cbn [andb]. rewrite IH; [reflexivity|]. intros Hin. apply Ha. now right.
Qed.

Lemma Cut_no_line (s : gostring) : ~ In LF s -> Cut s [LF] = None.
Proof.
induction s as [|c s IH]; intros Hs; [reflexivity|].
rewrite Cut_unfold. cbn [HasPrefix].
destruct (Ascii.eqb_spec c LF) as [->|Hc]; [elim Hs; now left|].
cbn [andb]. rewrite IH; [reflexivity|]. intros Hin. apply Hs. now right.
Qed.

Lemma Split_line (a r : gostring) :
  ~ In LF a -> Split (a ++ LF :: r) [LF] = a :: Split r [LF].
Proof.
intros Ha. apply Split_cut; [discriminate|]. now apply Cut_line.
Qed.

Lemma Split_not_nil (s sep : gostring) : sep <> [] -> Split s sep <> [].
Proof.
intros Hsep. unfold Split. destruct sep; [congruence|]. apply genSplit_not_nil.
Qed.

End split_facts.

(** ** The discovery filter *)

Module discovery_facts.

Import jellyfin discovery.

Lemma targetTag_spec (l : gostring) :
  streq l (go "zh-TW") || streq l (go "zh-Hant") || streq l (go "chi") = true
  <-> In l targetTags.
Proof.
  rewrite !orb_true_iff, !streq_eq. unfold targetTags. simpl.
  intuition congruence.
Qed.

Lemma streamLoop_spec (streams : list MediaStream) :
  streamLoop streams = true <-> exists s, In s streams /\ matchingStream s.
Proof.
  induction streams as [|s rest IH]; cbn [streamLoop In].
  - split; [discriminate | intros (s & [] & _)].
  - destruct (streq (StreamType s) (go "Subtitle")
              && (streq (Language s) (go "zh-TW")
                  || streq (Language s) (go "zh-Hant")
                  || streq (Language s) (go "chi"))) eqn:E.
    + apply andb_true_iff in E as [E1 E2].
      apply streq_eq in E1. apply targetTag_spec in E2.
      split; [|reflexivity]. intros _. exists s. split; [now left|].
      now split.
    + rewrite IH. split.
      * intros (s' & Hin & Hm). exists s'. split; [now right | exact Hm].
      * intros (s' & [<-|Hin] & Hm); [|now exists s'].
        destruct Hm as [Hm1 Hm2]. apply streq_eq in Hm1.
        apply targetTag_spec in Hm2. rewrite Hm1, Hm2 in E. discriminate.
Qed.

(** The sidecar-file signal never produces a positive. *)
Lemma sidecarLoop_false (paths : list gostring) : sidecarLoop paths = false.
Proof. induction paths; simpl; auto. Qed.

Lemma hasChineseSubtitle_streams (item : MediaItem) :
  hasChineseSubtitle item = streamLoop (MediaStreams item).
Proof.
  unfold hasChineseSubtitle. destruct (streamLoop _); [reflexivity|].
  destruct (MediaSources item); [reflexivity|]. apply sidecarLoop_false.
Qed.

Lemma filterItems_acc (items acc : list MediaItem) :
  fold_left
    (fun filtered item =>
       if negb (hasChineseSubtitle item) then filtered ++ [item]
       else filtered) items acc
  = acc ++ filter (fun item => negb (hasChineseSubtitle item)) items.
Proof.
  revert acc; induction items as [|i items IH]; intros acc; simpl.
  - now rewrite app_nil_r.
  - rewrite IH. destruct (negb (hasChineseSubtitle i)); [|reflexivity].
    now rewrite <- app_assoc.
Qed.

Lemma filterItems_filter (items : list MediaItem) :
  filterItems items = filter (fun item => negb (hasChineseSubtitle item)) items.
Proof. unfold filterItems. now rewrite filterItems_acc. Qed.

(** C1, as the code has it: an item counts as already having the target
    subtitle exactly when some stream descriptor of subtitle kind,
    external or not, carries one of the tags zh-TW, zh-Hant, chi; the
    sidecar-file signal never adds a positive; and the needs-subtitle list
    holds, in catalog order, exactly the items without such a stream. *)
Theorem hasChineseSubtitle_any_stream :
  (forall item,
      hasChineseSubtitle item = true
      <-> exists s, In s (MediaStreams item) /\ matchingStream s)
  /\ (forall paths, sidecarLoop paths = false)
  /\ (forall items,
         filterItems items
         = filter (fun item => negb (hasChineseSubtitle item)) items)
  /\ (forall items item,
         In item (filterItems items)
         <-> In item items
             /\ ~ exists s, In s (MediaStreams item) /\ matchingStream s).
Proof.
  split; [|split; [|split]].
  - intros item. rewrite hasChineseSubtitle_streams. apply streamLoop_spec.
  - apply sidecarLoop_false.
  - apply filterItems_filter.
  - intros items item. rewrite filterItems_filter, filter_In.
    rewrite negb_true_iff, <- not_true_iff_false.
    now rewrite hasChineseSubtitle_streams, streamLoop_spec.
Qed.

(** C1 as stated fails: the only matching stream of [externalOnly] is
    external, yet the item counts as having the subtitle and is not in the
    needs-subtitle list. *)
Lemma external_stream_counts :
  (forall s, In s (MediaStreams externalOnly) ->
             matchingStream s -> IsExternal s = true)
  /\ hasChineseSubtitle externalOnly = true
  /\ ~ In externalOnly (filterItems [externalOnly]).
Proof.
  split; [|split].
  - intros s [<-|[]] _. reflexivity.
  - reflexivity.
  - vm_compute. intros [].
Qed.

End discovery_facts.

(** ** Formatting integers *)

Lemma d02_two_digits_check :
  forallb
    (fun k => streq (fmt.d02 (Z.of_nat k))
                    [fmt.digitChar (Z.of_nat k / 10);
                     fmt.digitChar (Z.of_nat k mod 10)])
    (seq 0 100) = true.
Proof. vm_compute. reflexivity. Qed.

(** For a number between 0 and 99 the verb [%02d] writes exactly its two
    decimal digits. *)
Lemma d02_two_digits (n : Z) :
  0 <= n <= 99 ->
  fmt.d02 n = [fmt.digitChar (n / 10); fmt.digitChar (n mod 10)].
Proof.
intros Hn.
pose proof d02_two_digits_check as H.
rewrite forallb_forall in H.
specialize (H (Z.to_nat n)).
rewrite Z2Nat.id in H by lia.
apply streq_eq, H, in_seq. lia.
Qed.

Module fmt_facts.

Import srt.

Lemma byteZ_digitChar (d : Z) : 0 <= d <= 9 -> byteZ (fmt.digitChar d) = 0x30 + d.
Proof.
intros Hd. unfold byteZ, fmt.digitChar.
rewrite N_ascii_embedding; [now rewrite Z2N.id by lia|].
apply N2Z.inj_lt. rewrite Z2N.id by lia. change (Z.of_N 256) with 256. lia.
Qed.

Lemma digit_digitChar (d : Z) : 0 <= d <= 9 -> digit (fmt.digitChar d).
Proof. intros Hd. unfold digit. rewrite byteZ_digitChar by exact Hd. lia. Qed.

(** The digit loop writes, in front of the buffer, the decimal numeral of
    [u]: digits only, one at least, and of value [u]. *)
Lemma fmtDigits_numeral (fuel : nat) (u : Z) (buf : gostring) :
  0 <= u < 10 ^ Z.of_nat (S fuel) ->
  exists ds,
    fmt.fmtDigits (S fuel) u buf = ds ++ buf
    /\ ds <> [] /\ Forall digit ds
    /\ forall acc,
        fold_left decimalStep ds acc = acc * 10 ^ Z.of_nat (length ds) + u.
Proof.
revert u buf. induction fuel as [|fuel IH]; intros u buf Hu.
- change (10 ^ Z.of_nat 1) with 10 in Hu.
  cbn [fmt.fmtDigits]. destruct (Z.ltb_spec u 10); [|lia].
  exists [fmt.digitChar u]. split; [reflexivity|]. split; [discriminate|].
  split; [constructor; [apply digit_digitChar; lia | constructor]|].
  intros acc. cbn [fold_left length]. unfold decimalStep.
  rewrite byteZ_digitChar by lia. change (10 ^ Z.of_nat 1) with 10. lia.
- remember (S fuel) as f eqn:Ef. cbn [fmt.fmtDigits].
  destruct (Z.ltb_spec u 10) as [Hlt|Hge].
  + exists [fmt.digitChar u]. split; [reflexivity|]. split; [discriminate|].
    split; [constructor; [apply digit_digitChar; lia | constructor]|].
    intros acc. cbn [fold_left length]. unfold decimalStep.
    rewrite byteZ_digitChar by lia. change (10 ^ Z.of_nat 1) with 10. lia.
  + assert (Hdiv : 0 <= u / 10 < 10 ^ Z.of_nat f).
    { split; [apply Z.div_pos; lia|].
      apply Z.div_lt_upper_bound; [lia|].
      rewrite Nat2Z.inj_succ, Z.pow_succ_r in Hu by lia. lia. }
    subst f.
    destruct (IH (u / 10) (fmt.digitChar (u mod 10) :: buf) Hdiv)
      as (ds & E & Hne & Hds & Hval).
    exists (ds ++ [fmt.digitChar (u mod 10)]).
    pose proof (Z.mod_pos_bound u 10 ltac:(lia)) as Hmod.
    split; [rewrite E, <- app_assoc; reflexivity|].
    split; [now destruct ds|].
    split; [apply Forall_app; split; [exact Hds|];
            constructor; [apply digit_digitChar; lia | constructor]|].
    intros acc. rewrite fold_left_app, Hval. cbn [fold_left].
    unfold decimalStep at 1. rewrite byteZ_digitChar by lia.
    rewrite length_app. cbn [length].
    replace (Z.of_nat (length ds + 1)) with (Z.succ (Z.of_nat (length ds)))
      by lia.
    rewrite Z.pow_succ_r by lia.
    pose proof (Z.div_mod u 10 ltac:(lia)). lia.
Qed.

Lemma digits_numeral (u : Z) :
  0 <= u ->
  fmt.digits u <> [] /\ Forall digit (fmt.digits u)
  /\ numeralValue (fmt.digits u) = u.
Proof.
intros Hu. unfold fmt.digits.
assert (Hfuel : 0 <= u < 10 ^ Z.of_nat (S (Z.to_nat (Z.log2 u)))).
{ split; [exact Hu|].
  rewrite Nat2Z.inj_succ, Z2Nat.id by apply Z.log2_nonneg.
  destruct (Z.eq_dec u 0) as [->|Hnz]; [cbn; lia|].
  pose proof (Z.log2_spec u ltac:(lia)) as [_ Hlog].
  eapply Z.lt_le_trans; [exact Hlog|].
  apply Z.pow_le_mono_l. pose proof (Z.log2_nonneg u). lia. }
destruct (fmtDigits_numeral _ u [] Hfuel) as (ds & E & Hne & Hds & Hval).
rewrite E, app_nil_r. split; [exact Hne|]. split; [exact Hds|].
unfold numeralValue. rewrite Hval. lia.
Qed.

(** [%d]: a minus sign for a negative number, then the digits. *)
Lemma d_shape (n : Z) :
  fmt.d n = if n <? 0 then "-"%char :: fmt.digits (- n) else fmt.digits n.
Proof.
unfold fmt.d, fmt.fmtInteger. cbn [Nat.sub repeat app].
destruct (Z.ltb_spec n 0).
- now rewrite Z.abs_neq by lia.
- now rewrite Z.abs_eq by lia.
Qed.

(** The numeral written for an [int] is read back as that [int]. *)
Lemma d_integerLine (n : Z) :
  - 2 ^ 63 <= n < 2 ^ 63 -> integerLine (fmt.d n) n.
Proof.
intros Hn. rewrite d_shape. destruct (Z.ltb_spec n 0) as [Hneg|Hpos].
- destruct (digits_numeral (- n) ltac:(lia)) as (Hne & Hds & Hval).
  exists (go "-"), (fmt.digits (- n)).
  split; [reflexivity|]. split; [exact Hne|]. split; [exact Hds|].
  split; [right; split; [reflexivity | lia] | exact Hn].
- destruct (digits_numeral n Hpos) as (Hne & Hds & Hval).
  exists [], (fmt.digits n).
  split; [reflexivity|]. split; [exact Hne|]. split; [exact Hds|].
  split; [left; split; [now left | lia] | exact Hn].
Qed.

(** It is made of digits and, at most, a minus sign in front. *)
Lemma d_bytes (n : Z) :
  fmt.d n <> []
  /\ Forall (fun c => digit c \/ c = "-"%char) (fmt.d n).
Proof.
rewrite d_shape. destruct (Z.ltb_spec n 0) as [Hneg|Hpos].
- destruct (digits_numeral (- n) ltac:(lia)) as (Hne & Hds & _).
  split; [discriminate|]. constructor; [now right|].
  eapply Forall_impl; [|exact Hds]. now left.
- destruct (digits_numeral n Hpos) as (Hne & Hds & _).
  split; [exact Hne|]. eapply Forall_impl; [|exact Hds]. now left.
Qed.

End fmt_facts.

(** ** The search query and the path mapping *)

Module query_facts.

Import jellyfin query.

(** C7: the query is [<series> S<season>E<episode>], season and episode
    written by [%02d], for an episode with a series name; [<name> <year>]
    for a movie with a positive production year; the name alone for a movie
    without one.  [%02d] writes exactly two digits for 0..99, and series Foo,
    season 2, episode 5 gives [Foo S02E05]. *)
Theorem GetSearchQuery_shapes :
  (forall item,
      Type_ item = go "Episode" -> SeriesName item <> [] ->
      GetSearchQuery item
      = SeriesName item ++ go " S" ++ fmt.d02 (ParentIndexNumber item)
        ++ go "E" ++ fmt.d02 (IndexNumber item))
  /\ (forall n, 0 <= n <= 99 ->
        fmt.d02 n = [fmt.digitChar (n / 10); fmt.digitChar (n mod 10)])
  /\ (forall item,
        Type_ item = go "Episode" -> SeriesName item = go "Foo" ->
        ParentIndexNumber item = 2 -> IndexNumber item = 5 ->
        GetSearchQuery item = go "Foo S02E05")
  /\ (forall item,
        Type_ item = go "Movie" -> 0 < ProductionYear item ->
        GetSearchQuery item = Name item ++ go " " ++ fmt.d (ProductionYear item))
  /\ (forall item,
        Type_ item = go "Movie" -> ProductionYear item <= 0 ->
        GetSearchQuery item = Name item).
Proof.
repeat split.
- intros item HT HS. unfold GetSearchQuery. rewrite HT, streq_refl.
  apply streq_neq in HS. now rewrite HS.
- apply d02_two_digits.
- intros item HT HS Hp Hi. unfold GetSearchQuery.
  rewrite HT, HS, Hp, Hi. reflexivity.
- intros item HT Hy. unfold GetSearchQuery. rewrite HT.
  change (streq (go "Movie") (go "Episode")) with false.
  rewrite streq_refl. cbv iota.
  destruct (ProductionYear item >? 0) eqn:E; [reflexivity|].
  rewrite Z.gtb_ltb, Z.ltb_ge in E. lia.
- intros item HT Hy. unfold GetSearchQuery. rewrite HT.
  change (streq (go "Movie") (go "Episode")) with false.
  rewrite streq_refl. cbv iota.
  destruct (ProductionYear item >? 0) eqn:E; [|reflexivity].
  rewrite Z.gtb_ltb, Z.ltb_lt in E. lia.
Qed.

Lemma GetSearchQuery_shapes_witness :
  GetSearchQuery ep42 = go "Foo S02E05"
  /\ fmt.d02 7 = go "07"
  /\ GetSearchQuery movieWithYear = go "Heat 1995"
  /\ GetSearchQuery movieNoYear = go "Heat".
Proof.
destruct GetSearchQuery_shapes as (H1 & H2 & H3 & H4 & H5).
split; [|split; [|split]].
- apply (H3 ep42); reflexivity.
- apply (H2 7). lia.
- apply (H4 movieWithYear); [reflexivity | simpl; lia].
- apply (H5 movieNoYear); [reflexivity | simpl; lia].
Defined.

(** C9: with both prefixes configured, a path that starts with the source
    prefix has that leading occurrence, and only it, replaced by the
    destination prefix; any other path is returned as it is.  The mapping is
    a total function: it always returns a path. *)
Theorem MapJellyfinPathToContainer_mapped (c : config.Config) :
  config.JellyfinPathPrefix c <> [] ->
  config.ContainerPathPrefix c <> [] ->
  (forall rest,
      config.MapJellyfinPathToContainer c (config.JellyfinPathPrefix c ++ rest)
      = config.ContainerPathPrefix c ++ rest)
  /\ (forall path,
        (~ exists rest, path = config.JellyfinPathPrefix c ++ rest) ->
        config.MapJellyfinPathToContainer c path = path).
Proof.
intros Hs Hd. unfold config.MapJellyfinPathToContainer.
apply streq_neq in Hs as Es. apply streq_neq in Hd as Ed.
rewrite Es, Ed. cbn [orb]. split.
- intros rest. rewrite HasPrefix_app. now apply Replace_leading.
- intros path Hno.
  destruct (strings.HasPrefix path (config.JellyfinPathPrefix c)) eqn:E;
    [|reflexivity].
  apply HasPrefix_inv in E. contradiction.
Qed.

Lemma MapJellyfinPathToContainer_mapped_witness :
  config.MapJellyfinPathToContainer mapped (go "/data/media/Foo/S02E05.mkv")
  = go "/media/Foo/S02E05.mkv"
  /\ config.MapJellyfinPathToContainer mapped (go "/srv/data/media/x.mkv")
     = go "/srv/data/media/x.mkv".
Proof.
assert (Hs : config.JellyfinPathPrefix mapped <> []) by discriminate.
assert (Hd : config.ContainerPathPrefix mapped <> []) by discriminate.
destruct (MapJellyfinPathToContainer_mapped mapped Hs Hd) as [H1 H2].
split.
- apply (H1 (go "/Foo/S02E05.mkv")).
- apply H2. intros [rest E]. discriminate E.
Defined.

(** C10: an episode without a series name, and an item that is neither an
    episode nor a movie, get the display name as the query; with either
    prefix empty the path mapping returns every path as it is. *)
Theorem fallbacks_to_name_and_identity :
  (forall item,
      Type_ item = go "Episode" -> SeriesName item = [] ->
      GetSearchQuery item = Name item)
  /\ (forall item,
        Type_ item <> go "Episode" -> Type_ item <> go "Movie" ->
        GetSearchQuery item = Name item)
  /\ (forall c path,
        config.JellyfinPathPrefix c = [] \/ config.ContainerPathPrefix c = [] ->
        config.MapJellyfinPathToContainer c path = path).
Proof.
split; [|split].
- intros item HT HS. unfold GetSearchQuery. now rewrite HT, HS.
- intros item HE HM. unfold GetSearchQuery.
  apply streq_neq in HE, HM. now rewrite HE, HM.
- intros c path [E|E]; unfold config.MapJellyfinPathToContainer; rewrite E.
  + reflexivity.
  + now rewrite orb_true_r.
Qed.

Lemma fallbacks_to_name_and_identity_witness :
  GetSearchQuery episodeNoSeries = go "Pilot"
  /\ GetSearchQuery boxSet = go "Collection"
  /\ config.MapJellyfinPathToContainer unmapped (go "/data/media/x.mkv")
     = go "/data/media/x.mkv".
Proof.
destruct fallbacks_to_name_and_identity as (H1 & H2 & H3).
split; [|split].
- apply (H1 episodeNoSeries); reflexivity.
- apply (H2 boxSet); discriminate.
- apply (H3 unmapped). now left.
Defined.

End query_facts.

(** ** The translation adapter *)

Module adapter_facts.

Import subtitle adapter calls.

Section Adapter.

Context {W : Type} `{Env W} `{Translator W}.

(** C6: with the ceiling of three attempts, a run of the retry loop is one of
    four: the first call of the translator succeeds; it fails, one second
    is slept and the second call succeeds; the first two calls fail, one and
    then two seconds are slept and the third call succeeds; or all three
    calls fail, after the same waits, and the error is returned.  Every call
    is a call of the translator, or of [time.Sleep], on the world the call
    before it left, and the world that is returned is the world after the
    last call.  No wait comes before the first attempt, the wait before
    attempt [n] is [n - 1] seconds, what is returned is the answer of the
    first call that succeeds, and an error comes only after three failed
    calls. *)
Theorem translateWithRetry_three (text : gostring) (w : W) :
  let '(res, w', t) := translateWithRetry text 3 w in
  (exists x w1,
      TranslateToChineseTraditional text w = (inl x, w1)
      /\ res = inl x /\ w' = w1
      /\ t = [EvTranslate text (inl x)])
  \/ (exists e1 w1 w2 x w3,
        TranslateToChineseTraditional text w = (inr e1, w1)
        /\ timeSleep (1 * Second) w1 = (tt, w2)
        /\ TranslateToChineseTraditional text w2 = (inl x, w3)
        /\ res = inl x /\ w' = w3
        /\ t = [EvTranslate text (inr e1);
                EvSleep (1 * Second); EvTranslate text (inl x)])
  \/ (exists e1 w1 w2 e2 w3 w4 x w5,
        TranslateToChineseTraditional text w = (inr e1, w1)
        /\ timeSleep (1 * Second) w1 = (tt, w2)
        /\ TranslateToChineseTraditional text w2 = (inr e2, w3)
        /\ timeSleep (2 * Second) w3 = (tt, w4)
        /\ TranslateToChineseTraditional text w4 = (inl x, w5)
        /\ res = inl x /\ w' = w5
        /\ t = [EvTranslate text (inr e1);
                EvSleep (1 * Second); EvTranslate text (inr e2);
                EvSleep (2 * Second); EvTranslate text (inl x)])
  \/ (exists e1 w1 w2 e2 w3 w4 e3 w5,
        TranslateToChineseTraditional text w = (inr e1, w1)
        /\ timeSleep (1 * Second) w1 = (tt, w2)
        /\ TranslateToChineseTraditional text w2 = (inr e2, w3)
        /\ timeSleep (2 * Second) w3 = (tt, w4)
        /\ TranslateToChineseTraditional text w4 = (inr e3, w5)
        /\ res = inr (exhausted e3) /\ w' = w5
        /\ t = [EvTranslate text (inr e1);
                EvSleep (1 * Second); EvTranslate text (inr e2);
                EvSleep (2 * Second); EvTranslate text (inr e3)]).
Proof.
unfold translateWithRetry. change (Z.to_nat 3) with 3%nat.
cbn [retryLoop]. unfold bind, call, ret.
change (1 >? 1) with false. change (1 + 1 >? 1) with true.
change (1 + 1 + 1 >? 1) with true.
change (1 + 1 - 1) with 1. change (1 + 1 + 1 - 1) with 2.
cbv beta iota.
destruct (TranslateToChineseTraditional text w) as [[x|e1] w1] eqn:E1;
  cbv beta iota.
{ left. exists x, w1. repeat split. }
destruct (timeSleep (1 * Second) w1) as [[] w2] eqn:S1; cbv beta iota.
destruct (TranslateToChineseTraditional text w2) as [[x|e2] w3] eqn:E2;
  cbv beta iota.
{ right; left. exists e1, w1, w2, x, w3.
  split; [reflexivity|]. split; [exact S1|]. split; [exact E2|].
  repeat split. }
destruct (timeSleep (2 * Second) w3) as [[] w4] eqn:S2; cbv beta iota.
destruct (TranslateToChineseTraditional text w4) as [[x|e3] w5] eqn:E3;
  cbv beta iota.
{ right; right; left. exists e1, w1, w2, e2, w3, w4, x, w5.
  split; [reflexivity|]. split; [exact S1|]. split; [exact E2|].
  split; [exact S2|]. split; [exact E3|]. repeat split. }
right; right; right. exists e1, w1, w2, e2, w3, w4, e3, w5.
split; [reflexivity|]. split; [exact S1|]. split; [exact E2|].
split; [exact S2|]. split; [exact E3|]. repeat split.
Qed.

(** The same run, as a list of attempts. *)
Lemma retry_run (text : gostring) (w : W) :
  let '(res, _, t) := translateWithRetry text 3 w in
  (exists errs x,
      (length errs <= 2)%nat /\ res = inl x
      /\ t = retryTrace text 1 (failures errs ++ [inl x]))
  \/ (exists e1 e2 e3,
        res = inr (exhausted e3)
        /\ t = retryTrace text 1 (failures [e1; e2; e3])).
Proof.
unfold translateWithRetry. change (Z.to_nat 3) with 3%nat.
cbn [retryLoop]. unfold bind, call, ret.
change (1 >? 1) with false. change (1 + 1 >? 1) with true.
change (1 + 1 + 1 >? 1) with true.
change (1 + 1 - 1) with 1. change (1 + 1 + 1 - 1) with 2.
cbv beta iota.
destruct (TranslateToChineseTraditional text w) as [[x|e1] w1]; cbv beta iota.
{ left. exists [], x. repeat split; simpl; auto. }
destruct (timeSleep (1 * Second) w1) as [[] w2]; cbv beta iota.
destruct (TranslateToChineseTraditional text w2) as [[x|e2] w3]; cbv beta iota.
{ left. exists [e1], x. repeat split; simpl; auto. }
destruct (timeSleep (2 * Second) w3) as [[] w4]; cbv beta iota.
destruct (TranslateToChineseTraditional text w4) as [[x|e3] w5]; cbv beta iota.
{ left. exists [e1; e2], x. repeat split; simpl; auto. }
right. exists e1, e2, e3. now split.
Qed.

(** The policy for any ceiling: a run from attempt [attempt] with [rounds]
    rounds left is a series of failed attempts followed by a success, fewer
    failures than rounds, or as many failures as rounds and an error; the
    wait before attempt [n] is always [n - 1] seconds. *)
Lemma retryLoop_run (rounds : nat) :
  forall (attempt : Z) (lastErr : option error) (text : gostring)
         (maxRetries : Z) (w : W),
  let '(res, _, t) := retryLoop rounds attempt lastErr text maxRetries w in
  (exists errs x,
      (length errs < rounds)%nat /\ res = inl x
      /\ t = retryTrace text attempt (failures errs ++ [inl x]))
  \/ (exists errs e,
        length errs = rounds /\ res = inr e
        /\ t = retryTrace text attempt (failures errs)).
Proof.
induction rounds as [|rounds IH]; intros attempt lastErr text maxRetries w.
- cbn [retryLoop]. unfold ret. right. exists []. eexists.
  split; [reflexivity|]. split; reflexivity.
- cbn [retryLoop]. unfold bind at 1.
  assert (Hwait : exists w0,
    (if attempt >? 1
     then call (timeSleep ((attempt - 1) * Second))
               (fun _ => EvSleep ((attempt - 1) * Second))
     else ret tt) w
    = (tt, w0,
       if attempt >? 1 then [EvSleep ((attempt - 1) * Second)] else [])).
  { destruct (attempt >? 1); unfold call, ret.
    - destruct (timeSleep ((attempt - 1) * Second) w) as [[] w0].
      now exists w0.
    - now exists w. }
  destruct Hwait as [w0 ->]. unfold bind at 1. unfold call at 1.
  destruct (TranslateToChineseTraditional text w0) as [[x|e] w1].
  + unfold ret. left. exists [], x. split; [cbn [length]; lia|].
    split; [reflexivity|]. cbn [failures map app retryTrace].
    unfold attemptEvents. now rewrite !app_nil_r.
  + specialize (IH (attempt + 1) (Some e) text maxRetries w1).
    destruct (retryLoop rounds (attempt + 1) (Some e) text maxRetries w1)
      as [[res w2] t2].
    destruct IH as [(errs & x & Hlen & -> & ->)|(errs & e' & Hlen & -> & ->)].
    * left. exists (e :: errs), x. split; [cbn [length]; lia|].
      split; [reflexivity|]. cbn [failures map app retryTrace].
      unfold attemptEvents. now rewrite <- !app_assoc.
    * right. exists (e :: errs), e'. split; [cbn [length]; lia|].
      split; [reflexivity|]. cbn [failures map retryTrace].
      unfold attemptEvents. now rewrite <- !app_assoc.
Qed.

(** The run of the loop of [TranslateEntries] from any point: what was
    built so far is kept and one entry is appended per remaining entry. *)
Lemma translateLoop_run (entries translated : list SubtitleEntry) (w : W) :
  let '(out, _, t) := translateLoop entries translated w in
  exists os, out = translated ++ os /\ batchRun entries os t.
Proof.
revert translated w.
induction entries as [|e es IH]; intros translated w.
- cbn. exists []. split; [now rewrite app_nil_r | constructor].
- cbn [translateLoop]. unfold bind at 1.
  pose proof (retry_run (Text e) w) as Hrun.
  destruct (translateWithRetry (Text e) 3 w) as [[res w1] t1].
  match goal with
  | |- context [translateLoop es ?acc w1] =>
    specialize (IH acc w1); destruct (translateLoop es acc w1) as [[out w2] t2]
  end.
  destruct IH as (os & -> & Hos).
  destruct Hrun as [(errs & x & Hlen & -> & ->)|(e1 & e2 & e3 & -> & ->)].
  + eexists. split; [rewrite <- app_assoc; reflexivity|].
    constructor; [now constructor | exact Hos].
  + eexists. split; [rewrite <- app_assoc; reflexivity|].
    constructor; [constructor | exact Hos].
Qed.

Lemma batchRun_length es os t : batchRun es os t -> length os = length es.
Proof. induction 1; simpl; congruence. Qed.

Lemma entryRun_fields e o t :
  entryRun e o t ->
  Index o = Index e /\ StartTime o = StartTime e /\ EndTime o = EndTime e.
Proof. now destruct 1. Qed.

Lemma batchRun_nth es os t :
  batchRun es os t ->
  forall i e, nth_error es i = Some e ->
  exists o ti, nth_error os i = Some o /\ entryRun e o ti.
Proof.
induction 1 as [|e o t es os ts He Hb IH]; intros i e' Hi.
- now destruct i.
- destruct i as [|i]; simpl in *.
  + injection Hi as <-. now exists o, t.
  + now apply IH.
Qed.

(** *** The calls behind a run *)

Lemma performed_app (w wm w' : W) (a b : list Event) :
  performed w a wm -> performed wm b w' -> performed w (a ++ b) w'.
Proof.
induction 1 as [w0|d w0 w1 t w2 Es _ IH|text r w0 w1 t w2 Et _ IH];
  intros Hb; cbn [app].
- exact Hb.
- apply performed_sleep with w1; [exact Es | now apply IH].
- apply performed_translate with w1; [exact Et | now apply IH].
Qed.

Lemma performed_split (a b : list Event) :
  forall w w',
  performed w (a ++ b) w' ->
  exists wm, performed w a wm /\ performed wm b w'.
Proof.
induction a as [|ev a IH]; intros w w' Hp; cbn [app] in Hp.
- exists w. split; [constructor | exact Hp].
- inversion Hp as [|d w0 w1 t w2 Es Hrest|text r w0 w1 t w2 Et Hrest]; subst.
  + destruct (IH _ _ Hrest) as (wm & Ha & Hb).
    exists wm. split; [now apply performed_sleep with w1 | exact Hb].
  + destruct (IH _ _ Hrest) as (wm & Ha & Hb).
    exists wm. split; [now apply performed_translate with w1 | exact Hb].
Qed.

(** The last call of a run that ends with a translation is a call of the
    translator, on the world the calls before it left. *)
Lemma performed_last (before : list Event) (text : gostring)
    (r : result gostring) (w w' : W) :
  performed w (before ++ [EvTranslate text r]) w' ->
  exists wa,
    performed w before wa
    /\ TranslateToChineseTraditional text wa = (r, w').
Proof.
intros Hp. apply performed_split in Hp as (wa & Ha & Hl).
exists wa. split; [exact Ha|].
inversion Hl as [| |text' r' w0 w1 t w2 Et Hnil]; subst.
inversion Hnil; subst. exact Et.
Qed.

(** Every call of the retry loop is made, for any number of rounds. *)
Lemma retryLoop_performed (rounds : nat) :
  forall (attempt : Z) (lastErr : option error) (text : gostring)
         (maxRetries : Z) (w : W),
  let '(_, w', t) := retryLoop rounds attempt lastErr text maxRetries w in
  performed w t w'.
Proof.
induction rounds as [|rounds IH]; intros attempt lastErr text maxRetries w.
- cbn [retryLoop]. unfold ret. constructor.
- cbn [retryLoop]. unfold bind at 1.
  assert (Hwait : exists w0,
    (if attempt >? 1
     then call (timeSleep ((attempt - 1) * Second))
               (fun _ => EvSleep ((attempt - 1) * Second))
     else ret tt) w
    = (tt, w0,
       if attempt >? 1 then [EvSleep ((attempt - 1) * Second)] else [])
    /\ performed w
         (if attempt >? 1 then [EvSleep ((attempt - 1) * Second)] else [])
         w0).
  { destruct (attempt >? 1); unfold call, ret.
    - destruct (timeSleep ((attempt - 1) * Second) w) as [[] w0] eqn:Es.
      exists w0. split; [reflexivity|].
      apply performed_sleep with w0; [exact Es | constructor].
    - exists w. split; [reflexivity | constructor]. }
  destruct Hwait as (w0 & -> & Hp). unfold bind at 1. unfold call at 1.
  destruct (TranslateToChineseTraditional text w0) as [[x|e] w1] eqn:Et.
  + unfold ret. apply performed_app with w0; [exact Hp|].
    apply performed_translate with w1; [exact Et | constructor].
  + specialize (IH (attempt + 1) (Some e) text maxRetries w1).
    destruct (retryLoop rounds (attempt + 1) (Some e) text maxRetries w1)
      as [[res w2] t2].
    apply performed_app with w0; [exact Hp|].
    apply performed_translate with w1; [exact Et | exact IH].
Qed.

Lemma translateWithRetry_performed (text : gostring) (maxRetries : Z) (w : W) :
  let '(_, w', t) := translateWithRetry text maxRetries w in
  performed w t w'.
Proof. apply retryLoop_performed. Qed.

(** The run of one entry, with the calls behind it. *)
Lemma retry_runAt (text : gostring) (w : W) :
  let '(res, w', t) := translateWithRetry text 3 w in
  performed w t w'
  /\ ((exists errs x,
         (length errs <= 2)%nat /\ res = inl x
         /\ t = retryTrace text 1 (failures errs ++ [inl x]))
      \/ (exists e1 e2 e3,
            res = inr (exhausted e3)
            /\ t = retryTrace text 1 (failures [e1; e2; e3]))).
Proof.
pose proof (retry_run text w) as Hrun.
pose proof (translateWithRetry_performed text 3 w) as Hp.
destruct (translateWithRetry text 3 w) as [[res w'] t]. now split.
Qed.

(** The run of the loop of [TranslateEntries], from world to world. *)
Lemma translateLoop_runAt (entries translated : list SubtitleEntry) (w : W) :
  let '(out, w', t) := translateLoop entries translated w in
  exists os, out = translated ++ os /\ batchRunAt w entries os t w'.
Proof.
revert translated w.
induction entries as [|e es IH]; intros translated w.
- cbn. exists []. split; [now rewrite app_nil_r | constructor].
- cbn [translateLoop]. unfold bind at 1.
  pose proof (retry_runAt (Text e) w) as Hrun.
  destruct (translateWithRetry (Text e) 3 w) as [[res w1] t1].
  match goal with
  | |- context [translateLoop es ?acc w1] =>
    specialize (IH acc w1); destruct (translateLoop es acc w1) as [[out w2] t2]
  end.
  destruct IH as (os & -> & Hos).
  destruct Hrun as [Hp [(errs & x & Hlen & -> & ->)|(e1 & e2 & e3 & -> & ->)]].
  + eexists. split; [rewrite <- app_assoc; reflexivity|].
    apply batchAt_cons with w1; [|exact Hos].
    split; [now constructor | exact Hp].
  + eexists. split; [rewrite <- app_assoc; reflexivity|].
    apply batchAt_cons with w1; [|exact Hos].
    split; [constructor | exact Hp].
Qed.

Lemma batchRunAt_batchRun (w w' : W) es os t :
  batchRunAt w es os t w' -> batchRun es os t.
Proof.
induction 1 as [|w0 e o t w1 es os ts w2 [He _] _ IH]; constructor;
  assumption.
Qed.

Lemma batchRunAt_performed (w w' : W) es os t :
  batchRunAt w es os t w' -> performed w t w'.
Proof.
induction 1 as [|w0 e o t w1 es os ts w2 [_ Hp] _ IH]; [constructor|].
now apply performed_app with w1.
Qed.

(** The run of the entry at a position is a piece of the run of the batch:
    it starts in the world the calls before it left, and the calls after it
    start in the world it left. *)
Lemma batchRunAt_nth (w w' : W) es os t :
  batchRunAt w es os t w' ->
  forall i e, nth_error es i = Some e ->
  exists o before ti after wi wi',
    nth_error os i = Some o
    /\ t = before ++ ti ++ after
    /\ performed w before wi
    /\ entryRunAt wi e o ti wi'
    /\ performed wi' after w'.
Proof.
induction 1 as [|w0 e o t w1 es os ts w2 He Hb IH]; intros i e' Hi.
- now destruct i.
- destruct i as [|i]; cbn [nth_error] in Hi |- *.
  + injection Hi as <-. exists o, [], t, ts, w0, w1.
    split; [reflexivity|]. split; [reflexivity|]. split; [constructor|].
    split; [exact He|]. now apply batchRunAt_performed with es os.
  + destruct (IH i e' Hi)
      as (o' & before & ti & after & wi & wi' & Ho & -> & Hpb & Hr & Hpa).
    exists o', (t ++ before), ti, after, wi, wi'.
    split; [exact Ho|]. split; [now rewrite <- app_assoc|].
    split; [|now split].
    destruct He as [_ Hp]. now apply performed_app with w1.
Qed.

Lemma retryTrace_end (text : gostring) (rs : list (result gostring))
    (r : result gostring) :
  forall n, exists before,
    retryTrace text n (rs ++ [r]) = before ++ [EvTranslate text r].
Proof.
induction rs as [|r0 rs IH]; intros n.
- cbn [app retryTrace]. unfold attemptEvents. rewrite app_nil_r. now eexists.
- cbn [app retryTrace]. destruct (IH (n + 1)) as [before ->].
  eexists. now rewrite app_assoc.
Qed.

(** Where the text of an entry comes from, in terms of the translator. *)
Lemma entryRunAt_textFrom (w w' : W) (e o : SubtitleEntry) (t : list Event) :
  entryRunAt w e o t w' -> textFrom w e o t w'.
Proof.
intros [Hr Hp]. destruct Hr as [errs x Hlen|e1 e2 e3].
- left. cbn [Text].
  destruct (retryTrace_end (Text e) (failures errs) (inl x) 1) as [before E].
  pose proof (eq_ind _ (fun t => performed w t w') Hp _ E) as Hq.
  cbv beta in Hq.
  apply performed_last in Hq as (wa & Ha & Et).
  exists before, wa. split; [exact E|]. split; [exact Ha | exact Et].
- right. split; [reflexivity|].
  unfold failures in Hp. cbn [map retryTrace] in Hp.
  unfold attemptEvents in Hp.
  change (1 >? 1) with false in Hp. change (1 + 1 >? 1) with true in Hp.
  change (1 + 1 + 1 >? 1) with true in Hp. cbn [app] in Hp.
  inversion Hp as [| |? ? ? w1 ? ? Et1 Hp1]; subst.
  inversion Hp1 as [|? ? w2 ? ? Es1 Hp2|]; subst.
  inversion Hp2 as [| |? ? ? w3 ? ? Et2 Hp3]; subst.
  inversion Hp3 as [|? ? w4 ? ? Es2 Hp4|]; subst.
  inversion Hp4 as [| |? ? ? w5 ? ? Et3 Hp5]; subst.
  inversion Hp5; subst.
  exists e1, w1, w2, e2, w3, w4, e3.
  split; [exact Et1|]. split; [exact Es1|]. split; [exact Et2|].
  split; [exact Es2 | exact Et3].
Qed.

(** C2: [TranslateEntries] returns no error and one entry per input entry,
    in order; each output entry has the index and the timestamps of its input
    entry.  The run of the batch is the runs of the entries, one after the
    other, each from the world the one before it left, and every call in it
    is a call of the translator or of [time.Sleep] that was made; the world
    that is returned is the world after the last call.  The text of an
    output entry is the answer of the translator to the text of the input
    entry, at the first of at most three calls that succeeds, or the
    original text when three calls of the translator failed.  An entry whose
    attempts all fail does not stop the entries after it. *)
Theorem TranslateEntries_degrades (entries : list SubtitleEntry) (w : W) :
  let '((out, err), w', t) := TranslateEntries entries w in
  err = None
  /\ length out = length entries
  /\ batchRun entries out t
  /\ batchRunAt w entries out t w'
  /\ (forall i e, nth_error entries i = Some e ->
        exists o before ti after wi wi',
          nth_error out i = Some o
          /\ t = before ++ ti ++ after
          /\ performed w before wi
          /\ entryRunAt wi e o ti wi'
          /\ performed wi' after w'
          /\ textFrom wi e o ti wi'
          /\ Index o = Index e /\ StartTime o = StartTime e
          /\ EndTime o = EndTime e).
Proof.
unfold TranslateEntries, bind, ret.
pose proof (translateLoop_runAt entries [] w) as Hrun.
destruct (translateLoop entries [] w) as [[out w1] t1].
destruct Hrun as (os & -> & Hos). cbn [app]. rewrite app_nil_r.
pose proof (batchRunAt_batchRun _ _ _ _ _ Hos) as Hb.
split; [reflexivity|]. split; [now apply batchRun_length with t1|].
split; [exact Hb|]. split; [exact Hos|].
intros i e Hi.
destruct (batchRunAt_nth _ _ _ _ _ Hos i e Hi)
  as (o & before & ti & after & wi & wi' & Ho & Et & Hpb & Hr & Hpa).
exists o, before, ti, after, wi, wi'.
split; [exact Ho|]. split; [exact Et|]. split; [exact Hpb|].
split; [exact Hr|]. split; [exact Hpa|].
split; [now apply entryRunAt_textFrom|].
destruct Hr as [Hr _]. now apply entryRun_fields with ti.
Qed.

End Adapter.

(** With a backend that refuses the text of the second cue on every
    attempt, the batch still returns both entries: the first translated, the
    second with its original text, after three attempts on it. *)
Example TranslateEntries_refused_entry :
  TranslateEntries (W := nat) (H0 := scenario.translator scenario.fallbackOnly)
                   (H := scenario.env scenario.fallbackOnly)
                   [scenario.hello; scenario.bye] 0%nat
  = (([mkEntry 1 (go "00:00:01,000") (go "00:00:02,500") (go "[zh] Hello");
       scenario.bye], None),
     4%nat,
     [EvTranslate (go "Hello") (inl (go "[zh] Hello"));
      EvTranslate (go "Bye") (inr scenario.rateLimited);
      EvSleep (1 * Second);
      EvTranslate (go "Bye") (inr scenario.rateLimited);
      EvSleep (2 * Second);
      EvTranslate (go "Bye") (inr scenario.rateLimited)]).
Proof. vm_compute. reflexivity. Qed.

End adapter_facts.

(** ** The save-path resolution *)

Module placement_facts.

Import handlers placement.

Section Placement.

Context {W : Type} `{Env W} `{subtitle.Translator W}.

(** The runs of the writability probe.  The directory is looked up and, when
    it is reported absent, created; then the marker file is created, closed
    and removed.  The probe answers [false] exactly when the creation of the
    directory or of the marker file fails; what the lookup reports otherwise
    and what the removal reports is not looked at. *)
Lemma canWriteToDirectory_runs (dirPath : gostring) (w : W) :
  let '(ok, _, t) := canWriteToDirectory dirPath w in
  (ok = true
   /\ exists sr rr,
       (isNotExist sr = false
        /\ t = [EvStat dirPath sr; EvCreate (marker dirPath) None;
                EvClose (marker dirPath); EvRemove (marker dirPath) rr])
       \/ (isNotExist sr = true
           /\ t = [EvStat dirPath sr; EvMkdirAll dirPath perm0755 None;
                   EvCreate (marker dirPath) None;
                   EvClose (marker dirPath); EvRemove (marker dirPath) rr]))
  \/ (ok = false
      /\ exists sr e,
          (isNotExist sr = true
           /\ t = [EvStat dirPath sr; EvMkdirAll dirPath perm0755 (Some e)])
          \/ (isNotExist sr = false
              /\ t = [EvStat dirPath sr; EvCreate (marker dirPath) (Some e)])
          \/ (isNotExist sr = true
              /\ t = [EvStat dirPath sr; EvMkdirAll dirPath perm0755 None;
                      EvCreate (marker dirPath) (Some e)])).
Proof.
unfold canWriteToDirectory, bind, call, ret. fold (marker dirPath).
destruct (osStat dirPath w) as [sr w1]; cbv beta iota.
destruct (isNotExist sr) eqn:Ene; cbv beta iota.
- destruct (osMkdirAll dirPath perm0755 w1) as [[e|] w2]; cbv beta iota.
  + right. split; [reflexivity|]. exists sr, e. left. now split.
  + cbn [negb]. cbv beta iota.
    destruct (osCreate (marker dirPath) w2) as [[e|] w3]; cbv beta iota.
    * right. split; [reflexivity|]. exists sr, e. right; right. now split.
    * destruct (fileClose (marker dirPath) w3) as [[] w4]; cbv beta iota.
      destruct (osRemove (marker dirPath) w4) as [rr w5]; cbv beta iota.
      left. split; [reflexivity|]. exists sr, rr. right. now split.
- cbn [negb]. cbv beta iota.
  destruct (osCreate (marker dirPath) w1) as [[e|] w3]; cbv beta iota.
  + right. split; [reflexivity|]. exists sr, e. right; left. now split.
  + destruct (fileClose (marker dirPath) w3) as [[] w4]; cbv beta iota.
    destruct (osRemove (marker dirPath) w4) as [rr w5]; cbv beta iota.
    left. split; [reflexivity|]. exists sr, rr. left. now split.
Qed.

Lemma probe_fails_iff (dirPath : gostring) (w : W) :
  let '(ok, _, t) := canWriteToDirectory dirPath w in
  ok = false <-> probeStepFailed dirPath t.
Proof.
pose proof (canWriteToDirectory_runs dirPath w) as Hruns.
destruct (canWriteToDirectory dirPath w) as [[ok w1] t].
unfold probeStepFailed.
destruct Hruns as [[-> (sr & rr & [[_ ->]|[_ ->]])]
                  |[-> (sr & e & [[_ ->]|[[_ ->]|[_ ->]]])]].
- split; [discriminate|]. intros (e & [Hin|Hin]); simpl in Hin;
    repeat (destruct Hin as [Hin|Hin]; try discriminate); contradiction.
- split; [discriminate|]. intros (e & [Hin|Hin]); simpl in Hin;
    repeat (destruct Hin as [Hin|Hin]; try discriminate); contradiction.
- split; [|reflexivity]. intros _. exists e. left. simpl. auto.
- split; [|reflexivity]. intros _. exists e. right. simpl. auto.
- split; [|reflexivity]. intros _. exists e. right. simpl. auto.
Qed.


End Placement.


End placement_facts.

(** ** The orchestrator *)

Module orchestration_facts.

Import subtitle handlers orchestration.

Section Orchestrator.

Context {W : Type} `{Env W} `{Translator W}.

(** Once the English subtitle is downloaded, the translation pipeline runs
    on the entries parsed from it. *)
Lemma translateAndSaveSubtitle_translates
    (c : config.Config) (sub : opensubtitles.Subtitle) (videoPath : gostring)
    (w w' : W) (content : gostring) :
  DownloadSubtitle sub w = (inl content, w') ->
  let '(_, _, tE) := TranslateEntries (fst (Parse content)) w' in
  let '(_, _, tT) := translateAndSaveSubtitle c sub videoPath w in
  exists tail, tT = EvDownloadSubtitle sub (inl content) :: tE ++ tail.
Proof.
intros Hd. unfold translateAndSaveSubtitle.
unfold bind at 1. unfold call at 1. rewrite Hd. cbv beta iota.
unfold Parse at 2. cbv beta iota zeta. unfold bind at 1.
unfold Parse. cbn [fst].
match goal with
| |- context [TranslateEntries ?es w'] =>
  pose proof (adapter_facts.translateLoop_run es [] w') as _;
  destruct (TranslateEntries es w') as [[[out err] w2] tE] eqn:E
end.
unfold TranslateEntries, bind, ret in E.
destruct (translateLoop _ [] w') as [[out' w2'] t2'].
injection E as <- <- <- <-. cbv beta iota.
match goal with
| |- context [bind ?m ?k w2'] => destruct (bind m k w2') as [[res w3] t3]
end.
cbn [app]. rewrite app_nil_r. now exists t3.
Qed.


End Orchestrator.


(** The whole run of the first scenario: the searches, the download, the
    translation of the two cues (the second refused three times and kept),
    the probe of [/media/Foo], the file written next to the video and the
    metadata refresh. *)
Example ProcessHandler_fallback_run :
  ProcessHandler (H := scenario.env scenario.fallbackOnly)
                 (H0 := scenario.translator scenario.fallbackOnly)
                 query.mapped processEp42 0%nat
  = (mkResponse StatusOK
       (go "Subtitle processed successfully and saved to media directory (Jellyfin will detect automatically)"),
     4%nat,
     [EvGetItem (go "ep42") (inl query.ep42);
      EvSearchSubtitles (go "Foo S02E05") [] (go "zh-TW") (inl []);
      EvSearchSubtitles (go "Foo S02E05") [] (go "en") (inl [scenario.english]);
      EvDownloadSubtitle scenario.english (inl scenario.twoCues);
      EvTranslate (go "Hello") (inl (go "[zh] Hello"));
      EvTranslate (go "Bye") (inr scenario.rateLimited);
      EvSleep (1 * Second);
      EvTranslate (go "Bye") (inr scenario.rateLimited);
      EvSleep (2 * Second);
      EvTranslate (go "Bye") (inr scenario.rateLimited);
      EvStat (go "/media/Foo") None;
      EvCreate (go "/media/Foo/.subtitle-hunter-write-test") None;
      EvClose (go "/media/Foo/.subtitle-hunter-write-test");
      EvRemove (go "/media/Foo/.subtitle-hunter-write-test") None;
      EvWriteFile (go "/media/Foo/S02E05.zh-Hant.srt")
        (go "1" ++ [LF] ++ go "00:00:01,000 --> 00:00:02,500" ++ [LF]
         ++ go "[zh] Hello" ++ [LF] ++ [LF]
         ++ go "2" ++ [LF] ++ go "00:00:03,000 --> 00:00:04,000" ++ [LF]
         ++ go "Bye" ++ [LF])
        perm0644 None;
      EvRefreshMetadata (go "ep42") None]).
Proof. vm_compute. reflexivity. Qed.

End orchestration_facts.

(** ** Numerals and timestamps *)

Module srt_facts.

Import subtitle srt.

Lemma isDigit_digit (c : ascii) : strconv.isDigit c = true <-> digit c.
Proof.
unfold strconv.isDigit, digit. rewrite andb_true_iff, !Z.leb_le. tauto.
Qed.

Lemma parseDigits_value (ds : gostring) (n : Z) :
  Forall digit ds ->
  strconv.parseDigits ds n
  = Some (fold_left (fun n c => n * 10 + (byteZ c - 0x30)) ds n).
Proof.
intros Hds. revert n.
induction Hds as [|c ds Hc _ IH]; intros n; simpl; [reflexivity|].
apply isDigit_digit in Hc. now rewrite Hc, IH.
Qed.

Lemma parseDigits_inv (ds : gostring) (n v : Z) :
  strconv.parseDigits ds n = Some v ->
  Forall digit ds
  /\ v = fold_left (fun n c => n * 10 + (byteZ c - 0x30)) ds n.
Proof.
revert n. induction ds as [|c ds IH]; intros n; simpl.
- intros [= <-]. now split.
- destruct (strconv.isDigit c) eqn:Hc; [|discriminate].
  intros Hp. apply IH in Hp as [Hds ->]. apply isDigit_digit in Hc.
  split; [now constructor | reflexivity].
Qed.

Lemma digit_not_sign (c : ascii) :
  digit c -> Ascii.eqb c "-" = false /\ Ascii.eqb c "+" = false.
Proof.
intros Hc. split; apply Ascii.eqb_neq; intros ->; vm_compute in Hc;
  destruct Hc as [H1 H2]; now (apply H1 || apply H2).
Qed.

(** [Atoi] accepts exactly the integers of the range of [int]. *)
Lemma Atoi_spec (s : gostring) (n : Z) :
  strconv.Atoi s = Some n <-> integerLine s n.
Proof.
unfold strconv.Atoi, integerLine.
change (2 ^ (strconv.intSize - 1)) with (2 ^ 63).
split.
- destruct s as [|c r]; [discriminate|].
  destruct (Ascii.eqb c "-") eqn:Em; cbn [orb].
  + apply Ascii.eqb_eq in Em as ->.
    destruct r as [|d r]; [discriminate|].
    destruct (strconv.parseDigits (d :: r) 0) as [u|] eqn:Ep; [|discriminate].
    apply parseDigits_inv in Ep as [Hds ->].
    destruct (_ && _) eqn:Er; [|discriminate]. intros [= <-].
    apply andb_true_iff in Er as [E1 E2].
    apply Z.leb_le in E1. apply Z.ltb_lt in E2.
    exists (go "-"), (d :: r). repeat split; auto; try discriminate.
  + destruct (Ascii.eqb c "+") eqn:Ep'.
    * apply Ascii.eqb_eq in Ep' as ->.
      destruct r as [|d r]; [discriminate|].
      destruct (strconv.parseDigits (d :: r) 0) as [u|] eqn:Ep; [|discriminate].
      apply parseDigits_inv in Ep as [Hds ->].
      destruct (_ && _) eqn:Er; [|discriminate]. intros [= <-].
      apply andb_true_iff in Er as [E1 E2].
      apply Z.leb_le in E1. apply Z.ltb_lt in E2.
      exists (go "+"), (d :: r). repeat split; auto; try discriminate.
    * destruct (strconv.parseDigits (c :: r) 0) as [u|] eqn:Ep; [|discriminate].
      apply parseDigits_inv in Ep as [Hds ->].
      destruct (_ && _) eqn:Er; [|discriminate]. intros [= <-].
      apply andb_true_iff in Er as [E1 E2].
      apply Z.leb_le in E1. apply Z.ltb_lt in E2.
      exists [], (c :: r). repeat split; auto; try discriminate.
- intros (sign & ds & -> & Hne & Hds & Hval & Hlo & Hhi).
  destruct ds as [|d ds]; [congruence|].
  assert (Hrange : forall v, - 2 ^ 63 <= v < 2 ^ 63 ->
            (- 2 ^ 63 <=? v) && (v <? 2 ^ 63) = true).
  { intros v [Hv1 Hv2]. apply andb_true_iff.
    now rewrite Z.leb_le, Z.ltb_lt. }
  destruct Hval as [[[-> | ->] ->] | [-> ->]].
  + cbn [app]. inversion Hds as [|? ? Hd _]; subst.
    destruct (digit_not_sign _ Hd) as [-> ->]. cbn [orb].
    rewrite (parseDigits_value _ _ Hds). fold (numeralValue (d :: ds)).
    now rewrite Hrange.
  + change (go "+") with ["+"%char]. cbn [app].
    change (Ascii.eqb "+" "-") with false. change (Ascii.eqb "+" "+") with true.
    cbn [orb]. rewrite (parseDigits_value _ _ Hds).
    fold (numeralValue (d :: ds)). now rewrite Hrange.
  + change (go "-") with ["-"%char]. cbn [app].
    change (Ascii.eqb "-" "-") with true.
    cbn [orb]. rewrite (parseDigits_value _ _ Hds).
    fold (numeralValue (d :: ds)). now rewrite Hrange.
Qed.

Lemma isSpace_blank (c : ascii) : regexp.isSpace c = true <-> blank c.
Proof.
unfold regexp.isSpace, blank. cbn [In].
rewrite !orb_true_iff, !Z.eqb_eq. intuition congruence.
Qed.

Lemma matchTimestamp_inv (s t rest : gostring) :
  regexp.matchTimestamp s = Some (t, rest) -> s = t ++ rest /\ timestamp t.
Proof.
unfold regexp.matchTimestamp.
do 12 (destruct s as [|? s]; [discriminate|]).
destruct (_ && _) eqn:E; [|discriminate]. intros [= <- <-].
do 11 (apply andb_true_iff in E as [E ?]).
repeat match goal with
       | H : Ascii.eqb _ _ = true |- _ => apply Ascii.eqb_eq in H; subst
       | H : regexp.isDigit _ = true |- _ => apply isDigit_digit in H
       end.
split; [reflexivity|].
do 9 eexists. split; [reflexivity|].
repeat (apply Forall_cons; [assumption|]). apply Forall_nil.
Qed.

Lemma matchTimestamp_timestamp (t rest : gostring) :
  timestamp t -> regexp.matchTimestamp (t ++ rest) = Some (t, rest).
Proof.
intros (h1 & h2 & m1 & m2 & s1 & s2 & f1 & f2 & f3 & -> & Hd).
repeat match goal with
       | H : Forall _ (_ :: _) |- _ => inversion H; clear H; subst
       end.
repeat match goal with
       | H : digit _ |- _ => apply isDigit_digit in H
       end.
cbn [app regexp.matchTimestamp]. unfold regexp.isDigit.
repeat match goal with
       | H : strconv.isDigit _ = true |- _ => rewrite H; clear H
       end.
reflexivity.
Qed.

Lemma skipSpace_inv (s : gostring) :
  exists ws, Forall blank ws /\ s = ws ++ regexp.skipSpace s.
Proof.
induction s as [|c s IH]; [now exists []|].
cbn [regexp.skipSpace]. destruct (regexp.isSpace c) eqn:Ec.
- destruct IH as (ws & Hws & E). exists (c :: ws).
  apply isSpace_blank in Ec. split; [now constructor|].
  cbn [app]. now f_equal.
- now exists [].
Qed.

(** Skipping white space stops at the first byte that is none. *)
Lemma skipSpace_app (ws : gostring) (c : ascii) (r : gostring) :
  Forall blank ws -> regexp.isSpace c = false ->
  regexp.skipSpace (ws ++ c :: r) = c :: r.
Proof.
intros Hws Hc. induction Hws as [|x ws Hx _ IH]; cbn [app regexp.skipSpace].
- now rewrite Hc.
- apply isSpace_blank in Hx. now rewrite Hx.
Qed.

Lemma matchArrow_inv (s r : gostring) :
  regexp.matchArrow s = Some r -> s = go "-->" ++ r.
Proof.
unfold regexp.matchArrow.
do 3 (destruct s as [|? s]; [discriminate|]).
destruct (_ && _) eqn:E; [|discriminate]. intros [= <-].
do 2 (apply andb_true_iff in E as [E ?]).
repeat match goal with
       | H : Ascii.eqb _ _ = true |- _ => apply Ascii.eqb_eq in H; subst
       end.
reflexivity.
Qed.

Lemma digit_not_space (c : ascii) : digit c -> regexp.isSpace c = false.
Proof.
intros [H1 H2]. unfold regexp.isSpace.
repeat rewrite orb_false_iff. repeat split; apply Z.eqb_neq; lia.
Qed.

Lemma timestamp_head (t : gostring) :
  timestamp t -> exists c r, t = c :: r /\ digit c.
Proof.
intros (h1 & h2 & m1 & m2 & s1 & s2 & f1 & f2 & f3 & -> & Hd).
inversion Hd; subst. eauto.
Qed.

(** A match at the head of the line. *)
Lemma matchHere_inv (s start stop : gostring) :
  regexp.matchHere s = Some (start, stop) ->
  timestamp start /\ timestamp stop
  /\ exists ws1 ws2 after,
      Forall blank ws1 /\ Forall blank ws2
      /\ s = start ++ ws1 ++ go "-->" ++ ws2 ++ stop ++ after.
Proof.
unfold regexp.matchHere.
destruct (regexp.matchTimestamp s) as [[g1 r1]|] eqn:E1; [|discriminate].
destruct (regexp.matchArrow (regexp.skipSpace r1)) as [r2|] eqn:E2;
  [|discriminate].
destruct (regexp.matchTimestamp (regexp.skipSpace r2)) as [[g2 r3]|] eqn:E3;
  [|discriminate].
intros [= <- <-].
apply matchTimestamp_inv in E1 as [-> Ht1].
apply matchTimestamp_inv in E3 as [E3 Ht2].
apply matchArrow_inv in E2.
destruct (skipSpace_inv r1) as (ws1 & Hws1 & Er1).
destruct (skipSpace_inv r2) as (ws2 & Hws2 & Er2).
split; [exact Ht1|]. split; [exact Ht2|].
exists ws1, ws2, r3. split; [exact Hws1|]. split; [exact Hws2|].
rewrite Er1 at 1. rewrite E2. rewrite Er2 at 1. now rewrite E3.
Qed.

Lemma matchHere_timing (start stop ws1 ws2 after : gostring) :
  timestamp start -> timestamp stop -> Forall blank ws1 -> Forall blank ws2 ->
  regexp.matchHere (start ++ ws1 ++ go "-->" ++ ws2 ++ stop ++ after)
  = Some (start, stop).
Proof.
intros Ht1 Ht2 Hws1 Hws2. unfold regexp.matchHere.
rewrite (matchTimestamp_timestamp _ _ Ht1).
change (go "-->") with ["-"%char; "-"%char; ">"%char]. cbn [app].
rewrite skipSpace_app by (auto; reflexivity).
cbn [regexp.matchArrow Ascii.eqb Bool.eqb andb].
destruct (timestamp_head _ Ht2) as (c & r & E & Hc).
assert (Es : regexp.skipSpace (ws2 ++ stop ++ after) = stop ++ after).
{ rewrite E. cbn [app]. apply skipSpace_app; [exact Hws2|].
  now apply digit_not_space. }
rewrite Es. now rewrite (matchTimestamp_timestamp _ _ Ht2).
Qed.

(** The search finds a timing when the line holds one, the leftmost one. *)
Lemma FindStringSubmatch_some (l start stop : gostring) :
  regexp.FindStringSubmatch l = Some (start, stop) -> timingIn l start stop.
Proof.
induction l as [|c l IH]; cbn [regexp.FindStringSubmatch].
- destruct (regexp.matchHere []) as [m|] eqn:E; [|discriminate].
  intros [= ->]. apply matchHere_inv in E as (H1 & H2 & ws1 & ws2 & a & ? & ? & E).
  split; [exact H1|]. split; [exact H2|]. exists [], ws1, ws2, a. auto.
- destruct (regexp.matchHere (c :: l)) as [m|] eqn:E.
  + intros [= ->].
    apply matchHere_inv in E as (H1 & H2 & ws1 & ws2 & a & ? & ? & E).
    split; [exact H1|]. split; [exact H2|]. exists [], ws1, ws2, a. auto.
  + intros Hf. destruct (IH Hf) as (H1 & H2 & b & ws1 & ws2 & a & ? & ? & ->).
    split; [exact H1|]. split; [exact H2|]. exists (c :: b), ws1, ws2, a. auto.
Qed.

Lemma FindStringSubmatch_unfold (s : gostring) :
  regexp.FindStringSubmatch s
  = match regexp.matchHere s with
    | Some m => Some m
    | None =>
      match s with
      | [] => None
      | _ :: r => regexp.FindStringSubmatch r
      end
    end.
Proof. now destruct s. Qed.

Lemma FindStringSubmatch_none (l : gostring) :
  regexp.FindStringSubmatch l = None -> forall start stop, ~ timingIn l start stop.
Proof.
intros Hf start stop (H1 & H2 & b & ws1 & ws2 & a & Hw1 & Hw2 & ->).
induction b as [|c b IH]; rewrite FindStringSubmatch_unfold in Hf.
- cbn [app] in Hf.
  rewrite (matchHere_timing _ _ _ _ _ H1 H2 Hw1 Hw2) in Hf. discriminate.
- destruct (regexp.matchHere ((c :: b) ++ _)); [discriminate|]. auto.
Qed.

(** ** The parser *)

Lemma Parse_loop (blocks : list gostring) (entries : list SubtitleEntry) :
  fold_left
    (fun entries block =>
       match parseBlock block with
       | Some entry => entries ++ [entry]
       | None => entries
       end) blocks entries
  = entries ++ flat_map kept blocks.
Proof.
revert entries. induction blocks as [|b bs IH]; intros entries; cbn.
- now rewrite app_nil_r.
- rewrite IH. unfold kept. destruct (parseBlock b); [|reflexivity].
  now rewrite <- app_assoc.
Qed.

Lemma Parse_kept (content : gostring) :
  Parse content = (flat_map kept (blocksOf content), None).
Proof. unfold Parse. now rewrite Parse_loop. Qed.

(** What a kept block looks like. *)
Lemma parseBlock_inv (block : gostring) (entry : SubtitleEntry) :
  parseBlock block = Some entry ->
  (3 <= length (linesOf block))%nat
  /\ integerLine (strings.TrimSpace (nth 0 (linesOf block) [])) (Index entry)
  /\ timingIn (nth 1 (linesOf block) []) (StartTime entry) (EndTime entry)
  /\ Text entry
     = strings.TrimSpace (strings.Join (skipn 2 (linesOf block)) [LF]).
Proof.
unfold parseBlock. fold (linesOf block).
destruct (streq (strings.TrimSpace block) []); [discriminate|].
destruct (length (linesOf block) <? 3)%nat eqn:El; [discriminate|].
apply Nat.ltb_ge in El.
destruct (strconv.Atoi _) as [index|] eqn:Ea; [|discriminate].
destruct (regexp.FindStringSubmatch _) as [[start stop]|] eqn:Ef;
  [|discriminate].
intros [= <-]. cbn [Index StartTime EndTime Text].
apply Atoi_spec in Ea. apply FindStringSubmatch_some in Ef. auto.
Qed.

(** A malformed block is dropped. *)
Lemma parseBlock_malformed (block : gostring) :
  fewerThanThreeLines block \/ lacksIndexLine block \/ lacksTimingLine block ->
  parseBlock block = None.
Proof.
intros Hbad. destruct (parseBlock block) as [entry|] eqn:E; [|reflexivity].
apply parseBlock_inv in E as (Hl & Hi & Ht & _).
destruct Hbad as [Hbad|[Hbad|Hbad]].
- unfold fewerThanThreeLines in Hbad. lia.
- now apply Hbad in Hi.
- now apply Hbad in Ht.
Qed.

(** Only a malformed block is dropped. *)
Lemma parseBlock_none_inv (block : gostring) :
  parseBlock block = None ->
  fewerThanThreeLines block \/ lacksIndexLine block \/ lacksTimingLine block.
Proof.
unfold parseBlock, fewerThanThreeLines, lacksIndexLine, lacksTimingLine.
fold (linesOf block).
destruct (streq (strings.TrimSpace block) []) eqn:Ee.
{ intros _. left. unfold linesOf. apply streq_eq in Ee. rewrite Ee.
  cbn. lia. }
destruct (length (linesOf block) <? 3)%nat eqn:El.
{ intros _. left. now apply Nat.ltb_lt. }
destruct (strconv.Atoi _) as [index|] eqn:Ea.
- destruct (regexp.FindStringSubmatch _) as [[start stop]|] eqn:Ef;
    [discriminate|].
  intros _. right; right. now apply FindStringSubmatch_none.
- intros _. right; left. intros n Hn. apply Atoi_spec in Hn. congruence.
Qed.

(** C8: [Parse] never reports an error and its result is, block after block
    in the order of the document, what is kept of each block: nothing of a
    block with fewer than three lines, without an integer on its first line
    or without a timing on its second line, and of no other block; otherwise
    one entry, whose index is the integer of the first line and whose
    timestamps are the ones found in the second line. *)
Theorem Parse_lenient (content : gostring) :
  snd (Parse content) = None
  /\ fst (Parse content) = flat_map kept (blocksOf content)
  /\ (forall block,
         fewerThanThreeLines block \/ lacksIndexLine block
         \/ lacksTimingLine block <->
         kept block = [])
  /\ (forall block entry,
         In entry (kept block) ->
         kept block = [entry]
         /\ (3 <= length (linesOf block))%nat
         /\ integerLine (strings.TrimSpace (nth 0 (linesOf block) []))
                        (Index entry)
         /\ timingIn (nth 1 (linesOf block) [])
                     (StartTime entry) (EndTime entry)).
Proof.
rewrite Parse_kept. cbn [fst snd].
split; [reflexivity|]. split; [reflexivity|]. split.
- intros block. unfold kept. split.
  + intros Hbad. now rewrite parseBlock_malformed.
  + destruct (parseBlock block) eqn:E; [discriminate|].
    intros _. now apply parseBlock_none_inv.
- intros block entry. unfold kept.
  destruct (parseBlock block) as [e|] eqn:E; [|intros []].
  intros [<-|[]]. split; [reflexivity|].
  apply parseBlock_inv in E as (Hl & Hi & Ht & _). auto.
Qed.

(** Of the five blocks of [mixed] the second and the last are kept. *)
Example Parse_mixed :
  Parse mixed
  = ([mkEntry 1 (go "00:00:01,000") (go "00:00:02,500") (go "Hello");
      mkEntry 4 (go "00:00:07,000") (go "00:00:08,000") (go "Bye")], None).
Proof. vm_compute. reflexivity. Qed.

(** ** Blank lines and line ends *)

Lemma blankLine_cons (c : ascii) (r : gostring) :
  c <> LF -> blankLine (c :: r) = blankLine r.
Proof.
intros Hc. destruct r as [|d r]; [reflexivity|].
cbn [blankLine]. destruct (Ascii.eqb_spec c LF); [contradiction|]. reflexivity.
Qed.

Lemma blankLine_skip (a s : gostring) :
  ~ In LF a -> blankLine (a ++ s) = blankLine s.
Proof.
induction a as [|c a IH]; intros Ha; [reflexivity|].
cbn [app]. rewrite blankLine_cons; [apply IH|]; intros H; apply Ha;
  [now right | now left].
Qed.

Lemma blankLine_LF (d : ascii) (r : gostring) :
  d <> LF -> blankLine (LF :: d :: r) = blankLine (d :: r).
Proof.
intros Hd. cbn [blankLine].
destruct (Ascii.eqb_spec d LF); [contradiction|]. now rewrite andb_false_r.
Qed.

Lemma blankLine_snoc (t : gostring) :
  blankLine t = false -> (forall t', t <> t' ++ [LF]) ->
  blankLine (t ++ [LF]) = false.
Proof.
induction t as [|c t IH]; intros Hb Hlast; [reflexivity|].
destruct t as [|d t].
- cbn. destruct (Ascii.eqb_spec c LF) as [->|]; [|reflexivity].
  now elim (Hlast []).
- cbn [app blankLine] in *. apply orb_false_iff in Hb as [-> Hb].
  cbn [orb]. apply IH; [exact Hb|]. intros t' E.
  apply (Hlast (c :: t')). cbn [app]. now f_equal.
Qed.

(** The first blank line of a text is where the text is cut. *)
Lemma Cut_blank (b r : gostring) :
  blankLine (b ++ [LF]) = false ->
  strings.Cut (b ++ LF :: LF :: r) [LF; LF] = Some (b, r).
Proof.
induction b as [|c b IH]; intros Hb; rewrite split_facts.Cut_unfold.
- cbn [app strings.HasPrefix]. now rewrite Ascii.eqb_refl.
- assert (Hhead : strings.HasPrefix ((c :: b) ++ LF :: LF :: r) [LF; LF] = false
                  /\ blankLine (b ++ [LF]) = false).
  { destruct b as [|d b]; cbn [app blankLine strings.HasPrefix] in *.
    - rewrite Ascii.eqb_refl in *. rewrite orb_false_r in Hb.
      now rewrite andb_true_r in *.
    - apply orb_false_iff in Hb as [Hb1 Hb2]. rewrite andb_true_r.
      now split. }
  destruct Hhead as [-> Hb']. cbn [app]. now rewrite IH.
Qed.

Lemma Cut_no_blank (s : gostring) :
  blankLine s = false -> strings.Cut s [LF; LF] = None.
Proof.
induction s as [|c s IH]; intros Hs; [reflexivity|].
rewrite split_facts.Cut_unfold.
destruct s as [|d s].
- cbn [strings.HasPrefix]. now rewrite andb_false_r.
- cbn [blankLine] in Hs. apply orb_false_iff in Hs as [Hs1 Hs2].
  cbn [strings.HasPrefix]. rewrite andb_true_r, Hs1. now rewrite IH.
Qed.

Lemma replaceLoop_lineEnds (content doc : gostring) :
  lineEnds content doc ->
  forall fuel n, (length content <= fuel)%nat -> n < 0 ->
  strings.replaceLoop fuel content [CR; LF] [LF] n = doc.
Proof.
induction 1 as [|c s d Hc Hsd IH|s d Hsd IH]; intros fuel n Hfuel Hn.
- destruct fuel; cbn [strings.replaceLoop]; [reflexivity|].
  destruct (Z.eqb_spec n 0); [lia | reflexivity].
- destruct fuel as [|fuel]; [cbn [length] in Hfuel; lia|].
  cbn [length] in Hfuel. cbn [strings.replaceLoop].
  destruct (Z.eqb_spec n 0); [lia|].
  rewrite split_facts.Cut_unfold. cbn [strings.HasPrefix].
  destruct (Ascii.eqb_spec c CR); [contradiction|]. cbn [andb].
  pose proof (IH (S fuel) n ltac:(lia) Hn) as IHs.
  cbn [strings.replaceLoop] in IHs.
  destruct (Z.eqb_spec n 0); [lia|].
  destruct (strings.Cut s [CR; LF]) as [[b a]|].
  + cbn [app] in IHs |- *. now rewrite IHs.
  + now rewrite IHs.
- destruct fuel as [|fuel]; [cbn [length] in Hfuel; lia|].
  cbn [length] in Hfuel. cbn [strings.replaceLoop].
  destruct (Z.eqb_spec n 0); [lia|].
  rewrite split_facts.Cut_unfold. cbn [strings.HasPrefix].
  rewrite !Ascii.eqb_refl. cbn [andb length skipn app].
  f_equal. apply IH; lia.
Qed.

(** Normalising the line ends of [content] gives [doc]. *)
Lemma ReplaceAll_lineEnds (content doc : gostring) :
  lineEnds content doc -> strings.ReplaceAll content [CR; LF] [LF] = doc.
Proof.
intros H. unfold strings.ReplaceAll, strings.Replace.
change (streq [CR; LF] [LF] || (-1 =? 0)) with false. cbv iota.
apply replaceLoop_lineEnds; [exact H | lia | lia].
Qed.

(** ** The formatter *)

Lemma written_cons (e e' : SubtitleEntry) (rest : list SubtitleEntry) :
  written (e :: e' :: rest)
  = (blockOf e ++ [LF]) ++ [LF] ++ written (e' :: rest).
Proof. reflexivity. Qed.

Lemma formatLoop_written (entries : list SubtitleEntry) :
  entries <> [] ->
  forall i result,
  formatLoop i entries result
  = result ++ (if (0 <? i)%nat then [LF] else []) ++ written entries.
Proof.
induction entries as [|e rest IH]; intros Hne i result; [congruence|].
cbn [formatLoop]. cbv zeta. destruct rest as [|e' rest].
- cbn [formatLoop]. unfold written, blockOf, timingLine.
  cbn [map strings.Join].
  destruct (0 <? i)%nat; repeat rewrite <- app_assoc; reflexivity.
- rewrite IH by discriminate. change (0 <? S i)%nat with true.
  rewrite written_cons. unfold blockOf, timingLine.
  destruct (0 <? i)%nat; repeat rewrite <- app_assoc; reflexivity.
Qed.

(** [Format] writes the blocks one after the other, a line end after each
    and a blank line between two. *)
Lemma Format_written (entries : list SubtitleEntry) :
  Format entries = written entries.
Proof.
unfold Format. destruct entries as [|e rest]; [reflexivity|].
now rewrite formatLoop_written by discriminate.
Qed.

(** ** Canonical blocks *)

(** A digit or a minus sign: ASCII, no white space, no line end. *)
Lemma plain_byte (c : ascii) :
  digit c \/ c = "-"%char ->
  byteZ c < utf8.RuneSelf /\ strings.asciiSpace c = false /\ c <> LF.
Proof.
intros Hc.
assert (Hb : 0x2D <= byteZ c <= 0x39).
{ destruct Hc as [[H1 H2]| ->]; [lia | vm_compute; split; discriminate]. }
unfold utf8.RuneSelf, strings.asciiSpace.
split; [lia|]. split.
- repeat rewrite orb_false_iff. repeat split; apply Z.eqb_neq; lia.
- intros ->. vm_compute in Hb. destruct Hb as [Hb _]. now apply Hb.
Qed.

Lemma colon_comma_plain (c : ascii) :
  c = ":"%char \/ c = ","%char \/ c = " "%char \/ c = ">"%char -> c <> LF.
Proof. intros [->|[->|[->| ->]]]; discriminate. Qed.

Lemma digit_not_LF (c : ascii) : digit c -> c <> LF.
Proof. intros Hc. apply plain_byte. now left. Qed.

Lemma timestamp_no_LF (t : gostring) : timestamp t -> ~ In LF t.
Proof.
intros (h1 & h2 & m1 & m2 & s1 & s2 & f1 & f2 & f3 & -> & Hd) Hin.
repeat match goal with
       | H : Forall _ (_ :: _) |- _ => inversion H; clear H; subst
       end.
cbn [In] in Hin.
repeat match goal with
       | H : _ \/ _ |- _ => destruct H as [H|H]
       | H : ?c = LF, D : digit ?c |- _ => now apply (digit_not_LF _ D)
       | H : _ = LF |- _ => discriminate H
       | H : False |- _ => destruct H
       end.
Qed.

Lemma timingLine_no_LF (e : SubtitleEntry) :
  timestamp (StartTime e) -> timestamp (EndTime e) -> ~ In LF (timingLine e).
Proof.
intros H1 H2 Hin. unfold timingLine in Hin.
apply in_app_or in Hin as [Hin|Hin]; [now apply (timestamp_no_LF _ H1)|].
apply in_app_or in Hin as [Hin|Hin]; [|now apply (timestamp_no_LF _ H2)].
vm_compute in Hin. intuition discriminate.
Qed.

Lemma timingLine_found (e : SubtitleEntry) :
  timestamp (StartTime e) -> timestamp (EndTime e) ->
  regexp.FindStringSubmatch (timingLine e) = Some (StartTime e, EndTime e).
Proof.
intros H1 H2. rewrite FindStringSubmatch_unfold. unfold timingLine.
pose proof (matchHere_timing (StartTime e) (EndTime e) [" "%char] [" "%char] []
              H1 H2) as Hm.
rewrite app_nil_r in Hm.
change (go " --> " ++ EndTime e)
  with ([" "%char] ++ go "-->" ++ [" "%char] ++ EndTime e).
assert (Hsp : Forall blank [" "%char]).
{ constructor; [|constructor]. unfold blank. vm_compute. tauto. }
now rewrite Hm.
Qed.

Lemma d_no_LF (n : Z) : ~ In LF (fmt.d n).
Proof.
intros Hin. destruct (fmt_facts.d_bytes n) as [_ Hall].
rewrite Forall_forall in Hall. apply Hall in Hin.
now apply plain_byte in Hin as (_ & _ & Hne).
Qed.

(** A string that ends with an ASCII byte has that byte as last rune. *)
Lemma DecodeLast_ascii (s : gostring) (c : ascii) :
  byteZ c < utf8.RuneSelf ->
  utf8.DecodeLastRuneInString (s ++ [c]) = (byteZ c, 1%nat).
Proof.
intros Hc. unfold utf8.DecodeLastRuneInString.
rewrite rev_app_distr. cbn [rev app].
destruct (Z.ltb_spec (byteZ c) utf8.RuneSelf); [reflexivity | lia].
Qed.

Lemma d_trimmed (n : Z) : strings.TrimSpace (fmt.d n) = fmt.d n.
Proof.
destruct (fmt_facts.d_bytes n) as [Hne Hall].
apply trim_facts.TrimSpace_keep.
- destruct (fmt.d n) as [|c r]; [congruence|].
  inversion Hall as [|? ? Hc _]; subst.
  apply plain_byte in Hc as (Hlt & Hsp & _).
  rewrite (utf8_facts.DecodeRune_ascii _ _ Hlt). cbn [fst].
  now rewrite trim_facts.IsSpace_ascii.
- destruct (exists_last Hne) as (s & c & E). rewrite E in *.
  apply Forall_app in Hall as [_ Hc]. inversion Hc as [|? ? Hc' _]; subst.
  apply plain_byte in Hc' as (Hlt & Hsp & _).
  rewrite (DecodeLast_ascii _ _ Hlt). cbn [fst].
  now rewrite trim_facts.IsSpace_ascii.
Qed.

(** The head of a canonical block is a digit or a minus sign, and its last
    rune is the last rune of the text. *)
Lemma blockOf_head (e : SubtitleEntry) :
  exists c r,
    blockOf e = c :: r /\ byteZ c < utf8.RuneSelf
    /\ strings.asciiSpace c = false /\ c <> LF.
Proof.
destruct (fmt_facts.d_bytes (Index e)) as [Hne Hall]. unfold blockOf.
destruct (fmt.d (Index e)) as [|c r]; [congruence|].
inversion Hall as [|? ? Hc _]; subst.
apply plain_byte in Hc as (Hlt & Hsp & Hlf).
exists c. eexists. split; [reflexivity|]. auto.
Qed.

Lemma blockOf_last (e : SubtitleEntry) :
  Text e <> [] ->
  utf8.DecodeLastRuneInString (blockOf e)
  = utf8.DecodeLastRuneInString (Text e).
Proof.
intros Hne. unfold blockOf.
replace (fmt.d (Index e) ++ [LF] ++ timingLine e ++ [LF] ++ Text e)
  with ((fmt.d (Index e) ++ [LF] ++ timingLine e) ++ LF :: Text e)
  by (repeat rewrite <- app_assoc; reflexivity).
apply utf8_facts.DecodeLast_after_ascii; [vm_compute; reflexivity | exact Hne].
Qed.

Lemma blockOf_lines (e : SubtitleEntry) :
  timestamp (StartTime e) -> timestamp (EndTime e) ->
  strings.Split (blockOf e) [LF]
  = fmt.d (Index e) :: timingLine e :: strings.Split (Text e) [LF].
Proof.
intros H1 H2. unfold blockOf. cbn [app].
rewrite split_facts.Split_line by apply d_no_LF.
now rewrite split_facts.Split_line by now apply timingLine_no_LF.
Qed.

(** A canonical block, ASCII white space around it, is read back as its
    entry. *)
Lemma parseBlock_canonical (e : SubtitleEntry) (p q : gostring) :
  canonical e ->
  Forall (fun x => strings.asciiSpace x = true) p ->
  Forall (fun x => strings.asciiSpace x = true) q ->
  parseBlock (p ++ blockOf e ++ q) = Some e.
Proof.
intros (Hidx & Hst & Hen & Hne & Hcr & Hbl & Hfirst & Hlast) Hp Hq.
unfold parseBlock.
destruct (blockOf_head e) as (c & r & Eb & Hlt & Hsp & _).
assert (Et : strings.TrimSpace (p ++ blockOf e ++ q) = blockOf e).
{ rewrite Eb. apply trim_facts.TrimSpace_padded; auto.
  rewrite <- Eb, blockOf_last by exact Hne. exact Hlast. }
rewrite Et.
replace (streq (blockOf e) []) with false by now rewrite Eb.
rewrite (blockOf_lines e Hst Hen).
pose proof (split_facts.Split_not_nil (Text e) [LF] ltac:(discriminate)) as Hl.
destruct (strings.Split (Text e) [LF]) as [|l ls] eqn:El; [congruence|].
cbn [length nth skipn]. change (S (S (S (length ls))) <? 3)%nat with false.
cbv iota. rewrite d_trimmed.
rewrite (proj2 (Atoi_spec _ _) (fmt_facts.d_integerLine _ Hidx)).
rewrite (timingLine_found e Hst Hen).
rewrite <- El, split_facts.Join_Split by discriminate.
rewrite (trim_facts.TrimSpace_keep _ Hfirst Hlast).
now destruct e.
Qed.

Lemma kept_canonical (e : SubtitleEntry) (p q : gostring) :
  canonical e ->
  Forall (fun x => strings.asciiSpace x = true) p ->
  Forall (fun x => strings.asciiSpace x = true) q ->
  kept (p ++ blockOf e ++ q) = [e].
Proof. intros. unfold kept. now rewrite parseBlock_canonical. Qed.

(** ** Documents *)

Lemma cleanText_ends (t : gostring) :
  cleanText t ->
  (exists c r, t = c :: r /\ c <> LF) /\ (forall t', t <> t' ++ [LF]).
Proof.
intros (Hne & _ & _ & Hfirst & Hlast). split.
- destruct t as [|c r]; [congruence|]. exists c, r. split; [reflexivity|].
  intros ->. rewrite utf8_facts.DecodeRune_ascii in Hfirst by reflexivity.
  discriminate Hfirst.
- intros t' ->. rewrite DecodeLast_ascii in Hlast by reflexivity.
  discriminate Hlast.
Qed.

Lemma timingLine_head (e : SubtitleEntry) :
  timestamp (StartTime e) -> exists c r, timingLine e = c :: r /\ c <> LF.
Proof.
intros H. destruct (timestamp_head _ H) as (c & r & E & Hc).
unfold timingLine. rewrite E. exists c. eexists. split; [reflexivity|].
now apply digit_not_LF.
Qed.

(** A canonical block, also after one line end, has no blank line up to the
    line end that follows it. *)
Lemma blankLine_block (e : SubtitleEntry) (p : gostring) :
  canonical e -> p = [] \/ p = [LF] ->
  blankLine ((p ++ blockOf e) ++ [LF]) = false.
Proof.
intros (Hidx & Hst & Hen & Hclean) Hp.
destruct (cleanText_ends _ Hclean) as [(c & r & Et & Hc) Hlast].
destruct Hclean as (_ & _ & Hbl & _).
assert (Hblock : blankLine (blockOf e ++ [LF]) = false).
{ unfold blockOf. repeat rewrite <- app_assoc.
  rewrite blankLine_skip by apply d_no_LF. cbn [app].
  destruct (timingLine_head e Hst) as (h & tl & Eh & Hh).
  pose proof (timingLine_no_LF e Hst Hen) as Hno.
  rewrite Eh in *. cbn [app]. rewrite blankLine_LF by exact Hh.
  change (h :: tl ++ LF :: Text e ++ [LF])
    with ((h :: tl) ++ LF :: Text e ++ [LF]).
  rewrite blankLine_skip by exact Hno.
  rewrite Et at 1. cbn [app]. rewrite blankLine_LF by exact Hc.
  change (c :: r ++ [LF]) with ((c :: r) ++ [LF]). rewrite <- Et.
  now apply blankLine_snoc. }
destruct Hp as [-> | ->]; [exact Hblock|].
destruct (blockOf_head e) as (h & tl & Eh & _ & _ & Hh).
rewrite Eh in *. cbn [app] in *. now rewrite blankLine_LF.
Qed.

Lemma blankLine_prefix (a b : gostring) :
  blankLine (a ++ b) = false -> blankLine a = false.
Proof.
induction a as [|c a IH]; [reflexivity|].
destruct a as [|d a]; [reflexivity|].
cbn [app blankLine]. intros H. apply orb_false_iff in H as [-> H].
now apply IH.
Qed.

Lemma asciiSpace_pad (p : gostring) :
  p = [] \/ p = [LF] -> Forall (fun x => strings.asciiSpace x = true) p.
Proof. intros [-> | ->]; repeat constructor. Qed.

Lemma entriesOf_blank (r : gostring) : entriesOf (LF :: LF :: r) = entriesOf r.
Proof.
unfold entriesOf.
rewrite (split_facts.Split_cut _ _ [] r) by (discriminate || reflexivity).
reflexivity.
Qed.

(** A canonical block that a blank line follows. *)
Lemma entriesOf_block (e : SubtitleEntry) (p r : gostring) :
  canonical e -> p = [] \/ p = [LF] ->
  entriesOf (p ++ blockOf e ++ LF :: LF :: r) = e :: entriesOf r.
Proof.
intros He Hp. unfold entriesOf. rewrite app_assoc.
rewrite (split_facts.Split_cut _ _ (p ++ blockOf e) r);
  [|discriminate | now apply Cut_blank, blankLine_block].
cbn [flat_map]. f_equal.
rewrite <- (app_nil_r (blockOf e)).
rewrite (kept_canonical e p [] He (asciiSpace_pad p Hp) (Forall_nil _)).
reflexivity.
Qed.

(** A canonical block at the end of the document. *)
Lemma entriesOf_last (e : SubtitleEntry) (p q : gostring) :
  canonical e -> p = [] \/ p = [LF] -> q = [] \/ q = [LF] ->
  entriesOf (p ++ blockOf e ++ q) = [e].
Proof.
intros He Hp Hq. unfold entriesOf.
rewrite split_facts.Split_whole; [|discriminate|].
- cbn [flat_map]. rewrite app_nil_r.
  apply kept_canonical; auto using asciiSpace_pad.
- apply Cut_no_blank. pose proof (blankLine_block e p He Hp) as Hb.
  destruct Hq as [-> | ->].
  + rewrite app_nil_r. now apply blankLine_prefix in Hb.
  + now rewrite app_assoc.
Qed.

Lemma entriesOf_nil : entriesOf [] = [].
Proof. reflexivity. Qed.

Lemma entriesOf_LF : entriesOf [LF] = [].
Proof. reflexivity. Qed.

(** Line ends in front of a document: all but one, at most, are blank
    lines and go. *)
Lemma entriesOf_lead (lead : nat) (s : gostring) :
  exists p, (p = [] \/ p = [LF])
            /\ entriesOf (newlines lead ++ s) = entriesOf (p ++ s).
Proof.
assert (H2 : forall k,
  (exists p, (p = [] \/ p = [LF])
             /\ entriesOf (newlines k ++ s) = entriesOf (p ++ s))
  /\ (exists p, (p = [] \/ p = [LF])
                /\ entriesOf (newlines (S k) ++ s) = entriesOf (p ++ s))).
{ induction k as [|k [IH1 IH2]].
  - split; [exists [] | exists [LF]]; auto.
  - split; [exact IH2|]. destruct IH1 as (p & Hp & E). exists p.
    split; [exact Hp|]. cbn [newlines repeat app]. rewrite entriesOf_blank.
    exact E. }
apply H2.
Qed.

Lemma entriesOf_newlines (k : nat) : entriesOf (newlines k) = [].
Proof.
destruct (entriesOf_lead k []) as (p & [-> | ->] & E);
  rewrite app_nil_r in E; rewrite E; reflexivity.
Qed.

(** The entries of a laid out document are the entries that were laid
    out. *)
Lemma entriesOf_layout (blocks : list (SubtitleEntry * nat)) :
  Forall (fun b => canonical (fst b)) blocks -> separated blocks ->
  forall lead, entriesOf (newlines lead ++ layout blocks) = map fst blocks.
Proof.
induction blocks as [|[e k] rest IH]; intros Hcan Hsep lead.
- cbn [layout map]. rewrite app_nil_r. apply entriesOf_newlines.
- inversion Hcan as [|? ? He Hrest]; subst. cbn [fst] in He.
  cbn [layout map fst].
  destruct (entriesOf_lead lead (blockOf e ++ newlines k ++ layout rest))
    as (p & Hp & ->).
  destruct k as [|[|k]].
  + destruct rest as [|b rest]; [|cbn [separated] in Hsep; lia].
    cbn [newlines repeat app layout map].
    now apply (entriesOf_last e p []); auto.
  + destruct rest as [|b rest]; [|cbn [separated] in Hsep; lia].
    cbn [newlines repeat app layout map].
    now apply (entriesOf_last e p [LF]); auto.
  + cbn [newlines repeat app]. rewrite entriesOf_block by assumption.
    f_equal. apply IH; [exact Hrest|].
    destruct rest; [exact I | now destruct Hsep].
Qed.

(** C3, for documents in canonical form: when the input is made of blocks
    whose index line is the numeral [%d] writes for an [int], whose timing
    line is exactly [HH:MM:SS,mmm --> HH:MM:SS,mmm] and whose text has no
    CR, no blank line and no white space at its start or end, the blocks
    separated by one blank line or more, with line ends LF or CRLF and any
    number of line ends before the first and after the last block, [Parse]
    returns exactly the entries of the blocks, and [Format] of them writes
    the blocks byte for byte, a line end after each and one blank line
    between two. *)
Theorem roundtrip_canonical
    (blocks : list (SubtitleEntry * nat)) (lead : nat) (content : gostring) :
  Forall (fun b => canonical (fst b)) blocks ->
  separated blocks ->
  lineEnds content (newlines lead ++ layout blocks) ->
  Parse content = (map fst blocks, None)
  /\ length (fst (Parse content)) = length blocks
  /\ Format (fst (Parse content)) = written (map fst blocks).
Proof.
intros Hcan Hsep Hends.
assert (E : Parse content = (map fst blocks, None)).
{ rewrite Parse_kept. unfold blocksOf.
  rewrite (ReplaceAll_lineEnds _ _ Hends).
  fold (entriesOf (newlines lead ++ layout blocks)).
  now rewrite entriesOf_layout. }
rewrite E. cbn [fst]. split; [reflexivity|]. split; [apply length_map|].
apply Format_written.
Qed.

Ltac timestamp_shape :=
  do 9 eexists; split; [reflexivity|];
  repeat (apply Forall_cons; [unfold digit; vm_compute; split; discriminate|]);
  apply Forall_nil.

Ltac canonical_entry :=
  split; [split; [vm_compute; discriminate | vm_compute; reflexivity]|];
  split; [timestamp_shape|]; split; [timestamp_shape|];
  split; [discriminate|];
  split; [intros Hin; vm_compute in Hin; intuition discriminate|];
  split; [reflexivity|]; split; reflexivity.

(** The two cues of the scenario, written with CRLF line ends, are read
    back as their two entries and written again with LF line ends. *)
Lemma roundtrip_canonical_witness :
  Parse scenario.twoCues = ([scenario.hello; scenario.bye], None)
  /\ length (fst (Parse scenario.twoCues)) = 2%nat
  /\ Format (fst (Parse scenario.twoCues))
     = go "1" ++ [LF] ++ go "00:00:01,000 --> 00:00:02,500" ++ [LF]
       ++ go "Hello" ++ [LF] ++ [LF]
       ++ go "2" ++ [LF] ++ go "00:00:03,000 --> 00:00:04,000" ++ [LF]
       ++ go "Bye" ++ [LF].
Proof.
apply (roundtrip_canonical [(scenario.hello, 2%nat); (scenario.bye, 1%nat)]
                           0%nat scenario.twoCues).
- repeat (apply Forall_cons; [canonical_entry|]). apply Forall_nil.
- split; [apply le_n | exact I].
- vm_compute.
  repeat first [ apply lineEnds_nil
               | apply lineEnds_crlf
               | apply lineEnds_byte; [discriminate|] ].
Defined.

(** C3 as stated fails.  The block [paddedBlock] is made of an index line of
    digits, a timing line of the exact shape and one text line, with LF line
    ends; it is read as entry 7 with the text [Hi] and written back as
    another block: the zeros of the index and the spaces of the text are
    gone.  The block [hugeIndex] is well-formed in the same sense and is
    dropped: the document has one block and no entry. *)
Lemma roundtrip_not_bytewise :
  wellFormedLines (go "007") (go "00:00:01,000 --> 00:00:02,000") [go "  Hi"]
  /\ paddedBlock
     = strings.Join [go "007"; go "00:00:01,000 --> 00:00:02,000"; go "  Hi"] [LF]
       ++ [LF]
  /\ Parse paddedBlock
     = ([mkEntry 7 (go "00:00:01,000") (go "00:00:02,000") (go "Hi")], None)
  /\ Format (fst (Parse paddedBlock))
     = go "7" ++ [LF] ++ go "00:00:01,000 --> 00:00:02,000" ++ [LF]
       ++ go "Hi" ++ [LF]
  /\ Format (fst (Parse paddedBlock)) <> paddedBlock
  /\ wellFormedLines (go "99999999999999999999")
                     (go "00:00:01,000 --> 00:00:02,000") [go "Hi"]
  /\ hugeIndex
     = strings.Join [go "99999999999999999999";
                     go "00:00:01,000 --> 00:00:02,000"; go "Hi"] [LF]
       ++ [LF]
  /\ fst (Parse hugeIndex) = [].
Proof.
assert (Hwf : forall index text,
  index <> [] -> Forall digit index ->
  text <> [] -> ~ In LF text -> ~ In CR text ->
  wellFormedLines index (go "00:00:01,000 --> 00:00:02,000") [text]).
{ intros index text H1 H2 H3 H4 H5. split; [exact H1|]. split; [exact H2|].
  split.
  - exists (go "00:00:01,000"), (go "00:00:02,000").
    split; [timestamp_shape|]. split; [timestamp_shape | reflexivity].
  - split; [discriminate|]. constructor; [auto | constructor]. }
assert (Hdigits : forall s,
  forallb strconv.isDigit s = true -> Forall digit s).
{ intros s Hs. apply Forall_forall. intros c Hc. apply isDigit_digit.
  rewrite forallb_forall in Hs. now apply Hs. }
split.
{ apply Hwf; try discriminate; try (apply Hdigits; reflexivity);
    intros Hin; vm_compute in Hin; intuition discriminate. }
split; [reflexivity|]. split; [vm_compute; reflexivity|].
split; [vm_compute; reflexivity|].
split; [vm_compute; intros E; discriminate E|].
split.
{ apply Hwf; try discriminate; try (apply Hdigits; reflexivity);
    intros Hin; vm_compute in Hin; intuition discriminate. }
split; [reflexivity | vm_compute; reflexivity].
Qed.

End srt_facts.

(** * Further properties *)

(** ** Loading the configuration and mapping paths *)

Module environ_facts.

Import config environ srt.

Lemma Map_prefix (c : Config) (rest : gostring) :
  JellyfinPathPrefix c <> [] -> ContainerPathPrefix c <> [] ->
  MapJellyfinPathToContainer c (JellyfinPathPrefix c ++ rest)
  = ContainerPathPrefix c ++ rest.
Proof.
intros Hs Hd. unfold MapJellyfinPathToContainer.
rewrite (proj2 (streq_neq _ _) Hs), (proj2 (streq_neq _ _) Hd).
cbn [orb]. rewrite HasPrefix_app. now apply Replace_leading.
Qed.

(** X1: a path under the source prefix, mapped and then mapped with the two
    prefixes exchanged, is the path again. *)
Theorem Map_there_and_back (c : Config) (path : gostring) :
  JellyfinPathPrefix c <> [] -> ContainerPathPrefix c <> [] ->
  strings.HasPrefix path (JellyfinPathPrefix c) = true ->
  MapJellyfinPathToContainer (swapped c) (MapJellyfinPathToContainer c path)
  = path.
Proof.
intros Hs Hd Hp. apply HasPrefix_inv in Hp as [rest ->].
rewrite (Map_prefix c rest Hs Hd).
apply (Map_prefix (swapped c) rest); assumption.
Qed.

Lemma Map_there_and_back_witness :
  MapJellyfinPathToContainer (swapped query.mapped)
    (MapJellyfinPathToContainer query.mapped (go "/data/media/Foo/S02E05.mkv"))
  = go "/data/media/Foo/S02E05.mkv".
Proof.
apply Map_there_and_back; [discriminate | discriminate | reflexivity].
Defined.

(** X2: the port of the loaded configuration is the integer that the
    variable PORT spells, whatever its sign and size within [int]; a value
    that is no such numeral, the unset variable included, gives 8080. *)
Theorem Load_port (env : Environ) :
  (forall n, integerLine (env (go "PORT")) n -> Port (Load env) = n)
  /\ ((forall n, ~ integerLine (env (go "PORT")) n) ->
      Port (Load env) = 8080).
Proof.
unfold Load. cbn [Port]. split.
- intros n Hn. pose proof Hn as Ha. apply srt_facts.Atoi_spec in Ha.
  rewrite Ha.
  destruct (streq (env (go "PORT")) []) eqn:E; [|reflexivity].
  apply streq_eq in E. rewrite E in Ha. discriminate Ha.
- intros Hno. destruct (negb _); [|reflexivity].
  destruct (strconv.Atoi (env (go "PORT"))) as [n|] eqn:Ha; [|reflexivity].
  apply srt_facts.Atoi_spec in Ha. now apply Hno in Ha.
Qed.

Lemma Load_port_witness :
  Port (Load (lookup [(go "PORT", go "-5")])) = -5
  /\ Port (Load odd) = 8080.
Proof.
split.
- apply Load_port. exists (go "-"), (go "5").
  split; [reflexivity|]. split; [discriminate|].
  split; [constructor; [vm_compute; split; discriminate | constructor]|].
  split; [right; split; reflexivity|].
  split; [vm_compute; discriminate | reflexivity].
- apply Load_port. intros n Hn. apply srt_facts.Atoi_spec in Hn.
  discriminate Hn.
Defined.

(** X3: direct save is enabled exactly when ENABLE_DIRECT_SAVE is unset or
    empty or is one of [true], [1], [yes], in this spelling. *)
Theorem Load_direct_save (env : Environ) :
  EnableDirectSave (Load env) = true
  <-> In (env (go "ENABLE_DIRECT_SAVE")) [[]; go "true"; go "1"; go "yes"].
Proof.
unfold Load, getBoolEnv. cbn [EnableDirectSave In].
destruct (streq (env (go "ENABLE_DIRECT_SAVE")) []) eqn:E; cbn [negb].
- apply streq_eq in E. rewrite E. split; auto.
- apply streq_neq in E. rewrite !orb_true_iff, !streq_eq.
  split; [intros [[H|H]|H]; auto|].
  intros [H|[H|[H|[H|[]]]]]; auto. congruence.
Qed.

(** X4: the loaded configuration maps a path under JELLYFIN_PATH_PREFIX to
    the same path under CONTAINER_PATH_PREFIX when both variables are set,
    and every path to itself when one of them is unset or empty. *)
Theorem Load_mapping (env : Environ) :
  (env (go "JELLYFIN_PATH_PREFIX") <> [] ->
   env (go "CONTAINER_PATH_PREFIX") <> [] ->
   forall rest,
     MapJellyfinPathToContainer (Load env)
       (env (go "JELLYFIN_PATH_PREFIX") ++ rest)
     = env (go "CONTAINER_PATH_PREFIX") ++ rest)
  /\ (env (go "JELLYFIN_PATH_PREFIX") = []
      \/ env (go "CONTAINER_PATH_PREFIX") = [] ->
      forall path, MapJellyfinPathToContainer (Load env) path = path).
Proof.
assert (Hget : forall key, getEnv env key [] = env key).
{ intros key. unfold getEnv. destruct (streq (env key) []) eqn:E; [|reflexivity].
  apply streq_eq in E. now rewrite E. }
split.
- intros Hs Hd rest.
  pose proof (Map_prefix (Load env) rest) as H.
  cbn [Load JellyfinPathPrefix ContainerPathPrefix] in H.
  rewrite !Hget in H. now apply H.
- intros Hempty path. unfold MapJellyfinPathToContainer.
  cbn [Load JellyfinPathPrefix ContainerPathPrefix]. rewrite !Hget.
  destruct Hempty as [-> | ->]; [reflexivity|]. now rewrite orb_true_r.
Qed.

Lemma Load_mapping_witness :
  MapJellyfinPathToContainer (Load compose) (go "/data/media/Foo/S02E05.mkv")
  = go "/media/Foo/S02E05.mkv"
  /\ MapJellyfinPathToContainer (Load odd) (go "/data/media/Foo/S02E05.mkv")
     = go "/data/media/Foo/S02E05.mkv".
Proof.
destruct (Load_mapping compose) as [H1 _].
destruct (Load_mapping odd) as [_ H2].
split.
- apply (H1 ltac:(discriminate) ltac:(discriminate) (go "/Foo/S02E05.mkv")).
- apply H2. now right.
Defined.

End environ_facts.

(** ** Strings: what trimming and replacing keep *)

Module infix_facts.

Import strings.

Lemma trimStart_suffix (s : gostring) :
  exists p, s = p ++ snd (trimStart s).
Proof.
induction s as [|c r IH]; [now exists []|].
cbn [trimStart]. destruct (utf8.RuneSelf <=? byteZ c); [now exists []|].
destruct (asciiSpace c); [|now exists []].
destruct IH as [p E]. exists (c :: p). cbn [app]. now rewrite <- E.
Qed.

Lemma trimLeftLoop_suffix (fuel : nat) (f : Z -> bool) (s : gostring) :
  exists p, s = p ++ trimLeftLoop fuel f s.
Proof.
revert s. induction fuel as [|fuel IH]; intros s; cbn [trimLeftLoop].
- exists s. now rewrite app_nil_r.
- destruct s as [|c r]; [now exists []|].
  destruct (utf8.DecodeRuneInString (c :: r)) as [ru size].
  destruct (f ru); [|now exists []].
  destruct (IH (skipn size (c :: r))) as [p E].
  exists (firstn size (c :: r) ++ p).
  rewrite <- app_assoc, <- E. now rewrite firstn_skipn.
Qed.

Lemma TrimRightFunc_prefix (s : gostring) (f : Z -> bool) :
  exists q, s = TrimRightFunc s f ++ q.
Proof.
unfold TrimRightFunc.
destruct (lastIndexLoop (length s) f s (length s)) as [i|]; [|now exists s].
destruct (utf8.RuneSelf <=? byteZ (nth i s zero)).
- eexists. symmetry. apply firstn_skipn.
- eexists. symmetry. apply firstn_skipn.
Qed.

(** [TrimSpace s] is a piece of [s]. *)
Lemma TrimSpace_infix (s : gostring) :
  exists p q, s = p ++ TrimSpace s ++ q.
Proof.
unfold TrimSpace.
destruct (trimStart_suffix s) as [p E].
destruct (trimStart s) as [slow s1]. cbn [snd] in E.
destruct slow.
- unfold TrimFunc, TrimLeftFunc.
  destruct (trimLeftLoop_suffix (length s1) unicode.IsSpace s1) as [p1 E1].
  destruct (TrimRightFunc_prefix
              (trimLeftLoop (length s1) unicode.IsSpace s1) unicode.IsSpace)
    as [q Eq].
  exists (p ++ p1), q. rewrite <- app_assoc, <- Eq, <- E1. exact E.
- destruct (trimStart_suffix (rev s1)) as [p2 E2].
  destruct (trimStart (rev s1)) as [slow' rs]. cbn [snd] in E2.
  assert (E3 : s1 = rev rs ++ rev p2).
  { rewrite <- rev_app_distr, <- E2. now rewrite rev_involutive. }
  destruct slow'.
  + destruct (TrimRightFunc_prefix (rev rs) unicode.IsSpace) as [q Eq].
    exists p, (q ++ rev p2).
    rewrite app_assoc with (n := rev p2), <- Eq, <- E3. exact E.
  + exists p, (rev p2). now rewrite <- E3.
Qed.

Lemma TrimSpace_Forall (P : ascii -> Prop) (s : gostring) :
  Forall P s -> Forall P (TrimSpace s).
Proof.
intros H. destruct (TrimSpace_infix s) as (p & q & E).
rewrite E in H. apply Forall_app in H as [_ H].
now apply Forall_app in H as [H _].
Qed.

(** Cutting at one byte. *)
Lemma Cut_byte (a : ascii) (s : gostring) :
  match Cut s [a] with
  | Some (before, after) => s = before ++ a :: after /\ ~ In a before
  | None => ~ In a s
  end.
Proof.
induction s as [|c r IH]; [cbn; tauto|].
rewrite split_facts.Cut_unfold. cbn [HasPrefix length skipn].
destruct (Ascii.eqb_spec c a) as [->|Hne]; cbn [andb].
- split; [reflexivity | intros []].
- destruct (Cut r [a]) as [[before after]|].
  + destruct IH as [-> Hno]. split; [reflexivity|].
    intros [H|H]; [now apply Hne | now apply Hno].
  + intros [H|H]; [now apply Hne | now apply IH].
Qed.

Lemma replaceLoop_byte (a b : ascii) (fuel : nat) :
  forall (s : gostring) (n : Z),
  (length s <= fuel)%nat -> n < 0 ->
  replaceLoop fuel s [a] [b] n
  = map (fun c => if Ascii.eqb c a then b else c) s.
Proof.
induction fuel as [|fuel IH]; intros s n Hlen Hn.
- destruct s; [reflexivity | cbn [length] in Hlen; lia].
- cbn [replaceLoop]. destruct (Z.eqb_spec n 0); [lia|].
  pose proof (Cut_byte a s) as Hc.
  assert (Hkeep : forall l, ~ In a l ->
            map (fun c => if Ascii.eqb c a then b else c) l = l).
  { induction l as [|x l IHl]; intros Hno; [reflexivity|].
    cbn [map]. destruct (Ascii.eqb_spec x a) as [->|_].
    - exfalso. apply Hno. now left.
    - f_equal. apply IHl. intros H. apply Hno. now right. }
  destruct (Cut s [a]) as [[before after]|].
  + destruct Hc as [-> Hno]. rewrite map_app. cbn [map].
    rewrite Ascii.eqb_refl, (Hkeep _ Hno).
    rewrite IH; [reflexivity | | lia].
    rewrite length_app in Hlen. cbn [length] in Hlen. lia.
  + symmetry. now apply Hkeep.
Qed.

(** Replacing every occurrence of one byte by another byte is a byte-wise
    substitution. *)
Lemma ReplaceAll_byte (a b : ascii) (s : gostring) :
  a <> b ->
  ReplaceAll s [a] [b] = map (fun c => if Ascii.eqb c a then b else c) s.
Proof.
intros Hab. unfold ReplaceAll, Replace.
assert (E : streq [a] [b] = false).
{ apply streq_neq. intros E. injection E as E. now apply Hab. }
rewrite E. change (-1 =? 0) with false. cbn [orb].
apply replaceLoop_byte; [apply le_n | lia].
Qed.

End infix_facts.

(** ** The catalog client *)

Module catalog_facts.

Import jellyfin srt naming orchestration.

Section Client.

Context {W : Type} `{Env W}.

(** X5: the discovery makes one listing call.  A failure of the listing is
    passed on as it is.  Otherwise the answer holds exactly the listed items
    without a matching stream, it is no longer than the listing, and the
    filter applied to it again keeps all of it. *)
Theorem GetMediaWithoutChineseSubtitles_run (w : W) :
  (forall items w1,
      listItems w = (inl items, w1) ->
      exists needy,
        JellyfinClient.GetMediaWithoutChineseSubtitles w
        = (inl needy, w1, [EvListItems (inl items)])
        /\ (forall item,
               In item needy
               <-> In item items /\ hasChineseSubtitle item = false)
        /\ (length needy <= length items)%nat
        /\ filterItems needy = needy)
  /\ (forall err w1,
         listItems w = (inr err, w1) ->
         JellyfinClient.GetMediaWithoutChineseSubtitles w
         = (inr err, w1, [EvListItems (inr err)])).
Proof.
unfold JellyfinClient.GetMediaWithoutChineseSubtitles, bind, call, ret.
split.
- intros items w1 E. rewrite E. cbv beta iota.
  exists (filterItems items). split; [reflexivity|].
  rewrite discovery_facts.filterItems_filter.
  split; [|split].
  + intros item. rewrite filter_In, negb_true_iff. tauto.
  + apply filter_length_le.
  + rewrite discovery_facts.filterItems_filter.
    apply forallb_filter_id. apply forallb_forall.
    intros item Hin. now apply filter_In in Hin.
- intros err w1 E. rewrite E. reflexivity.
Qed.

(** X7: [GetVideoPath] makes one lookup and passes its failure on as it is;
    for an item that is found it answers with the path the orchestrator
    works with: the first media source, or the nominal path of an item
    without media source. *)
Theorem GetVideoPath_run (itemID : gostring) (w : W) :
  (forall item w1,
      GetItem itemID w = (inl item, w1) ->
      JellyfinClient.GetVideoPath itemID w
      = (inl (videoPathOf item), w1, [EvGetItem itemID (inl item)]))
  /\ (forall err w1,
         GetItem itemID w = (inr err, w1) ->
         JellyfinClient.GetVideoPath itemID w
         = (inr err, w1, [EvGetItem itemID (inr err)])).
Proof.
unfold JellyfinClient.GetVideoPath, bind, call, ret, videoPathOf.
split.
- intros item w1 E. rewrite E. cbv beta iota.
  now destruct (MediaSources item).
- intros err w1 E. rewrite E. reflexivity.
Qed.

End Client.

Lemma GetMediaWithoutChineseSubtitles_run_witness :
  (exists needy,
      JellyfinClient.GetMediaWithoutChineseSubtitles
        (H := shelf.env (inl shelf.catalog)) tt
      = (inl needy, tt, [EvListItems (inl shelf.catalog)])
      /\ (forall item,
             In item needy
             <-> In item shelf.catalog /\ hasChineseSubtitle item = false)
      /\ (length needy <= 3)%nat
      /\ filterItems needy = needy)
  /\ JellyfinClient.GetMediaWithoutChineseSubtitles
       (H := shelf.env (inr shelf.unreachable)) tt
     = (inr shelf.unreachable, tt, [EvListItems (inr shelf.unreachable)]).
Proof.
split.
- apply (proj1 (GetMediaWithoutChineseSubtitles_run
                  (H := shelf.env (inl shelf.catalog)) tt)).
  reflexivity.
- apply (proj2 (GetMediaWithoutChineseSubtitles_run
                  (H := shelf.env (inr shelf.unreachable)) tt)).
  reflexivity.
Defined.

Lemma GetVideoPath_run_witness :
  JellyfinClient.GetVideoPath (H := shelf.env (inl shelf.catalog)) (go "m7") tt
  = (inl (go "/data/media/Ran (1985)/Ran.mkv"), tt,
     [EvGetItem (go "m7") (inl shelf.dubbed)])
  /\ JellyfinClient.GetVideoPath (H := shelf.env (inl shelf.catalog))
       (go "nope") tt
     = (inr shelf.unknownItem, tt,
        [EvGetItem (go "nope") (inr shelf.unknownItem)]).
Proof.
split.
- apply (proj1 (GetVideoPath_run (H := shelf.env (inl shelf.catalog))
                  (go "m7") tt) shelf.dubbed tt).
  reflexivity.
- apply (proj2 (GetVideoPath_run (H := shelf.env (inl shelf.catalog))
                  (go "nope") tt) shelf.unknownItem tt).
  reflexivity.
Defined.

(** *** Queries of episodes *)

Lemma split_at (c : ascii) (a a' b b' : gostring) :
  ~ In c a -> ~ In c a' -> a ++ c :: b = a' ++ c :: b' -> a = a' /\ b = b'.
Proof.
revert a'. induction a as [|x a IH]; intros [|x' a'] Ha Ha' E;
  cbn [app] in E.
- injection E as E. now split.
- injection E as E1 E2. exfalso. apply Ha'. left. now symmetry.
- injection E as E1 E2. exfalso. apply Ha. now left.
- injection E as E1 E2. subst x'.
  destruct (IH a') as [E3 E4].
  + intros Hin. apply Ha. now right.
  + intros Hin. apply Ha'. now right.
  + exact E2.
  + now subst.
Qed.

Lemma numeralValue_zeros (k : nat) (ds : gostring) :
  numeralValue (repeat "0"%char k ++ ds) = numeralValue ds.
Proof.
unfold numeralValue. rewrite fold_left_app. f_equal.
induction k as [|k IH]; [reflexivity|]. cbn [repeat fold_left].
exact IH.
Qed.

(** [%02d]: a minus sign for a negative number, zeros up to the width, the
    digits. *)
Lemma d02_shape (n : Z) :
  exists k,
    fmt.d02 n
    = (if n <? 0 then ["-"%char] else []) ++ repeat "0"%char k
      ++ fmt.digits (Z.abs n).
Proof.
unfold fmt.d02, fmt.fmtInteger.
destruct (fmt_facts.digits_numeral (Z.abs n) (Z.abs_nonneg n)) as (Hne & _ & _).
assert (Hlen : (1 <= length (fmt.digits (Z.abs n)))%nat).
{ destruct (fmt.digits (Z.abs n)); [congruence | cbn [length]; lia]. }
destruct (n <? 0).
- exists (2 - 1 - length (fmt.digits (Z.abs n)))%nat.
  match goal with
  | |- repeat " "%char ?k ++ _ = _ => replace k with 0%nat
  end; [reflexivity|].
  cbn [length]. rewrite length_app, repeat_length. lia.
- exists (2 - length (fmt.digits (Z.abs n)))%nat.
  match goal with
  | |- repeat " "%char ?k ++ _ = _ => replace k with 0%nat
  end; [reflexivity|].
  rewrite length_app, repeat_length. lia.
Qed.

Lemma d02_bytes (n : Z) :
  Forall (fun c => digit c \/ c = "-"%char) (fmt.d02 n).
Proof.
destruct (d02_shape n) as [k ->].
destruct (fmt_facts.digits_numeral (Z.abs n) (Z.abs_nonneg n)) as (_ & Hds & _).
apply Forall_app. split.
- destruct (n <? 0); [constructor; [now right | constructor] | constructor].
- apply Forall_app. split.
  + apply Forall_forall. intros c Hc. apply repeat_spec in Hc. subst c.
    left. unfold digit. vm_compute. split; discriminate.
  + eapply Forall_impl; [|exact Hds]. now left.
Qed.

(** The number is read back from what [%02d] writes. *)
Lemma d02_signedValue (n : Z) : signedValue (fmt.d02 n) = n.
Proof.
destruct (d02_shape n) as [k E]. rewrite E.
destruct (fmt_facts.digits_numeral (Z.abs n) (Z.abs_nonneg n))
  as (Hne & Hds & Hval).
destruct (Z.ltb_spec n 0) as [Hneg|Hpos].
- cbn [app signedValue]. change (Ascii.eqb "-" "-") with true. cbv iota.
  rewrite numeralValue_zeros, Hval. lia.
- cbn [app].
  assert (Hd : Forall digit (repeat "0"%char k ++ fmt.digits (Z.abs n))).
  { apply Forall_app. split; [|exact Hds].
    apply Forall_forall. intros c Hc. apply repeat_spec in Hc. subst c.
    unfold digit. vm_compute. split; discriminate. }
  unfold signedValue.
  destruct (repeat "0"%char k ++ fmt.digits (Z.abs n)) as [|c r] eqn:Er.
  { destruct k; cbn [repeat app] in Er; [congruence | discriminate]. }
  inversion Hd as [|? ? Hc _]; subst.
  destruct (srt_facts.digit_not_sign c Hc) as [-> _].
  rewrite <- Er, numeralValue_zeros, Hval. lia.
Qed.

(** X6: two episodes of one series with different season or episode numbers
    have different search queries, whatever the numbers. *)
Theorem GetSearchQuery_tells_episodes_apart (a b : MediaItem) :
  Type_ a = go "Episode" -> Type_ b = go "Episode" ->
  SeriesName a <> [] -> SeriesName b = SeriesName a ->
  ParentIndexNumber a <> ParentIndexNumber b
  \/ IndexNumber a <> IndexNumber b ->
  GetSearchQuery a <> GetSearchQuery b.
Proof.
intros Ta Tb Hs Es Hdiff E. unfold GetSearchQuery in E.
rewrite Ta, Tb, Es in E. rewrite streq_refl in E.
rewrite (proj2 (streq_neq _ _) Hs) in E. cbn [negb] in E.
apply app_inv_head in E. apply (app_inv_head (go " S")) in E.
change (go "E") with ["E"%char] in E. cbn [app] in E.
assert (HnoE : forall n, ~ In "E"%char (fmt.d02 n)).
{ intros n Hin. pose proof (d02_bytes n) as Hb.
  rewrite Forall_forall in Hb. destruct (Hb _ Hin) as [Hd|Hd].
  - vm_compute in Hd. destruct Hd as [_ Hd]. now apply Hd.
  - discriminate Hd. }
apply split_at in E as [E1 E2]; [|apply HnoE..].
apply (f_equal signedValue) in E1, E2.
rewrite !d02_signedValue in E1, E2.
destruct Hdiff as [Hd|Hd]; now apply Hd.
Qed.

Lemma GetSearchQuery_tells_episodes_apart_witness :
  GetSearchQuery query.ep42 <> GetSearchQuery later.
Proof.
apply GetSearchQuery_tells_episodes_apart;
  [reflexivity | reflexivity | discriminate | reflexivity
  | left; discriminate].
Defined.

End catalog_facts.

(** ** The provider client *)

Module provider_facts.

Import searchresponse moviename.

Lemma subtitlesOf_acc (data : list Item) (acc : list opensubtitles.Subtitle) :
  fold_left (fun subtitles item => subtitles ++ [subtitleOf item]) data acc
  = acc ++ map subtitleOf data.
Proof.
revert acc. induction data as [|item rest IH]; intros acc; cbn [fold_left map].
- now rewrite app_nil_r.
- rewrite IH, <- app_assoc. reflexivity.
Qed.

(** X8: the search answer is converted item by item, in order: as many
    subtitles as items; the subtitle at a position has the subtitle
    identifier, the language and the URL of the item at that position, the
    identifier and the name of its first file, 0 and the empty name when it
    lists no file, and never a movie hash or size, whatever the item
    carries. *)
Theorem subtitlesOf_pointwise (data : list Item) :
  length (subtitlesOf data) = length data
  /\ forall i item,
      nth_error data i = Some item ->
      exists sub,
        nth_error (subtitlesOf data) i = Some sub
        /\ opensubtitles.ID sub = SubtitleID (Attrs item)
        /\ opensubtitles.Language sub = Language (Attrs item)
        /\ opensubtitles.URL sub = URL (Attrs item)
        /\ opensubtitles.MovieHash sub = []
        /\ opensubtitles.MovieBytes sub = 0
        /\ (opensubtitles.FileID sub, opensubtitles.FileName sub)
           = match Files (Attrs item) with
             | file :: _ => (FileID file, FileName file)
             | [] => (0, [])
             end.
Proof.
unfold subtitlesOf. rewrite subtitlesOf_acc. cbn [app].
split; [apply length_map|].
intros i item Hi. exists (subtitleOf item).
split; [now apply map_nth_error|].
unfold subtitleOf. destruct (Files (Attrs item)); cbn; repeat split.
Qed.

Lemma subtitlesOf_pointwise_witness :
  exists sub,
    nth_error (subtitlesOf answer) 0 = Some sub
    /\ opensubtitles.ID sub = go "sub-zh-1"
    /\ opensubtitles.Language sub = go "zh-TW"
    /\ opensubtitles.URL sub = go "https://example.org/1"
    /\ opensubtitles.MovieHash sub = []
    /\ opensubtitles.MovieBytes sub = 0
    /\ (opensubtitles.FileID sub, opensubtitles.FileName sub)
       = (202, go "Foo.S02E05.zh.srt").
Proof.
apply (proj2 (subtitlesOf_pointwise answer) 0%nat
         (mkItem (go "9000") (go "subtitle")
            (mkAttributes (go "sub-zh-1") (go "zh-TW")
               (go "https://example.org/1")
               [mkFile 202 (go "Foo.S02E05.zh.srt");
                mkFile 203 (go "Foo.S02E05.cd2.srt")]
               (go "abcdef") (go "Foo.S02E05.WEB")))).
reflexivity.
Defined.

(** X9: the movie name extracted from a path holds neither a dot nor an
    underscore. *)
Theorem extractMovieName_plain (videoPath : gostring) :
  ~ In "."%char (extractMovieName videoPath)
  /\ ~ In "_"%char (extractMovieName videoPath).
Proof.
unfold extractMovieName. cbv zeta.
set (name := strings.TrimSuffix _ _).
change (go ".") with ["."%char]. change (go "_") with ["_"%char].
change (go " ") with [" "%char].
rewrite !infix_facts.ReplaceAll_byte by discriminate.
assert (H : Forall (fun c => c <> "."%char /\ c <> "_"%char)
              (strings.TrimSpace
                 (map (fun c => if Ascii.eqb c "_" then " "%char else c)
                    (map (fun c => if Ascii.eqb c "." then " "%char else c)
                       name)))).
{ apply infix_facts.TrimSpace_Forall.
  apply Forall_forall. intros c Hc.
  apply in_map_iff in Hc as (c1 & <- & Hc).
  apply in_map_iff in Hc as (c0 & <- & _).
  destruct (Ascii.eqb_spec c0 "."); [split; discriminate|].
  destruct (Ascii.eqb_spec c0 "_"); [split; discriminate|].
  now split. }
rewrite Forall_forall in H.
split; intros Hin; apply H in Hin; destruct Hin as [H1 H2]; congruence.
Qed.

(** A release name with dots and underscores. *)
Example extractMovieName_release :
  extractMovieName (go "/data/media/The.Matrix_1999.mkv")
  = go "The Matrix 1999".
Proof. vm_compute. reflexivity. Qed.

End provider_facts.

(** ** The cost of translating *)

Module cost_facts.

Import subtitle adapter calls cost.

Lemma translateCalls_app (t1 t2 : list Event) :
  translateCalls (t1 ++ t2) = (translateCalls t1 + translateCalls t2)%nat.
Proof.
induction t1 as [|ev t1 IH]; [reflexivity|].
destruct ev; cbn [app translateCalls]; rewrite IH; reflexivity.
Qed.

Lemma sleepTotal_app (t1 t2 : list Event) :
  sleepTotal (t1 ++ t2) = sleepTotal t1 + sleepTotal t2.
Proof.
induction t1 as [|ev t1 IH]; [reflexivity|].
destruct ev; cbn [app sleepTotal]; rewrite IH; lia.
Qed.

Lemma attemptEvents_cost (text : gostring) (n : Z) (r : result gostring) :
  1 <= n ->
  translateCalls (attemptEvents text n r) = 1%nat
  /\ sleepTotal (attemptEvents text n r) = (n - 1) * Second
  /\ Forall (adapterCall [text]) (attemptEvents text n r).
Proof.
intros Hn. unfold attemptEvents.
destruct (Z.gtb_spec n 1) as [Hgt|Hle]; cbn [app translateCalls sleepTotal].
- split; [reflexivity|]. split; [lia|].
  repeat constructor.
- replace n with 1 by lia.
  split; [reflexivity|]. split; [reflexivity|].
  repeat constructor.
Qed.

(** The cost of consecutive attempts. *)
Lemma retryTrace_cost (text : gostring) (rs : list (result gostring)) :
  forall n, 1 <= n ->
  translateCalls (retryTrace text n rs) = length rs
  /\ 2 * sleepTotal (retryTrace text n rs)
     = Second * Z.of_nat (length rs)
       * (2 * (n - 1) + Z.of_nat (length rs) - 1)
  /\ Forall (adapterCall [text]) (retryTrace text n rs).
Proof.
induction rs as [|r rs IH]; intros n Hn.
- cbn [retryTrace translateCalls sleepTotal length]. repeat split; try lia.
  constructor.
- cbn [retryTrace]. rewrite translateCalls_app, sleepTotal_app.
  destruct (attemptEvents_cost text n r Hn) as (-> & -> & Ha).
  destruct (IH (n + 1) ltac:(lia)) as (-> & Hs & Hf).
  split; [reflexivity|]. split.
  + cbn [length]. rewrite Nat2Z.inj_succ. nia.
  + apply Forall_app. now split.
Qed.

(** The last call of a series of attempts is the translation call of the
    last attempt. *)
Lemma retryTrace_last (text : gostring) (rs : list (result gostring))
    (r : result gostring) :
  forall n, exists before,
    retryTrace text n (rs ++ [r]) = before ++ [EvTranslate text r].
Proof.
induction rs as [|r0 rs IH]; intros n.
- cbn [app retryTrace]. unfold attemptEvents. rewrite app_nil_r. now eexists.
- cbn [app retryTrace]. destruct (IH (n + 1)) as [before ->].
  eexists. now rewrite app_assoc.
Qed.

Lemma last_cons (A : Type) (l : list A) :
  forall x d, last (x :: l) d = last l x.
Proof.
induction l as [|y l IH]; intros x d; [reflexivity|].
change (last (x :: y :: l) d) with (last (y :: l) d).
now rewrite !IH.
Qed.

Section Adapter.

Context {W : Type} `{Env W} `{Translator W}.

(** A run of the loop for any number of rounds: failed attempts, then a
    success before the rounds are used up, or the error that names the last
    failure. *)
Lemma retryLoop_outcome (rounds : nat) :
  forall (attempt : Z) (lastErr : option error) (text : gostring)
         (maxRetries : Z) (w : W),
  let '(res, _, t) := retryLoop rounds attempt lastErr text maxRetries w in
  exists errs,
    match res with
    | inl x =>
      (length errs < rounds)%nat
      /\ t = retryTrace text attempt (failures errs ++ [inl x])
    | inr e =>
      length errs = rounds
      /\ t = retryTrace text attempt (failures errs)
      /\ e = gaveUp maxRetries (last (map Some errs) lastErr)
    end.
Proof.
induction rounds as [|rounds IH]; intros attempt lastErr text maxRetries w.
- cbn [retryLoop]. unfold ret. exists []. now repeat split.
- cbn [retryLoop]. unfold bind at 1.
  assert (Hwait : exists w0,
    (if attempt >? 1
     then call (timeSleep ((attempt - 1) * Second))
               (fun _ => EvSleep ((attempt - 1) * Second))
     else ret tt) w
    = (tt, w0,
       if attempt >? 1 then [EvSleep ((attempt - 1) * Second)] else [])).
  { destruct (attempt >? 1); unfold call, ret.
    - destruct (timeSleep ((attempt - 1) * Second) w) as [[] w0].
      now exists w0.
    - now exists w. }
  destruct Hwait as [w0 ->]. unfold bind at 1. unfold call at 1.
  destruct (TranslateToChineseTraditional text w0) as [[x|e] w1].
  + unfold ret. exists []. split; [cbn [length]; lia|].
    cbn [failures map app retryTrace].
    unfold attemptEvents. now rewrite !app_nil_r.
  + specialize (IH (attempt + 1) (Some e) text maxRetries w1).
    destruct (retryLoop rounds (attempt + 1) (Some e) text maxRetries w1)
      as [[[x|e'] w2] t2]; destruct IH as (errs & IH); exists (e :: errs).
    * destruct IH as (Hlen & ->). split; [cbn [length]; lia|].
      cbn [failures map app retryTrace].
      unfold attemptEvents. now rewrite <- !app_assoc.
    * destruct IH as (Hlen & -> & ->). split; [cbn [length]; lia|].
      split.
      -- cbn [failures map retryTrace].
         unfold attemptEvents. now rewrite <- !app_assoc.
      -- f_equal. cbn [map]. symmetry. apply last_cons.
Qed.

(** X10: the retry loop for any ceiling whose waits fit in a duration.
    Every call of the run is a call of the translator or of [time.Sleep] on
    the world the call before it left, and the world that is returned is the
    world after the last call.  The loop calls the translator at most
    [maxRetries] times, and not at all for a ceiling of zero or less, where
    the world is returned as it was; after [k] calls it has slept
    [k (k - 1) / 2] seconds in all; a success is the answer of the
    translator at the last call; an error comes after exactly [maxRetries]
    calls and names the ceiling and the failure the translator answered at
    the last call, written [%!w(<nil>)] when no call was made. *)
Theorem translateWithRetry_ceiling (text : gostring) (maxRetries : Z) (w : W) :
  maxRetries * Second < 2 ^ 63 ->
  let '(res, w', t) := translateWithRetry text maxRetries w in
  let calls := Z.of_nat (translateCalls t) in
  performed w t w'
  /\ calls <= Z.max 0 maxRetries
  /\ 2 * sleepTotal t = Second * calls * (calls - 1)
  /\ Forall (adapterCall [text]) t
  /\ match res with
     | inl x =>
       exists before wa,
         t = before ++ [EvTranslate text (inl x)]
         /\ performed w before wa
         /\ TranslateToChineseTraditional text wa = (inl x, w')
     | inr e =>
       calls = Z.max 0 maxRetries
       /\ exists lastErr,
           e = gaveUp maxRetries lastErr
           /\ (maxRetries <= 0 -> lastErr = None /\ t = [] /\ w' = w)
           /\ (0 < maxRetries ->
               exists cause before wa,
                 lastErr = Some cause
                 /\ t = before ++ [EvTranslate text (inr cause)]
                 /\ performed w before wa
                 /\ TranslateToChineseTraditional text wa = (inr cause, w'))
     end.
Proof.
intros _. unfold translateWithRetry.
pose proof (retryLoop_outcome (Z.to_nat maxRetries) 1 None text maxRetries w)
  as Hrun.
pose proof (adapter_facts.retryLoop_performed
              (Z.to_nat maxRetries) 1 None text maxRetries w) as Hp.
destruct (retryLoop (Z.to_nat maxRetries) 1 None text maxRetries w)
  as [[res w1] t].
destruct Hrun as (errs & Hrun). cbv zeta.
split; [exact Hp|].
destruct res as [x|e].
- destruct Hrun as (Hlen & ->).
  destruct (retryTrace_cost text (failures errs ++ [inl x]) 1 ltac:(lia))
    as (-> & Hs & Hf).
  split; [|split; [|split]].
  + rewrite length_app. unfold failures. rewrite length_map. cbn [length]. lia.
  + rewrite Hs. ring.
  + exact Hf.
  + destruct (retryTrace_last text (failures errs) (inl x) 1) as [before E].
    pose proof (eq_ind _ (fun t => performed w t w1) Hp _ E) as Hq.
    cbv beta in Hq.
    apply adapter_facts.performed_last in Hq as (wa & Ha & Et).
    exists before, wa. split; [exact E|]. split; [exact Ha | exact Et].
- destruct Hrun as (Hlen & -> & ->).
  destruct (retryTrace_cost text (failures errs) 1 ltac:(lia))
    as (-> & Hs & Hf).
  assert (El : Z.of_nat (length (failures errs)) = Z.max 0 maxRetries).
  { unfold failures. rewrite length_map, Hlen. lia. }
  split; [lia|]. split; [rewrite Hs; ring|]. split; [exact Hf|].
  split; [exact El|].
  eexists. split; [reflexivity|]. split.
  + intros Hle. assert (errs = []) as ->.
    { destruct errs; [reflexivity | cbn [length] in Hlen; lia]. }
    cbn [failures map retryTrace] in Hp. inversion Hp; subst.
    split; [reflexivity|]. split; reflexivity.
  + intros Hpos.
    destruct (exists_last (l := errs)) as (front & cause & ->).
    { intros ->. cbn [length] in Hlen. lia. }
    exists cause. rewrite map_app. cbn [map]. rewrite last_last.
    unfold failures. rewrite map_app. cbn [map].
    unfold failures in Hp. rewrite map_app in Hp. cbn [map] in Hp.
    destruct (retryTrace_last text (map (fun e => inr e) front) (inr cause) 1)
      as [before E].
    pose proof (eq_ind _ (fun t => performed w t w1) Hp _ E) as Hq.
    cbv beta in Hq.
    apply adapter_facts.performed_last in Hq as (wa & Ha & Et).
    exists before, wa. split; [reflexivity|]. split; [exact E|].
    split; [exact Ha | exact Et].
Qed.

Lemma entryRun_cost (e o : SubtitleEntry) (t : list Event) :
  entryRun e o t ->
  (1 <= translateCalls t <= 3)%nat
  /\ 0 <= sleepTotal t <= 3 * Second
  /\ Forall (adapterCall [Text e]) t
  /\ (Text o = Text e \/ exists before, t = before ++ [EvTranslate (Text e) (inl (Text o))]).
Proof.
assert (HS : Second = 1000000000) by reflexivity.
destruct 1 as [errs x Hlen|e1 e2 e3].
- destruct (retryTrace_cost (Text e) (failures errs ++ [inl x]) 1 ltac:(lia))
    as (Hc & Hs & Hf).
  assert (El : length (failures errs ++ [inl x]) = S (length errs)).
  { rewrite length_app. unfold failures. rewrite length_map.
    cbn [length]. lia. }
  rewrite El in Hc, Hs.
  split; [lia|]. split; [|split; [exact Hf|]].
  + destruct errs as [|a [|b [|c errs]]]; cbn [length] in Hs, Hlen; lia.
  + right. cbn [Text]. apply retryTrace_last.
- destruct (retryTrace_cost (Text e) (failures [e1; e2; e3]) 1 ltac:(lia))
    as (Hc & Hs & Hf).
  change (length (failures [e1; e2; e3])) with 3%nat in Hc, Hs.
  split; [lia|]. split; [lia|]. split; [exact Hf|]. now left.
Qed.

Lemma batchRun_cost (es os : list SubtitleEntry) (t : list Event) :
  batchRun es os t ->
  (length es <= translateCalls t <= 3 * length es)%nat
  /\ 0 <= sleepTotal t <= 3 * Second * Z.of_nat (length es)
  /\ Forall (adapterCall (map Text es)) t.
Proof.
induction 1 as [|e o t es os ts He Hb IH].
- cbn. repeat split; try lia. constructor.
- destruct (entryRun_cost _ _ _ He) as (Hc & Hs & Hf & _).
  destruct IH as (IHc & IHs & IHf).
  rewrite translateCalls_app, sleepTotal_app. cbn [length map].
  split; [lia|]. split; [lia|].
  apply Forall_app. split.
  + eapply Forall_impl; [|exact Hf]. intros [] Ha; cbn in *; tauto.
  + eapply Forall_impl; [|exact IHf]. intros [] Ha; cbn in *; tauto.
Qed.

(** The first call of the run of an entry sends the text of the entry. *)
Lemma entryRun_first (e o : SubtitleEntry) (t : list Event) :
  entryRun e o t ->
  exists r rest, t = EvTranslate (Text e) r :: rest.
Proof.
destruct 1 as [errs x Hlen|e1 e2 e3].
- destruct errs as [|a errs].
  + exists (inl x), []. reflexivity.
  + exists (inr a). eexists. reflexivity.
- exists (inr e1). eexists. reflexivity.
Qed.

(** X11: translating [n] entries calls the translator at least [n] and at
    most [3 n] times, sleeps at most [3 n] seconds in all, and does nothing
    else.  Every call of the run is a call of [time.Sleep] or a call of the
    translator with the text of one of the entries, made on the world the
    call before it left, and the world that is returned is the world after
    the last call; the text of every entry, an empty text too, is sent to
    the translator at least once. *)
Theorem TranslateEntries_cost (entries : list SubtitleEntry) (w : W) :
  let '(_, w', t) := TranslateEntries entries w in
  performed w t w'
  /\ (length entries <= translateCalls t <= 3 * length entries)%nat
  /\ 0 <= sleepTotal t <= 3 * Second * Z.of_nat (length entries)
  /\ Forall (adapterCall (map Text entries)) t
  /\ (forall e, In e entries ->
        exists before r wa wb after,
          t = before ++ EvTranslate (Text e) r :: after
          /\ performed w before wa
          /\ TranslateToChineseTraditional (Text e) wa = (r, wb)
          /\ performed wb after w').
Proof.
unfold TranslateEntries, bind, ret.
pose proof (adapter_facts.translateLoop_runAt entries [] w) as Hrun.
destruct (translateLoop entries [] w) as [[out w1] t1].
destruct Hrun as (os & _ & Hos). rewrite app_nil_r.
split; [now apply adapter_facts.batchRunAt_performed with entries os|].
destruct (batchRun_cost entries os t1) as (Hc & Hs & Hf).
{ now apply adapter_facts.batchRunAt_batchRun with w w1. }
split; [exact Hc|]. split; [exact Hs|]. split; [exact Hf|].
intros e He. apply In_nth_error in He as [i Hi].
destruct (adapter_facts.batchRunAt_nth _ _ _ _ _ Hos i e Hi)
  as (o & before & ti & after & wi & wi' & _ & -> & Hpb & [Hr Hpi] & Hpa).
destruct (entryRun_first _ _ _ Hr) as (r & rest & ->).
inversion Hpi as [| |? ? ? wb ? ? Et Hrest]; subst.
exists before, r, wi, wb, (rest ++ after).
split; [reflexivity|]. split; [exact Hpb|]. split; [exact Et|].
now apply adapter_facts.performed_app with wi'.
Qed.

End Adapter.

Lemma translateWithRetry_ceiling_witness :
  (let '(res, _, t) :=
     translateWithRetry (H := scenario.env scenario.fallbackOnly)
                        (H0 := scenario.translator scenario.fallbackOnly)
                        (go "Bye") 0 0%nat in
   res = inr (mkError (go "translation failed after 0 attempts: %!w(<nil>)")
                      false)
   /\ t = [])
  /\ (let '(res, _, t) :=
        translateWithRetry (H := scenario.env scenario.fallbackOnly)
                           (H0 := scenario.translator scenario.fallbackOnly)
                           (go "Bye") 5 0%nat in
      Z.of_nat (translateCalls t) = 5 /\ sleepTotal t = 10 * Second).
Proof.
split.
- pose proof (translateWithRetry_ceiling
                (H := scenario.env scenario.fallbackOnly)
                (H0 := scenario.translator scenario.fallbackOnly)
                (go "Bye") 0 0%nat eq_refl) as T.
  destruct (translateWithRetry (go "Bye") 0 0%nat) as [[res w1] t].
  cbv zeta in T. destruct T as (_ & Hc & _ & _ & T).
  destruct res as [x|e].
  + destruct T as (before & wa & -> & _). rewrite translateCalls_app in Hc.
    cbn [translateCalls] in Hc. change (Z.max 0 0) with 0 in Hc. lia.
  + destruct T as (_ & lastErr & -> & T & _).
    destruct (T ltac:(lia)) as (-> & -> & _). split; reflexivity.
- pose proof (translateWithRetry_ceiling
                (H := scenario.env scenario.fallbackOnly)
                (H0 := scenario.translator scenario.fallbackOnly)
                (go "Bye") 5 0%nat eq_refl) as T.
  destruct (translateWithRetry (go "Bye") 5 0%nat) as [[res w1] t] eqn:E.
  cbv zeta in T. destruct T as (_ & _ & Hs & _ & T).
  vm_compute in E. injection E as <- <- <-.
  destruct T as (Hc & _). split; [exact Hc|].
  rewrite Hc in Hs. change (Z.max 0 5) with 5 in Hs. lia.
Defined.

End cost_facts.

(** ** Saving a subtitle *)

Module saving_facts.

Import subtitle handlers placement orchestration saving.

Lemma forallb_none (p q : Event -> bool) (t : list Event) :
  (forall ev, p ev = true -> q ev = false) ->
  forallb p t = true -> existsb q t = false.
Proof.
intros Hpq. induction t as [|ev t IH]; [reflexivity|].
cbn [forallb existsb]. intros Hp. apply andb_true_iff in Hp as [Hev Ht].
now rewrite (Hpq ev Hev), IH.
Qed.

Lemma forallb_weaken (p q : Event -> bool) (t : list Event) :
  (forall ev, p ev = true -> q ev = true) ->
  forallb p t = true -> forallb q t = true.
Proof.
intros Hpq. induction t as [|ev t IH]; [reflexivity|].
cbn [forallb]. intros Hp. apply andb_true_iff in Hp as [Hev Ht].
now rewrite (Hpq ev Hev), IH.
Qed.

Section Saving.

Context {W : Type} `{Env W} `{Translator W}.

Variable c : config.Config.

(** The probe makes file-system calls only. *)
Lemma canWriteToDirectory_probe (dirPath : gostring) (w : W) :
  let '(_, _, t) := canWriteToDirectory dirPath w in
  forallb fsProbe t = true.
Proof.
pose proof (placement_facts.canWriteToDirectory_runs dirPath w) as Hruns.
destruct (canWriteToDirectory dirPath w) as [[ok w1] t].
destruct Hruns as [[_ (sr & rr & [[_ ->]|[_ ->]])]
                  |[_ (sr & e & [[_ ->]|[[_ ->]|[_ ->]]])]];
  reflexivity.
Qed.


(** The place [generateSubtitlePath] returns is one of the two targets, and
    on its way it makes file-system calls only. *)
Lemma generateSubtitlePath_target (videoPath language : gostring) (w : W) :
  let '(place, _, t) := generateSubtitlePath c videoPath language w in
  target c videoPath language place /\ forallb fsProbe t = true.
Proof.
pose proof (canWriteToDirectory_probe (mappedMediaDir c videoPath) w) as Hp.
unfold generateSubtitlePath, bind, call, ret, target, mediaTarget,
  stagingTarget.
fold (subtitleFileName videoPath language). fold (mappedMediaDir c videoPath).
destruct (config.EnableDirectSave c); cbv beta iota.
- destruct (canWriteToDirectory (mappedMediaDir c videoPath) w)
    as [[ok w1] t1].
  destruct ok; cbv beta iota.
  + split; [left; now split|]. now rewrite app_nil_r.
  + destruct (osMkdirAll (config.SubtitleDirectory c) perm0755 w1) as [r w2].
    cbv beta iota. split; [now right|].
    rewrite forallb_app, Hp. reflexivity.
- destruct (osMkdirAll (config.SubtitleDirectory c) perm0755 w) as [r w2].
  cbv beta iota. split; [now right | reflexivity].
Qed.


(** The steps of saving a subtitle as it is, and when it succeeds. *)
Lemma downloadAndSaveSubtitle_steps
    (sub : opensubtitles.Subtitle) (videoPath language : gostring) (w : W) :
  let '(res, _, t) := downloadAndSaveSubtitle c sub videoPath language w in
  forallb directStep t = true
  /\ existsb isWritten t = match res with inl _ => true | inr _ => false end.
Proof.
unfold downloadAndSaveSubtitle.
unfold bind at 1. unfold call at 1.
destruct (DownloadSubtitle sub w) as [[content|e] w1]; cbv beta iota.
- unfold bind at 1.
  pose proof (generateSubtitlePath_target videoPath language w1) as Hg.
  destruct (generateSubtitlePath c videoPath language w1)
    as [[[path class] w2] probe].
  destruct Hg as [_ Hp]. unfold bind, call, ret.
  assert (Hd : forallb directStep probe = true).
  { revert Hp. apply forallb_weaken. intros ev Hev. unfold directStep.
    rewrite Hev. now rewrite orb_true_r. }
  assert (Hw : existsb isWritten probe = false).
  { revert Hp. apply forallb_none. now intros []. }
  destruct (osWriteFile path content perm0644 w2) as [[e|] w3];
    cbv beta iota; cbn [app forallb existsb directStep isDownload isWritten orb andb];
    rewrite !forallb_app, !existsb_app, Hd, Hw; split; reflexivity.
- unfold ret. cbv beta iota. split; reflexivity.
Qed.


(** The steps of saving a translated subtitle, and when it succeeds. *)
Lemma translateAndSaveSubtitle_steps
    (sub : opensubtitles.Subtitle) (videoPath : gostring) (w : W) :
  let '(res, _, t) := translateAndSaveSubtitle c sub videoPath w in
  forallb fallbackStep t = true
  /\ existsb isWritten t = match res with inl _ => true | inr _ => false end.
Proof.
unfold translateAndSaveSubtitle.
unfold bind at 1. unfold call at 1.
destruct (DownloadSubtitle sub w) as [[content|e] w1]; cbv beta iota.
- rewrite !srt_facts.Parse_kept. cbv beta iota.
  set (entries := flat_map srt.kept (srt.blocksOf content)).
  unfold bind at 1.
  pose proof (cost_facts.batchRun_cost entries) as Hcost.
  pose proof (adapter_facts.translateLoop_run entries [] w1) as Hrun.
  unfold TranslateEntries at 1. unfold bind at 1.
  destruct (translateLoop entries [] w1) as [[out w2] tE].
  destruct Hrun as (os & _ & Hos).
  destruct (Hcost os tE Hos) as (_ & _ & Hf).
  unfold ret at 1. cbv beta iota. unfold bind at 1.
  pose proof (generateSubtitlePath_target videoPath (go "zh-Hant") w2) as Hg.
  destruct (generateSubtitlePath c videoPath (go "zh-Hant") w2)
    as [[[path class] w3] probe].
  destruct Hg as [_ Hp]. unfold bind, call, ret.
  assert (Hd : forallb fallbackStep probe = true).
  { revert Hp. apply forallb_weaken. intros ev Hev.
    unfold fallbackStep, directStep.
    rewrite Hev. now rewrite orb_true_r. }
  assert (Hw : existsb isWritten probe = false).
  { revert Hp. apply forallb_none. now intros []. }
  assert (Ha : forallb fallbackStep tE = true
               /\ existsb isWritten tE = false).
  { clear -Hf. induction Hf as [|ev t Hev _ [IH1 IH2]]; [now split|].
    destruct ev; cbn in Hev; try contradiction;
      cbn [forallb existsb]; rewrite IH1, IH2; now split. }
  destruct Ha as [Ha1 Ha2].
  destruct (osWriteFile path (Format out) perm0644 w3) as [[e|] w4];
    cbv beta iota;
    cbn [app forallb existsb fallbackStep directStep isDownload isWritten
         orb andb];
    rewrite ?app_nil_r, !forallb_app, !existsb_app, Ha1, Ha2, Hd, Hw;
    split; reflexivity.
- unfold ret. cbv beta iota. split; reflexivity.
Qed.

(** X15: the guards of the handler.  A request that is not a POST is
    answered 405 and a request without item identifier 400, both without
    any call; the identifier is the path without its prefix [/process/].
    When the catalog fails to return the item the answer is 500 with the
    error of the catalog, and the lookup is the only call. *)
Theorem ProcessHandler_guards (r : Request) (w : W) :
  (Method r <> go "POST" ->
   ProcessHandler c r w
   = (httpError (go "Method not allowed") StatusMethodNotAllowed, w, []))
  /\ (Method r = go "POST" -> itemIDOf r = [] ->
      ProcessHandler c r w
      = (httpError (go "Item ID required") StatusBadRequest, w, []))
  /\ (Method r = go "POST" -> itemIDOf r <> [] ->
      forall err w1,
        GetItem (itemIDOf r) w = (inr err, w1) ->
        ProcessHandler c r w
        = (httpError (go "Failed to get item details: " ++ errMsg err)
                     StatusInternalServerError,
           w1, [EvGetItem (itemIDOf r) (inr err)])).
Proof.
unfold ProcessHandler. fold (itemIDOf r). split; [|split].
- intros HM. now rewrite (proj2 (streq_neq _ _) HM).
- intros HM Hid. now rewrite HM, Hid.
- intros HM Hid err w1 HG. rewrite HM, streq_refl. cbn [negb].
  rewrite (proj2 (streq_neq _ _) Hid).
  unfold bind, call, ret. rewrite HG. reflexivity.
Qed.



End Saving.



(** A GET request, a request without identifier, and a request for an item
    the catalog does not know. *)
Lemma ProcessHandler_guards_witness :
  ProcessHandler (H := scenario.env scenario.fallbackOnly)
                 (H0 := scenario.translator scenario.fallbackOnly)
                 query.mapped getEp42 0%nat
  = (httpError (go "Method not allowed") StatusMethodNotAllowed, 0%nat, [])
  /\ ProcessHandler (H := scenario.env scenario.fallbackOnly)
                    (H0 := scenario.translator scenario.fallbackOnly)
                    query.mapped processNothing 0%nat
     = (httpError (go "Item ID required") StatusBadRequest, 0%nat, [])
  /\ ProcessHandler (H := scenario.env unknown)
                    (H0 := scenario.translator unknown)
                    query.mapped processEp42 0%nat
     = (httpError (go "Failed to get item details: API error (status 404): ")
                  StatusInternalServerError,
        0%nat, [EvGetItem (go "ep42") (inr shelf.unknownItem)]).
Proof.
split; [|split].
- apply ProcessHandler_guards. discriminate.
- apply ProcessHandler_guards; reflexivity.
- apply (proj2 (proj2 (ProcessHandler_guards (H := scenario.env unknown)
                         (H0 := scenario.translator unknown)
                         query.mapped processEp42 0%nat))
           eq_refl ltac:(discriminate) shelf.unknownItem 0%nat eq_refl).
Defined.


(** The run of a direct hit. *)
Example ProcessHandler_direct_run :
  ProcessHandler (H := scenario.env directHit)
                 (H0 := scenario.translator directHit)
                 query.mapped processEp42 0%nat
  = (mkResponse StatusOK
       (go "Subtitle processed successfully and saved to media directory (Jellyfin will detect automatically)"),
     0%nat,
     [EvGetItem (go "ep42") (inl query.ep42);
      EvSearchSubtitles (go "Foo S02E05") [] (go "zh-TW")
                        (inl [scenario.chinese]);
      EvDownloadSubtitle scenario.chinese (inl scenario.twoCues);
      EvStat (go "/media/Foo") None;
      EvCreate (go "/media/Foo/.subtitle-hunter-write-test") None;
      EvClose (go "/media/Foo/.subtitle-hunter-write-test");
      EvRemove (go "/media/Foo/.subtitle-hunter-write-test") None;
      EvWriteFile (go "/media/Foo/S02E05.zh-Hant.srt") scenario.twoCues
                  perm0644 None;
      EvRefreshMetadata (go "ep42") None]).
Proof. vm_compute. reflexivity. Qed.

(** With nothing writable the save fails, the answer is 500 and the catalog
    is not asked to refresh. *)
Example ProcessHandler_read_only :
  let '(resp, _, t) :=
    ProcessHandler (H := scenario.env readOnly)
                   (H0 := scenario.translator readOnly)
                   query.mapped processEp42 0%nat in
  StatusCode resp = StatusInternalServerError
  /\ existsb isRefresh t = false
  /\ last t (EvClose [])
     = EvWriteFile (go "downloads/S02E05.zh-Hant.srt") scenario.twoCues
                   perm0644 (Some scenario.denied).
Proof. vm_compute. repeat split. Qed.

End saving_facts.

(** ** The codec: line ends, composition and the way back *)

Module codec_facts.

Import subtitle srt documents.

Lemma lineEnds_no_CR (content doc : gostring) :
  lineEnds content doc -> ~ In CR doc.
Proof.
induction 1 as [|c s d Hc _ IH|s d _ IH]; cbn [In].
- tauto.
- intros [E|Hin]; [now apply Hc | now apply IH].
- intros [E|Hin]; [discriminate E | now apply IH].
Qed.

Lemma lineEnds_refl (doc : gostring) : ~ In CR doc -> lineEnds doc doc.
Proof.
induction doc as [|c doc IH]; intros Hno; [constructor|].
constructor.
- intros ->. apply Hno. now left.
- apply IH. intros Hin. apply Hno. now right.
Qed.

(** X18: line ends written CRLF instead of LF make no difference to what
    [Parse] returns. *)
Theorem Parse_line_ends (content doc : gostring) :
  lineEnds content doc -> Parse content = Parse doc.
Proof.
intros Hends. rewrite !srt_facts.Parse_kept. unfold blocksOf.
rewrite (srt_facts.ReplaceAll_lineEnds _ _ Hends).
rewrite (srt_facts.ReplaceAll_lineEnds doc doc); [reflexivity|].
apply lineEnds_refl. now apply lineEnds_no_CR with content.
Qed.

Lemma Parse_line_ends_witness : Parse scenario.twoCues = Parse twoCuesLF.
Proof.
apply Parse_line_ends. vm_compute.
repeat first [ apply lineEnds_nil
             | apply lineEnds_crlf
             | apply lineEnds_byte; [discriminate|] ].
Defined.

(** *** Composition *)

Lemma written_app (a b : list SubtitleEntry) :
  a <> [] -> b <> [] -> written (a ++ b) = written a ++ [LF] ++ written b.
Proof.
induction a as [|e a IH]; intros Ha Hb; [congruence|].
destruct a as [|e' a].
- destruct b as [|e' b]; [congruence|]. cbn [app].
  rewrite srt_facts.written_cons. unfold written at 2.
  cbn [map strings.Join]. reflexivity.
- change ((e :: e' :: a) ++ b) with (e :: e' :: (a ++ b)).
  rewrite !srt_facts.written_cons.
  change (e' :: a ++ b) with ((e' :: a) ++ b).
  rewrite IH by (discriminate || assumption).
  now rewrite <- !app_assoc.
Qed.

(** X20: formatting is compositional.  Nothing is written for no entry; an
    entry is written as its index, its timing line and its text, each
    followed by a line end; the format of two non-empty lists one after the
    other is their formats with one line end between them. *)
Theorem Format_app (a b : list SubtitleEntry) :
  Format [] = []
  /\ (forall e,
         Format [e]
         = fmt.d (Index e) ++ [LF]
           ++ StartTime e ++ go " --> " ++ EndTime e ++ [LF]
           ++ Text e ++ [LF])
  /\ (a <> [] -> b <> [] -> Format (a ++ b) = Format a ++ [LF] ++ Format b).
Proof.
split; [reflexivity|]. split.
- intros e. rewrite srt_facts.Format_written. unfold written, blockOf, timingLine.
  cbn [map strings.Join]. now rewrite <- !app_assoc.
- intros Ha Hb. rewrite !srt_facts.Format_written. now apply written_app.
Qed.

Lemma Format_app_witness :
  Format ([scenario.hello] ++ [scenario.bye])
  = Format [scenario.hello] ++ [LF] ++ Format [scenario.bye].
Proof.
apply (Format_app [scenario.hello] [scenario.bye]); discriminate.
Defined.

(** *** From entries to text and back *)

Lemma written_layout (entries : list SubtitleEntry) :
  written entries = layout (spaced entries).
Proof.
induction entries as [|e rest IH]; [reflexivity|].
destruct rest as [|e' rest].
- unfold written. cbn [map strings.Join spaced layout newlines repeat].
  now rewrite app_nil_r.
- rewrite srt_facts.written_cons, IH.
  cbn [spaced layout newlines repeat]. now rewrite <- !app_assoc.
Qed.

Lemma spaced_fst (entries : list SubtitleEntry) :
  map fst (spaced entries) = entries.
Proof.
induction entries as [|e rest IH]; [reflexivity|].
destruct rest as [|e' rest]; [reflexivity|].
cbn [spaced map fst]. cbn [spaced] in IH. now rewrite IH.
Qed.

Lemma spaced_separated (entries : list SubtitleEntry) :
  separated (spaced entries).
Proof.
induction entries as [|e rest IH]; [exact I|].
destruct rest as [|e' rest]; [exact I|].
cbn [spaced separated]. cbn [spaced] in IH.
destruct rest as [|e'' rest]; (split; [apply le_n | exact IH]).
Qed.

Lemma digit_not_CR (c : ascii) : digit c -> c <> CR.
Proof. intros Hc ->. vm_compute in Hc. destruct Hc as [Hc _]. now apply Hc. Qed.

Lemma timestamp_no_CR (t : gostring) : timestamp t -> ~ In CR t.
Proof.
intros (h1 & h2 & m1 & m2 & s1 & s2 & f1 & f2 & f3 & -> & Hd) Hin.
repeat match goal with
       | H : Forall _ (_ :: _) |- _ => inversion H; clear H; subst
       end.
cbn [In] in Hin. decompose [or] Hin; try discriminate; try contradiction;
  subst;
  match goal with
  | H : digit CR |- _ => now apply digit_not_CR in H
  end.
Qed.

Lemma blockOf_no_CR (e : SubtitleEntry) : canonical e -> ~ In CR (blockOf e).
Proof.
intros (_ & Hst & Hen & _ & Hcr & _). unfold blockOf, timingLine.
rewrite !in_app_iff. intros Hin.
destruct Hin as [Hin|[Hin|[[Hin|[Hin|Hin]]|[Hin|Hin]]]].
- destruct (fmt_facts.d_bytes (Index e)) as [_ Hb].
  rewrite Forall_forall in Hb. destruct (Hb _ Hin) as [Hd|Hd].
  + now apply digit_not_CR in Hd.
  + discriminate Hd.
- cbn in Hin. destruct Hin as [Hin|[]]. discriminate Hin.
- now apply timestamp_no_CR in Hin.
- cbn in Hin. repeat (destruct Hin as [Hin|Hin]; [discriminate Hin|]).
  contradiction.
- now apply timestamp_no_CR in Hin.
- cbn in Hin. destruct Hin as [Hin|[]]. discriminate Hin.
- now apply Hcr.
Qed.

Lemma layout_no_CR (blocks : list (SubtitleEntry * nat)) :
  Forall (fun b => canonical (fst b)) blocks -> ~ In CR (layout blocks).
Proof.
induction 1 as [|[e k] rest He _ IH]; cbn [layout]; [tauto|].
rewrite !in_app_iff. intros [Hin|[Hin|Hin]].
- now apply blockOf_no_CR in Hin.
- apply repeat_spec in Hin. discriminate Hin.
- now apply IH.
Qed.

(** X19: what [Format] writes for entries in canonical form, [Parse] reads
    back as these entries. *)
Theorem Parse_Format (entries : list SubtitleEntry) :
  Forall canonical entries -> Parse (Format entries) = (entries, None).
Proof.
intros Hcan.
assert (Hb : Forall (fun b => canonical (fst b)) (spaced entries)).
{ apply Forall_forall. intros b Hin.
  rewrite Forall_forall in Hcan. apply Hcan.
  rewrite <- (spaced_fst entries). now apply in_map. }
rewrite srt_facts.Format_written, written_layout, srt_facts.Parse_kept.
unfold blocksOf.
rewrite (srt_facts.ReplaceAll_lineEnds _ (layout (spaced entries))).
- fold (entriesOf (layout (spaced entries))).
  pose proof (srt_facts.entriesOf_layout _ Hb (spaced_separated entries)
                0%nat) as E.
  cbn [newlines repeat app] in E. rewrite E.
  now rewrite spaced_fst.
- apply lineEnds_refl. now apply layout_no_CR.
Qed.

Lemma Parse_Format_witness :
  Parse (Format [scenario.hello; scenario.bye])
  = ([scenario.hello; scenario.bye], None).
Proof.
apply Parse_Format.
repeat (apply Forall_cons; [srt_facts.canonical_entry|]). apply Forall_nil.
Defined.

(** *** What every returned entry satisfies *)

Lemma blankLine_tail (c : ascii) (r : gostring) :
  blankLine (c :: r) = false -> blankLine r = false.
Proof.
destruct r as [|d r]; [reflexivity|].
change (blankLine (c :: d :: r))
  with ((Ascii.eqb c LF && Ascii.eqb d LF) || blankLine (d :: r)).
intros E. now apply orb_false_iff in E.
Qed.

Lemma blankLine_suffix (p m : gostring) :
  blankLine (p ++ m) = false -> blankLine m = false.
Proof.
induction p as [|c p IH]; intros E; [exact E|].
apply IH. now apply blankLine_tail with c.
Qed.

Lemma blankLine_infix (p m q : gostring) :
  blankLine (p ++ m ++ q) = false -> blankLine m = false.
Proof.
intros E. apply blankLine_suffix in E. now apply srt_facts.blankLine_prefix in E.
Qed.

(** What is cut off before a blank line holds none, and neither does a text
    that cannot be cut. *)
Lemma Cut_blank_free (s : gostring) :
  match strings.Cut s [LF; LF] with
  | Some (before, _) => blankLine before = false
  | None => blankLine s = false
  end.
Proof.
induction s as [|c r IH]; [reflexivity|].
rewrite split_facts.Cut_unfold.
destruct (strings.HasPrefix (c :: r) [LF; LF]) eqn:Ep; [reflexivity|].
assert (Hhead : forall d r', r = d :: r' ->
                  Ascii.eqb c LF && Ascii.eqb d LF = false).
{ intros d r' ->. cbn [strings.HasPrefix] in Ep.
  now rewrite andb_true_r in Ep. }
destruct (strings.Cut r [LF; LF]) as [[before after]|] eqn:Ec.
- destruct before as [|d before]; [reflexivity|].
  apply split_facts.Cut_inv in Ec.
  change (blankLine (c :: d :: before))
    with ((Ascii.eqb c LF && Ascii.eqb d LF) || blankLine (d :: before)).
  rewrite IH, (Hhead d _ Ec). reflexivity.
- destruct r as [|d r']; [reflexivity|].
  change (blankLine (c :: d :: r'))
    with ((Ascii.eqb c LF && Ascii.eqb d LF) || blankLine (d :: r')).
  rewrite IH, (Hhead d r' eq_refl). reflexivity.
Qed.

Lemma genSplit_blank_free (fuel : nat) :
  forall s, (length s <= fuel)%nat ->
  Forall (fun b => blankLine b = false) (strings.genSplit fuel s [LF; LF]).
Proof.
induction fuel as [|fuel IH]; intros s Hlen.
- destruct s; [|cbn [length] in Hlen; lia].
  cbn [strings.genSplit]. now constructor.
- cbn [strings.genSplit].
  pose proof (Cut_blank_free s) as Hc.
  destruct (strings.Cut s [LF; LF]) as [[before after]|] eqn:Ec.
  + constructor; [exact Hc|]. apply IH.
    apply split_facts.Cut_shorter in Ec; [lia | discriminate].
  + now constructor.
Qed.

Lemma Join_skipn (sep : gostring) (k : nat) :
  forall l, exists p,
    strings.Join l sep = p ++ strings.Join (skipn k l) sep.
Proof.
induction k as [|k IH]; intros l; [now exists []|].
destruct l as [|e rest]; [now exists []|].
cbn [skipn]. destruct rest as [|e' rest].
- exists e. destruct k; cbn; now rewrite app_nil_r.
- rewrite split_facts.Join_cons by discriminate.
  destruct (IH (e' :: rest)) as [p ->].
  exists (e ++ sep ++ p). now rewrite <- !app_assoc.
Qed.

(** X21: whatever the input, [Parse] returns at most one entry per block,
    and every entry it returns has an index within the range of [int], two
    timestamps of the shape [HH:MM:SS,mmm] and a text without an empty
    line. *)
Theorem Parse_entries_wellformed (content : gostring) :
  (length (fst (Parse content)) <= length (blocksOf content))%nat
  /\ Forall (fun e =>
               - 2 ^ 63 <= Index e < 2 ^ 63
               /\ timestamp (StartTime e) /\ timestamp (EndTime e)
               /\ blankLine (Text e) = false)
            (fst (Parse content)).
Proof.
rewrite srt_facts.Parse_kept. cbn [fst].
assert (Hfree : Forall (fun b => blankLine b = false) (blocksOf content)).
{ unfold blocksOf, strings.Split. now apply genSplit_blank_free. }
induction Hfree as [|block blocks Hb _ [IH1 IH2]].
- cbn. split; [lia | constructor].
- cbn [flat_map length]. rewrite length_app. unfold kept at 1 3.
  destruct (parseBlock block) as [entry|] eqn:Ep.
  + split; [cbn [length]; lia|]. apply Forall_app. split; [|exact IH2].
    constructor; [|constructor].
    apply srt_facts.parseBlock_inv in Ep as (_ & Hi & Ht & Htext).
    destruct Hi as (sign & ds & _ & _ & _ & _ & Hrange).
    destruct Ht as (Hst & Hen & _).
    split; [exact Hrange|]. split; [exact Hst|]. split; [exact Hen|].
    rewrite Htext.
    destruct (infix_facts.TrimSpace_infix
                (strings.Join (skipn 2 (linesOf block)) [LF]))
      as (p1 & q1 & E1).
    apply blankLine_infix with p1 q1. rewrite <- E1.
    destruct (Join_skipn [LF] 2 (linesOf block)) as [p2 E2].
    apply blankLine_suffix with p2. rewrite <- E2.
    unfold linesOf. rewrite split_facts.Join_Split by discriminate.
    destruct (infix_facts.TrimSpace_infix block) as (p3 & q3 & E3).
    apply blankLine_infix with p3 q3. now rewrite <- E3.
  + split; [cbn [length]; lia | exact IH2].
Qed.

End codec_facts.

(** ** Strings: the ends of a trimmed text *)

Module ends_facts.

Import utf8 strings.

Lemma first_range (b : Z) :
  first b < 0xF0 -> 0x80 <= fst (acceptRanges (Z.shiftr (first b) 4)).
Proof.
unfold first.
repeat match goal with
       | |- context [if ?t then _ else _] => destruct t
       end; cbn; lia.
Qed.

(** The encoding that starts with a byte that is not ASCII is made of such
    bytes only. *)
Lemma DecodeRune_width (c : ascii) (r : gostring) :
  RuneSelf <= byteZ c ->
  let wid := snd (DecodeRuneInString (c :: r)) in
  (1 <= wid <= length (c :: r))%nat
  /\ forall k, (k < wid)%nat -> RuneSelf <= byteZ (nth k (c :: r) zero).
Proof.
intros Hc. unfold DecodeRuneInString. cbv zeta.
destruct (0xF0 <=? first (byteZ c)) eqn:Ex.
{ cbn [snd length]. split; [lia|]. intros [|k] Hk; [exact Hc | lia]. }
apply Z.leb_gt in Ex. pose proof (first_range (byteZ c) Ex) as Hlo.
destruct (acceptRanges (Z.shiftr (first (byteZ c)) 4)) as [lo hi].
cbn [fst] in Hlo.
destruct (Z.of_nat (length (c :: r)) <? Z.land (first (byteZ c)) 7).
{ cbn [snd length]. split; [lia|]. intros [|k] Hk; [exact Hc | lia]. }
destruct r as [|c1 t1].
{ cbn [snd length]. split; [lia|]. intros [|k] Hk; [exact Hc | lia]. }
destruct ((byteZ c1 <? lo) || (hi <? byteZ c1)) eqn:E1.
{ cbn [snd length]. split; [lia|]. intros [|k] Hk; [exact Hc | lia]. }
apply orb_false_iff in E1 as [E1 _]. apply Z.ltb_ge in E1.
destruct (Z.land (first (byteZ c)) 7 <=? 2).
{ cbn [snd length]. split; [lia|].
  intros [|[|k]] Hk; cbn [nth]; unfold RuneSelf in *; lia. }
destruct t1 as [|c2 t2].
{ cbn [snd length]. split; [lia|]. intros [|k] Hk; [exact Hc | lia]. }
destruct ((byteZ c2 <? locb) || (hicb <? byteZ c2)) eqn:E2.
{ cbn [snd length]. split; [lia|]. intros [|k] Hk; [exact Hc | lia]. }
apply orb_false_iff in E2 as [E2 _]. apply Z.ltb_ge in E2. unfold locb in E2.
destruct (Z.land (first (byteZ c)) 7 <=? 3).
{ cbn [snd length]. split; [lia|].
  intros [|[|[|k]]] Hk; cbn [nth]; unfold RuneSelf in *; lia. }
destruct t2 as [|c3 t3].
{ cbn [snd length]. split; [lia|]. intros [|k] Hk; [exact Hc | lia]. }
destruct ((byteZ c3 <? locb) || (hicb <? byteZ c3)) eqn:E3.
{ cbn [snd length]. split; [lia|]. intros [|k] Hk; [exact Hc | lia]. }
apply orb_false_iff in E3 as [E3 _]. apply Z.ltb_ge in E3. unfold locb in E3.
cbn [snd length]. split; [lia|].
intros [|[|[|[|k]]]] Hk; cbn [nth]; unfold RuneSelf in *; lia.
Qed.

Lemma firstn_last (s R : gostring) (c : ascii) (n : nat) :
  (n <= length s)%nat -> firstn n s = R ++ [c] ->
  (1 <= n)%nat /\ c = nth (n - 1) s zero.
Proof.
intros Hn E.
assert (Hl : length (firstn n s) = n) by now apply firstn_length_le.
rewrite E, length_app in Hl. cbn [length] in Hl.
split; [lia|].
assert (En : nth (n - 1) (firstn n s) zero = c).
{ rewrite E. replace (n - 1)%nat with (length R) by lia.
  apply utf8_facts.nth_last. }
rewrite <- En. symmetry.
rewrite <- (firstn_skipn n s) at 1.
apply app_nth1. rewrite E, length_app. cbn [length]. lia.
Qed.

Lemma nth_skipn_plus (i k : nat) (s : gostring) :
  nth k (skipn i s) zero = nth (i + k) s zero.
Proof.
revert s. induction i as [|i IH]; intros s; [reflexivity|].
destruct s as [|c s]; [now destruct k | apply IH].
Qed.

(** Where the backward scan stops: at a byte that is not ASCII, or at an
    ASCII byte that does not satisfy [f]. *)
Lemma lastIndexLoop_some (f : Z -> bool) (s : gostring) (fuel : nat) :
  forall i0 i,
  (i0 <= length s)%nat ->
  lastIndexLoop fuel f s i0 = Some i ->
  (i < i0)%nat
  /\ (byteZ (nth i s zero) < RuneSelf -> f (byteZ (nth i s zero)) = false).
Proof.
induction fuel as [|fuel IH]; intros i0 i Hi0 E; [discriminate E|].
cbn [lastIndexLoop] in E. destruct i0 as [|i0]; [discriminate E|].
assert (Hl : length (firstn (S i0) s) = S i0) by now apply firstn_length_le.
assert (Hne : firstn (S i0) s <> []).
{ intros En. rewrite En in Hl. discriminate Hl. }
pose proof (utf8_facts.DecodeLast_cases _ Hne) as Hcases.
destruct (DecodeLastRuneInString (firstn (S i0) s)) as [r size] eqn:Ed.
destruct Hcases as (j & Hj & Hsize & Hbyte). rewrite Hl in Hj.
replace (S i0 - size)%nat with j in E by lia.
destruct (f r) eqn:Ef.
- apply IH in E; [|lia]. destruct E as [Hlt Hf]. split; [lia | exact Hf].
- injection E as <-. split; [lia|].
  assert (En : nth j (firstn (S i0) s) zero = nth j s zero).
  { rewrite <- (firstn_skipn (S i0) s) at 2. symmetry.
    apply app_nth1. lia. }
  rewrite En in Hbyte. intros Hascii.
  destruct Hbyte as [[_ ->]|[Hge _]]; [|lia].
  assert (j = i0) as -> by lia.
  destruct (exists_last Hne) as (front & c & Ef').
  assert (Ec : c = nth i0 s zero).
  { apply (firstn_last s front c (S i0)) in Ef' as [_ Ec]; [|exact Hi0].
    now replace (S i0 - 1)%nat with i0 in Ec by lia. }
  rewrite Ef', srt_facts.DecodeLast_ascii in Ed by (rewrite Ec; exact Hascii).
  injection Ed as <-. now rewrite <- Ec.
Qed.

(** The last byte of what [TrimRightFunc] keeps is no ASCII white space. *)
Lemma TrimRightFunc_last (s R : gostring) (c : ascii) :
  TrimRightFunc s unicode.IsSpace = R ++ [c] -> asciiSpace c = false.
Proof.
unfold TrimRightFunc.
destruct (lastIndexLoop (length s) unicode.IsSpace s (length s)) as [i|] eqn:EL;
  [|intros E; destruct R; discriminate E].
apply lastIndexLoop_some in EL as [Hi Hf]; [|apply le_n].
destruct (Z.leb_spec RuneSelf (byteZ (nth i s zero))) as [Hge|Hlt].
- destruct (utf8_facts.skipn_nth i s zero Hi) as [r Er].
  pose proof (DecodeRune_width (nth i s zero) r Hge) as Hw.
  rewrite <- Er in Hw. cbv zeta in Hw. destruct Hw as [[Hw1 Hw2] Hbytes].
  rewrite length_skipn in Hw2.
  intros E. apply firstn_last in E as [_ ->]; [|lia].
  specialize (Hbytes (snd (DecodeRuneInString (skipn i s)) - 1)%nat
                ltac:(lia)).
  rewrite nth_skipn_plus in Hbytes.
  replace (i + (snd (DecodeRuneInString (skipn i s)) - 1))%nat
    with (i + snd (DecodeRuneInString (skipn i s)) - 1)%nat in Hbytes by lia.
  destruct (asciiSpace _) eqn:Ea; [|reflexivity].
  apply trim_facts.asciiSpace_ascii in Ea. lia.
- intros E. apply firstn_last in E as [_ ->]; [|lia].
  replace (i + 1 - 1)%nat with i by lia.
  rewrite <- trim_facts.IsSpace_ascii by exact Hlt. now apply Hf.
Qed.

Lemma trimStart_head (s : gostring) :
  match trimStart s with
  | (false, c :: _) => byteZ c < RuneSelf /\ asciiSpace c = false
  | (true, c :: _) => RuneSelf <= byteZ c
  | (false, []) => True
  | (true, []) => False
  end.
Proof.
induction s as [|c r IH]; [exact I|]. cbn [trimStart].
destruct (Z.leb_spec RuneSelf (byteZ c)) as [Hge|Hlt]; [exact Hge|].
destruct (asciiSpace c) eqn:Ea; [exact IH | now split].
Qed.

Lemma trimLeftLoop_head (fuel : nat) (f : Z -> bool) :
  forall s,
  match trimLeftLoop fuel f s with
  | c :: r => f (fst (DecodeRuneInString (c :: r))) = false
  | [] => True
  end.
Proof.
induction fuel as [|fuel IH]; intros s; [exact I|].
cbn [trimLeftLoop]. destruct s as [|c r]; [exact I|].
destruct (DecodeRuneInString (c :: r)) as [ru size] eqn:Ed.
destruct (f ru) eqn:Ef; [apply IH|]. rewrite Ed. exact Ef.
Qed.

(** The first byte of a trimmed text is no ASCII white space. *)
Lemma TrimSpace_first (s : gostring) (c : ascii) (R : gostring) :
  TrimSpace s = c :: R -> asciiSpace c = false.
Proof.
unfold TrimSpace. pose proof (trimStart_head s) as Hh.
destruct (trimStart s) as [slow s1]. destruct slow.
- unfold TrimFunc, TrimLeftFunc.
  pose proof (trimLeftLoop_head (length s1) unicode.IsSpace s1) as Ht.
  destruct (infix_facts.TrimRightFunc_prefix
              (trimLeftLoop (length s1) unicode.IsSpace s1) unicode.IsSpace)
    as [q Eq].
  intros E. rewrite E in Eq. cbn [app] in Eq. rewrite Eq in Ht.
  destruct (Z.ltb_spec (byteZ c) RuneSelf) as [Hlt|Hge].
  + rewrite utf8_facts.DecodeRune_ascii in Ht by exact Hlt. cbn [fst] in Ht.
    now rewrite <- trim_facts.IsSpace_ascii.
  + destruct (asciiSpace c) eqn:Ea; [|reflexivity].
    apply trim_facts.asciiSpace_ascii in Ea. lia.
- destruct (infix_facts.trimStart_suffix (rev s1)) as [p2 E2].
  destruct (trimStart (rev s1)) as [slow' rs]. cbn [snd] in E2.
  assert (E3 : s1 = rev rs ++ rev p2).
  { rewrite <- rev_app_distr, <- E2. now rewrite rev_involutive. }
  assert (Hpre : forall res, (exists q, rev rs = res ++ q) ->
                 res = c :: R -> asciiSpace c = false).
  { intros res [q Eq] ->. rewrite Eq in E3. cbn [app] in E3.
    rewrite E3 in Hh. now destruct Hh. }
  destruct slow'.
  + apply Hpre. destruct (infix_facts.TrimRightFunc_prefix (rev rs) unicode.IsSpace)
      as [q Eq]. now exists q.
  + apply Hpre. exists []. now rewrite app_nil_r.
Qed.

(** So is its last byte. *)
Lemma TrimSpace_last (s R : gostring) (c : ascii) :
  TrimSpace s = R ++ [c] -> asciiSpace c = false.
Proof.
unfold TrimSpace. destruct (trimStart s) as [slow s1]. destruct slow.
- unfold TrimFunc. apply TrimRightFunc_last.
- pose proof (trimStart_head (rev s1)) as Hh.
  destruct (trimStart (rev s1)) as [slow' rs]. destruct slow'.
  + apply TrimRightFunc_last.
  + destruct rs as [|c' rs]; [intros E; destruct R; discriminate E|].
    cbn [rev]. intros E. apply app_inj_tail in E as [_ <-]. now destruct Hh.
Qed.

End ends_facts.

(** ** The translation backend *)

Module translator_facts.

Import translator.

Lemma isSpace_asciiSpace (c : ascii) :
  regexp.isSpace c = true -> strings.asciiSpace c = true.
Proof.
unfold regexp.isSpace, strings.asciiSpace. cbv zeta.
rewrite !orb_true_iff. tauto.
Qed.

(** *** Collapsing white space *)

Lemma collapseSpace_bytes (s : gostring) :
  forall inRun,
  Forall (fun c => regexp.isSpace c = true -> c = " "%char)
         (collapseSpace inRun s).
Proof.
induction s as [|c r IH]; intros inRun; cbn [collapseSpace]; [constructor|].
destruct (regexp.isSpace c) eqn:Ec.
- destruct inRun; [apply IH|]. constructor; [reflexivity | apply IH].
- constructor; [congruence | apply IH].
Qed.

Lemma collapseSpace_head (s : gostring) (c : ascii) (R : gostring) :
  collapseSpace true s = c :: R -> regexp.isSpace c = false.
Proof.
induction s as [|x r IH]; cbn [collapseSpace]; [discriminate|].
destruct (regexp.isSpace x) eqn:Ex; [exact IH|].
intros E. injection E as <- _. exact Ex.
Qed.

Lemma collapseSpace_single (s : gostring) :
  forall inRun, twoSpaces (collapseSpace inRun s) = false.
Proof.
induction s as [|x r IH]; intros inRun; cbn [collapseSpace]; [reflexivity|].
destruct (regexp.isSpace x) eqn:Ex.
- destruct inRun; [apply IH|].
  destruct (collapseSpace true r) as [|d R] eqn:Er; [reflexivity|].
  change (twoSpaces (" "%char :: d :: R))
    with ((Ascii.eqb " " " " && Ascii.eqb d " ") || twoSpaces (d :: R)).
  rewrite <- Er, IH.
  apply collapseSpace_head in Er.
  destruct (Ascii.eqb_spec d " ") as [->|_]; [discriminate Er | reflexivity].
- destruct (collapseSpace false r) as [|d R] eqn:Er; [reflexivity|].
  change (twoSpaces (x :: d :: R))
    with ((Ascii.eqb x " " && Ascii.eqb d " ") || twoSpaces (d :: R)).
  rewrite <- Er, IH.
  destruct (Ascii.eqb_spec x " ") as [->|_]; [discriminate Ex | reflexivity].
Qed.

Lemma collapseSpace_snoc (s : gostring) (c : ascii) :
  regexp.isSpace c = false ->
  forall inRun,
  collapseSpace inRun (s ++ [c]) = collapseSpace inRun s ++ [c].
Proof.
intros Hc. induction s as [|x r IH]; intros inRun; cbn [app collapseSpace].
- now rewrite Hc.
- destruct (regexp.isSpace x); [destruct inRun|]; now rewrite IH.
Qed.

Lemma collapseSpace_In (x : ascii) (s : gostring) :
  forall inRun, In x (collapseSpace inRun s) -> x = " "%char \/ In x s.
Proof.
induction s as [|c r IH]; intros inRun; cbn [collapseSpace]; [tauto|].
destruct (regexp.isSpace c).
- destruct inRun.
  + intros Hin. apply IH in Hin. cbn [In]. tauto.
  + intros [E|Hin]; [now left | apply IH in Hin; cbn [In]; tauto].
- intros [E|Hin]; [right; now left | apply IH in Hin; cbn [In]; tauto].
Qed.

(** A byte that is no white space comes out where it was: what follows it
    in the output comes from what follows it in the input. *)
Lemma collapseSpace_split (s : gostring) :
  forall inRun a c b,
  regexp.isSpace c = false ->
  collapseSpace inRun s = a ++ c :: b ->
  exists a' b', s = a' ++ c :: b' /\ b = collapseSpace false b'.
Proof.
induction s as [|x r IH]; intros inRun a c b Hc; cbn [collapseSpace].
- intros E. destruct a; discriminate E.
- destruct (regexp.isSpace x) eqn:Ex.
  + destruct inRun.
    * intros E. destruct (IH _ _ _ _ Hc E) as (a' & b' & -> & ->).
      now exists (x :: a'), b'.
    * destruct a as [|y a]; cbn [app]; intros E; injection E as E1 E2.
      -- subst c. discriminate Hc.
      -- destruct (IH _ _ _ _ Hc E2) as (a' & b' & -> & ->).
         now exists (x :: a'), b'.
  + destruct a as [|y a]; cbn [app]; intros E; injection E as E1 E2.
    * subst c. now exists [], r.
    * destruct (IH _ _ _ _ Hc E2) as (a' & b' & -> & ->).
      now exists (x :: a'), b'.
Qed.

(** *** Removing tags *)

Lemma removeTags_In (x : ascii) (s : gostring) :
  forall inTag, In x (removeTags inTag s) -> In x s.
Proof.
induction s as [|c r IH]; intros inTag; cbn [removeTags]; [tauto|].
destruct inTag.
- destruct (Ascii.eqb c ">"); intros Hin; apply IH in Hin; now right.
- destruct (Ascii.eqb c "<" && existsb (Ascii.eqb ">"%char) r).
  + intros Hin. apply IH in Hin. now right.
  + intros [E|Hin]; [now left | apply IH in Hin; now right].
Qed.

(** No [<] that is left has a [>] after it. *)
Lemma removeTags_no_tag (s : gostring) :
  forall inTag a b,
  removeTags inTag s = a ++ "<"%char :: b -> ~ In ">"%char b.
Proof.
induction s as [|c r IH]; intros inTag a b; cbn [removeTags].
- intros E. destruct a; discriminate E.
- destruct inTag.
  + destruct (Ascii.eqb c ">"); apply IH.
  + destruct (Ascii.eqb c "<" && existsb (Ascii.eqb ">"%char) r) eqn:Et;
      [apply IH|].
    destruct a as [|y a]; cbn [app]; intros E; injection E as E1 E2.
    * subst c. rewrite Ascii.eqb_refl in Et. cbn [andb] in Et.
      intros Hin. rewrite <- E2 in Hin. apply removeTags_In in Hin.
      assert (Hex : existsb (Ascii.eqb ">"%char) r = true).
      { apply existsb_exists. exists ">"%char. split; [exact Hin|].
        apply Ascii.eqb_refl. }
      congruence.
    * now apply IH in E2.
Qed.

(** X22: the text sent for translation.  Its only white space is the space,
    never two in a row and none at its start or at its end; and no markup
    tag is left in it: no [<] of it has a [>] after it. *)
Theorem cleanTextForTranslation_shape (text : gostring) :
  let out := cleanTextForTranslation text in
  Forall (fun c => regexp.isSpace c = true -> c = " "%char) out
  /\ twoSpaces out = false
  /\ (forall R, out <> " "%char :: R)
  /\ (forall R, out <> R ++ [" "%char])
  /\ (forall a b, out = a ++ "<"%char :: b -> ~ In ">"%char b).
Proof.
unfold cleanTextForTranslation. cbv zeta.
set (stripped := removeTags false text).
split; [apply collapseSpace_bytes|]. split; [apply collapseSpace_single|].
split; [|split].
- intros R E.
  destruct (strings.TrimSpace stripped) as [|c t] eqn:Et; [discriminate E|].
  apply ends_facts.TrimSpace_first in Et.
  cbn [collapseSpace] in E.
  destruct (regexp.isSpace c) eqn:Ec.
  + apply isSpace_asciiSpace in Ec. congruence.
  + injection E as -> _. discriminate Ec.
- intros R E.
  destruct (strings.TrimSpace stripped) as [|c t] eqn:Et;
    [destruct R; discriminate E|].
  destruct (exists_last (l := c :: t) ltac:(discriminate)) as (t' & c' & Et').
  rewrite Et' in Et, E. apply ends_facts.TrimSpace_last in Et.
  assert (Ec : regexp.isSpace c' = false).
  { destruct (regexp.isSpace c') eqn:Ec; [|reflexivity].
    apply isSpace_asciiSpace in Ec. congruence. }
  rewrite collapseSpace_snoc in E by exact Ec.
  apply app_inj_tail in E as [_ ->]. discriminate Ec.
- intros a b E.
  apply collapseSpace_split in E as (a' & b' & E & ->); [|reflexivity].
  intros Hin. apply collapseSpace_In in Hin as [Hin|Hin]; [discriminate Hin|].
  destruct (infix_facts.TrimSpace_infix stripped) as (p & q & Es).
  rewrite E in Es. unfold stripped in Es.
  rewrite <- app_assoc in Es. cbn [app] in Es. rewrite app_assoc in Es.
  apply removeTags_no_tag in Es. apply Es. apply in_or_app. now left.
Qed.

(** The cue with markup over two lines is sent as one line of words. *)
Example cleanTextForTranslation_cue :
  cleanTextForTranslation cue = go "Hello, how are you?".
Proof. vm_compute. reflexivity. Qed.

(** *** The answer *)

Lemma writePart_acc (parts : list JSON) (acc : gostring) :
  fold_left writePart parts acc = acc ++ flat_map partText parts.
Proof.
revert acc. induction parts as [|part parts IH]; intros acc; cbn [fold_left flat_map].
- now rewrite app_nil_r.
- rewrite IH. unfold writePart, partText.
  destruct part as [| | | |[|[] ?]|]; rewrite ?app_nil_r, <- ?app_assoc;
    reflexivity.
Qed.

(** X24: the text taken from a decoded answer.  An empty answer and an
    answer whose first element is no array are errors.  Otherwise only the
    first element counts, and the text is made of the first elements of its
    members, in order, for the members that are arrays starting with a
    string; every other member is skipped without an error, so that an
    answer without any such member is a success with the empty text. *)
Theorem textOf_parts :
  textOf [] = inr (Errorf (go "empty translation response"))
  /\ (forall first rest, textOf (first :: rest) = textOf [first])
  /\ (forall parts, textOf [JArray parts] = inl (flat_map partText parts))
  /\ (forall first,
         (forall parts, first <> JArray parts) ->
         textOf [first] = inr (Errorf (go "unexpected response format")))
  /\ (forall parts,
         Forall (fun part => forall s rest, part <> JArray (JString s :: rest))
                parts ->
         textOf [JArray parts] = inl []).
Proof.
split; [reflexivity|]. split; [reflexivity|]. split; [|split].
- intros parts. unfold textOf. now rewrite writePart_acc.
- intros first Hno. destruct first; try reflexivity. now destruct (Hno elems).
- intros parts Hparts. unfold textOf. rewrite writePart_acc. cbn [app].
  f_equal. induction Hparts as [|part parts Hp _ IH]; [reflexivity|].
  cbn [flat_map]. rewrite IH, app_nil_r.
  destruct part as [| | | |[|[] ?]|]; try reflexivity.
  now destruct (Hp s l).
Qed.

Example textOf_answer :
  answerOf (go "ok") = inl [JArray [JArray [JString (go "ni"); JString (go "x")];
                                    JNull;
                                    JArray [JString (go " hao")]];
                            JNull; JString (go "en")]
  /\ textOf [JArray [JArray [JString (go "ni"); JString (go "x")];
                     JNull;
                     JArray [JString (go " hao")]];
             JNull; JString (go "en")]
     = inl (go "ni hao").
Proof. split; reflexivity. Qed.

(** *** The request *)

Section Google.

Context {W : Type} `{Backend W}.

Variable Unmarshal : gostring -> result (list JSON).

(** X23: for the empty text [Translate] answers the empty text without a
    request.  For any other text it sends one request, for the language
    pair it was given and the cleaned text.  A failure of the request or of
    reading the body is returned wrapped; a body that starts, after white
    space, with [<] gives the error of the HTML page whatever the body
    decodes to; a translation is returned only for a body that is no such
    page, that decodes, and from whose decoded form the text is taken. *)
Theorem Translate_run (text sourceLang targetLang : gostring) (w : W) :
  (text = [] ->
   Translate Unmarshal text sourceLang targetLang w = (inl [], w, []))
  /\ (text <> [] ->
      let params :=
        mkQuery sourceLang targetLang (cleanTextForTranslation text) in
      let '(res, w', sent) :=
        Translate Unmarshal text sourceLang targetLang w in
      sent = [params]
      /\ exists reply,
          clientGet params w = (reply, w')
          /\ match reply with
             | GetFailed err =>
               res = inr (Errorf_w (go "failed to call Google Translate API")
                                   err)
             | ReadFailed err =>
               res = inr (Errorf_w (go "failed to read response") err)
             | Body body =>
               (strings.HasPrefix (strings.TrimSpace body) (go "<") = true ->
                res = inr htmlPage)
               /\ (forall x,
                      res = inl x ->
                      strings.HasPrefix (strings.TrimSpace body) (go "<")
                      = false
                      /\ exists response,
                          Unmarshal body = inl response
                          /\ textOf response = inl x)
             end).
Proof.
unfold Translate. split.
- intros ->. reflexivity.
- intros Hne. rewrite (proj2 (streq_neq _ _) Hne). cbv zeta.
  destruct (clientGet (mkQuery sourceLang targetLang
                         (cleanTextForTranslation text)) w)
    as [reply w'].
  split; [reflexivity|]. exists reply. split; [reflexivity|].
  destruct reply as [err|err|body]; [reflexivity | reflexivity|].
  destruct (strings.HasPrefix (strings.TrimSpace body) (go "<")).
  + split; [reflexivity | discriminate].
  + split; [discriminate|]. intros x E. split; [reflexivity|].
    destruct (Unmarshal body) as [response|err]; [|discriminate E].
    now exists response.
Qed.

End Google.

(** The backend of the examples: the text [Hello] is translated with one
    request for the pair en, zh-TW; the empty text costs no request. *)
Lemma Translate_run_witness :
  TranslateToChineseTraditional (H := canned) answerOf [] 0%nat = (inl [], 0%nat, [])
  /\ (let '(res, w', sent) :=
        TranslateToChineseTraditional (H := canned) answerOf (go "<i>Hello</i>") 0%nat in
      sent = [mkQuery (go "en") (go "zh-TW") (go "Hello")]).
Proof.
split.
- apply (proj1 (Translate_run (H := canned) answerOf [] (go "en") (go "zh-TW") 0%nat)).
  reflexivity.
- pose proof (proj2 (Translate_run (H := canned) answerOf (go "<i>Hello</i>") (go "en")
                       (go "zh-TW") 0%nat) ltac:(discriminate)) as T.
  cbv zeta in T. unfold TranslateToChineseTraditional.
  destruct (Translate (H := canned) answerOf (go "<i>Hello</i>") (go "en") (go "zh-TW") 0%nat)
    as [[res w'] sent].
  destruct T as [-> _]. reflexivity.
Defined.

(** The runs of the examples: a translation in two parts, the page that the
    backend answers for [Bye], and a cue that is nothing but markup, which
    is sent as the empty text. *)
Example Translate_examples :
  TranslateToChineseTraditional (H := canned) answerOf (go "<i>Hello</i>") 0%nat
  = (inl (go "ni hao"), 1%nat, [mkQuery (go "en") (go "zh-TW") (go "Hello")])
  /\ TranslateToChineseTraditional (H := canned) answerOf (go "Bye") 0%nat
     = (inr htmlPage, 1%nat, [mkQuery (go "en") (go "zh-TW") (go "Bye")])
  /\ TranslateToChineseTraditional (H := canned) answerOf (go "<br/>") 0%nat
     = (inl (go "ni hao"), 1%nat, [mkQuery (go "en") (go "zh-TW") []]).
Proof. repeat split; vm_compute; reflexivity. Qed.

End translator_facts.

(** ** The listing of the start page *)

Module listing_facts.

Import jellyfin listing sorting.

(** *** The grouping loop *)

Lemma grouped_snoc (items : list MediaItem) (item : MediaItem) :
  grouped (items ++ [item]) = organizeStep (grouped items) item.
Proof. unfold grouped. now rewrite fold_left_app. Qed.

Lemma organizeStep_movies (organized : OrganizedMedia) (item : MediaItem) :
  Movies (organizeStep organized item)
  = Movies organized ++ (if isEpisode item then [] else [viewOf item]).
Proof.
unfold organizeStep, isEpisode. cbv zeta.
destruct (streq (Type_ item) (go "Episode")); cbn [Movies].
- now rewrite app_nil_r.
- reflexivity.
Qed.

Lemma organizeStep_shown (organized : OrganizedMedia) (item : MediaItem)
    (seriesName : gostring) (seasonNum : Z) :
  shown (organizeStep organized item) seriesName seasonNum
  = shown organized seriesName seasonNum
    ++ (if isEpisode item && streq (seriesKey item) seriesName
           && (seasonKey item =? seasonNum)
        then [viewOf item] else []).
Proof.
unfold organizeStep, isEpisode. cbv zeta.
fold (seriesKey item). fold (seasonKey item). fold (viewOf item).
destruct (streq (Type_ item) (go "Episode")); cbn [andb];
  [|now rewrite app_nil_r].
unfold shown. cbn [Series]. unfold store at 1.
destruct (streq (seriesKey item) seriesName) eqn:Es; cbn [andb];
  [|now rewrite app_nil_r].
apply streq_eq in Es. subst seriesName. cbn [Seasons]. unfold store.
destruct (Z.eqb_spec (seasonKey item) seasonNum) as [->|Hn].
- cbn [Episodes].
  destruct (Series organized (seriesKey item)) as [series|]; cbn [Seasons];
    [|reflexivity].
  now destruct (Seasons series seasonNum).
- rewrite app_nil_r.
  now destruct (Series organized (seriesKey item)).
Qed.

Lemma listed_snoc (items : list MediaItem) (item : MediaItem)
    (seriesName : gostring) (seasonNum : Z) :
  listed (items ++ [item]) seriesName seasonNum
  = listed items seriesName seasonNum
    ++ (if isEpisode item && streq (seriesKey item) seriesName
           && (seasonKey item =? seasonNum)
        then [item] else []).
Proof. unfold listed. rewrite filter_app. reflexivity. Qed.

(** The movies of the groups are the items that are no episodes, and the
    episodes of a group are the episodes listed for its series and season,
    both in catalog order. *)
Lemma grouped_contents (items : list MediaItem) :
  Movies (grouped items)
  = map viewOf (filter (fun item => negb (isEpisode item)) items)
  /\ forall seriesName seasonNum,
      shown (grouped items) seriesName seasonNum
      = map viewOf (listed items seriesName seasonNum).
Proof.
induction items as [|item items [IHm IHs]] using rev_ind.
- split; reflexivity.
- rewrite grouped_snoc. split.
  + rewrite organizeStep_movies, IHm, filter_app, map_app. cbn [filter].
    now destruct (isEpisode item).
  + intros seriesName seasonNum.
    rewrite organizeStep_shown, IHs, listed_snoc, map_app.
    now destruct (isEpisode item && streq (seriesKey item) seriesName
                  && (seasonKey item =? seasonNum)).
Qed.

(** A group is filed under its own name and number; a season is named
    after the first episode listed for it. *)
Lemma grouped_names (items : list MediaItem) :
  forall seriesName series,
  Series (grouped items) seriesName = Some series ->
  SeriesGroupName series = seriesName
  /\ forall seasonNum season,
      Seasons series seasonNum = Some season ->
      Number season = seasonNum
      /\ exists first rest,
          listed items seriesName seasonNum = first :: rest
          /\ SeasonGroupName season = SeasonName first.
Proof.
induction items as [|item items IH] using rev_ind; [discriminate|].
intros seriesName series. rewrite grouped_snoc.
unfold organizeStep at 1. cbv zeta.
fold (seriesKey item). fold (seasonKey item). fold (isEpisode item).
assert (Hold : forall seasonNum season first rest,
          listed items seriesName seasonNum = first :: rest ->
          SeasonGroupName season = SeasonName first ->
          exists first' rest',
            listed (items ++ [item]) seriesName seasonNum = first' :: rest'
            /\ SeasonGroupName season = SeasonName first').
{ intros seasonNum season first rest El En. rewrite listed_snoc, El.
  now exists first, (rest ++ (if isEpisode item
                                  && streq (seriesKey item) seriesName
                                  && (seasonKey item =? seasonNum)
                               then [item] else [])). }
destruct (isEpisode item) eqn:Ee; cbn [Series].
2:{ intros E. destruct (IH _ _ E) as [Hn Hs]. split; [exact Hn|].
    intros seasonNum season Es. destruct (Hs _ _ Es) as (Hnum & first & rest & El & En).
    split; [exact Hnum|]. now apply Hold with first rest. }
unfold store at 1.
destruct (streq (seriesKey item) seriesName) eqn:Ek.
2:{ intros E. destruct (IH _ _ E) as [Hn Hs]. split; [exact Hn|].
    intros seasonNum season Es. destruct (Hs _ _ Es) as (Hnum & first & rest & El & En).
    split; [exact Hnum|]. now apply Hold with first rest. }
apply streq_eq in Ek. subst seriesName.
intros E. injection E as <-. cbn [SeriesGroupName Seasons].
assert (Hser : match Series (grouped items) (seriesKey item) with
               | Some s => SeriesGroupName s = seriesKey item
               | None => True
               end).
{ destruct (Series (grouped items) (seriesKey item)) as [s|] eqn:Es;
    [now apply IH | exact I]. }
split.
{ destruct (Series (grouped items) (seriesKey item)); [exact Hser | reflexivity]. }
intros seasonNum season. unfold store.
destruct (Z.eqb_spec (seasonKey item) seasonNum) as [<-|Hn].
- intros E. injection E as <-. cbn [Number SeasonGroupName].
  rewrite listed_snoc, Ee, streq_refl, Z.eqb_refl. cbn [andb].
  destruct (Series (grouped items) (seriesKey item)) as [s|] eqn:Es.
  + destruct (Seasons s (seasonKey item)) as [sg|] eqn:Esg.
    * destruct (IH _ _ Es) as [_ Hs].
      destruct (Hs _ _ Esg) as (Hnum & first & rest & El & En).
      split; [exact Hnum|]. rewrite El. now exists first, (rest ++ [item]).
    * cbn [Number SeasonGroupName]. split; [reflexivity|].
      pose proof (proj2 (grouped_contents items) (seriesKey item)
                    (seasonKey item)) as Hsh.
      unfold shown in Hsh. rewrite Es, Esg in Hsh.
      destruct (listed items (seriesKey item) (seasonKey item));
        [|discriminate Hsh].
      now exists item, [].
  + cbn [Seasons Number SeasonGroupName]. split; [reflexivity|].
    pose proof (proj2 (grouped_contents items) (seriesKey item)
                  (seasonKey item)) as Hsh.
    unfold shown in Hsh. rewrite Es in Hsh.
    destruct (listed items (seriesKey item) (seasonKey item));
      [|discriminate Hsh].
    now exists item, [].
- intros Es.
  destruct (Series (grouped items) (seriesKey item)) as [s|] eqn:Eser;
    [|discriminate Es].
  destruct (IH _ _ Eser) as [_ Hs].
  destruct (Hs _ _ Es) as (Hnum & first & rest & El & En).
  split; [exact Hnum|]. now apply Hold with first rest.
Qed.

(** *** Sorting *)

Lemma stringLess_asym (a : gostring) :
  forall b, stringLess a b = true -> stringLess b a = false.
Proof.
induction a as [|x a IH]; intros [|y b]; cbn [stringLess]; try congruence.
intros E. apply orb_true_iff in E as [E|E].
- apply Z.ltb_lt in E. apply orb_false_iff. split; [apply Z.ltb_ge; lia|].
  apply andb_false_iff. left. apply Z.eqb_neq. lia.
- apply andb_true_iff in E as [E1 E2]. apply Z.eqb_eq in E1.
  rewrite (IH _ E2), andb_false_r, orb_false_r. apply Z.ltb_ge. lia.
Qed.

Lemma stringLess_trans (a : gostring) :
  forall b c,
  stringLess b a = false -> stringLess c b = false -> stringLess c a = false.
Proof.
induction a as [|x a IH]; intros b c Hba Hcb.
- now destruct c.
- destruct b as [|y b]; [discriminate Hba|].
  destruct c as [|z c]; [discriminate Hcb|].
  cbn [stringLess] in *.
  apply orb_false_iff in Hba as [H1 H2]. apply orb_false_iff in Hcb as [H3 H4].
  apply Z.ltb_ge in H1, H3.
  apply orb_false_iff. split; [apply Z.ltb_ge; lia|].
  destruct (Z.eqb_spec (byteZ z) (byteZ x)) as [Ezx|_]; [|reflexivity].
  cbn [andb].
  destruct (Z.eqb_spec (byteZ y) (byteZ x)) as [_|Hne]; [|lia].
  destruct (Z.eqb_spec (byteZ z) (byteZ y)) as [_|Hne]; [|lia].
  cbn [andb] in H2, H4. now apply IH with b.
Qed.

Section Insertion.

Context {A : Type} (less : A -> A -> bool).

Hypothesis less_asym : forall a b, less a b = true -> less b a = false.
Hypothesis less_trans :
  forall a b c, less b a = false -> less c b = false -> less c a = false.

Lemma insert_perm (a : A) (l : list A) : Permutation (a :: l) (insert less a l).
Proof.
induction l as [|b rest IH]; cbn [insert]; [apply Permutation_refl|].
destruct (less b a); [|apply Permutation_refl].
apply perm_trans with (b :: a :: rest); [apply perm_swap|].
now apply perm_skip.
Qed.

Lemma isort_perm (l : list A) : Permutation l (isort less l).
Proof.
induction l as [|a rest IH]; cbn [isort]; [apply perm_nil|].
apply perm_trans with (a :: isort less rest); [now apply perm_skip|].
apply insert_perm.
Qed.

Lemma insert_sorted (a : A) (l : list A) :
  StronglySorted (fun x y => less y x = false) l ->
  StronglySorted (fun x y => less y x = false) (insert less a l).
Proof.
induction 1 as [|b rest Hs IH Hb]; cbn [insert].
- constructor; constructor.
- destruct (less b a) eqn:E.
  + constructor; [exact IH|].
    apply (Permutation_Forall (insert_perm a rest)).
    constructor; [now apply less_asym | exact Hb].
  + constructor; [now constructor|].
    constructor; [exact E|].
    eapply Forall_impl; [|exact Hb]. intros c Hc. now apply less_trans with b.
Qed.

Lemma isort_sorts (l : list A) : sorts less l (isort less l).
Proof.
split; [apply isort_perm|].
induction l as [|a rest IH]; cbn [isort]; [constructor|].
now apply insert_sorted.
Qed.

End Insertion.

Lemma byEpisodeNumber_sorts (l : list MediaItemView) :
  sorts byEpisodeNumber l (isort byEpisodeNumber l).
Proof.
apply isort_sorts; unfold byEpisodeNumber.
- intros a b E. apply Z.ltb_lt in E. apply Z.ltb_ge. lia.
- intros a b c E1 E2. apply Z.ltb_ge in E1, E2. apply Z.ltb_ge. lia.
Qed.

Lemma byName_sorts (l : list MediaItemView) : sorts byName l (isort byName l).
Proof.
apply isort_sorts; unfold byName.
- intros a b. apply stringLess_asym.
- intros a b c. apply stringLess_trans.
Qed.

(** The groups with every list sorted are a result of [organizeMedia]. *)
Lemma sorted_organizes (items : list MediaItem) :
  organizeMedia items (sorted (grouped items)).
Proof.
split; [apply byName_sorts|].
intros seriesName. unfold sorted. cbn [Series].
destruct (Series (grouped items) seriesName) as [series|]; cbn [option_map];
  [|exact I].
split; [reflexivity|]. intros seasonNum. cbn [sortSeries Seasons].
destruct (Seasons series seasonNum) as [season|]; cbn [option_map];
  [|exact I].
split; [reflexivity|]. split; [reflexivity|]. apply byEpisodeNumber_sorts.
Qed.

(** X26: [organizeMedia] returns for every list of items.  The sort it
    relies on promises no particular order among equal keys; some sorted
    arrangement of the groups always exists. *)
Theorem organizeMedia_returns (items : list MediaItem) :
  exists organized, organizeMedia items organized.
Proof. exists (sorted (grouped items)). apply sorted_organizes. Qed.

(** *** What the listing shows *)

Lemma shown_sorts (items : list MediaItem) (organized : OrganizedMedia) :
  organizeMedia items organized ->
  forall seriesName seasonNum,
  sorts byEpisodeNumber (shown (grouped items) seriesName seasonNum)
        (shown organized seriesName seasonNum).
Proof.
intros [_ Hser] seriesName seasonNum. specialize (Hser seriesName).
unfold shown.
destruct (Series (grouped items) seriesName) as [series|],
         (Series organized seriesName) as [series'|];
  try contradiction; [|split; constructor].
destruct Hser as [_ Hsea]. specialize (Hsea seasonNum).
destruct (Seasons series seasonNum) as [season|],
         (Seasons series' seasonNum) as [season'|];
  try contradiction; [|split; constructor].
now destruct Hsea as (_ & _ & Hs).
Qed.

(** X25: what the start page lists, for every result of [organizeMedia].
    Nothing is lost and nothing is listed twice: the movies are the views
    of the items that are no episodes, the episodes under a series and a
    season are the views of the episodes listed for them, an episode
    without series name counting for [Unknown Series] and one with season
    number 0 for season 1.  The movies are ordered by name, byte-wise, the
    episodes of a season by episode number.  A group is filed under its
    own name and number, and a season has the season name of the first
    episode the catalog lists for it. *)
Theorem organizeMedia_listing
    (items : list MediaItem) (organized : OrganizedMedia) :
  organizeMedia items organized ->
  (Permutation (map viewOf (filter (fun item => negb (isEpisode item)) items))
               (Movies organized)
   /\ StronglySorted
        (fun a b => stringLess (ViewName b) (ViewName a) = false)
        (Movies organized))
  /\ (forall seriesName seasonNum,
         Permutation (map viewOf (listed items seriesName seasonNum))
                     (shown organized seriesName seasonNum)
         /\ StronglySorted (fun a b => EpisodeNumber a <= EpisodeNumber b)
                           (shown organized seriesName seasonNum))
  /\ (forall seriesName series,
         Series organized seriesName = Some series ->
         SeriesGroupName series = seriesName
         /\ forall seasonNum season,
             Seasons series seasonNum = Some season ->
             Number season = seasonNum
             /\ exists first rest,
                 listed items seriesName seasonNum = first :: rest
                 /\ SeasonGroupName season = SeasonName first).
Proof.
intros Horg. pose proof (shown_sorts items organized Horg) as Hshown.
destruct (grouped_contents items) as [Em Es].
destruct Horg as [[Hpm Hsm] Hser].
split; [|split].
- rewrite <- Em. split; [exact Hpm | exact Hsm].
- intros seriesName seasonNum.
  destruct (Hshown seriesName seasonNum) as [Hp Hs]. rewrite <- Es.
  split; [exact Hp|].
  clear -Hs. induction Hs as [|a l _ IH Ha]; constructor; [exact IH|].
  eapply Forall_impl; [|exact Ha]. intros b Hb. unfold byEpisodeNumber in Hb.
  apply Z.ltb_ge in Hb. exact Hb.
- intros seriesName series' E'. specialize (Hser seriesName).
  rewrite E' in Hser.
  destruct (Series (grouped items) seriesName) as [series|] eqn:E;
    [|contradiction].
  destruct Hser as [Hn Hsea].
  destruct (grouped_names items _ _ E) as [Hname Hseasons].
  split; [congruence|].
  intros seasonNum season' Es'. specialize (Hsea seasonNum).
  rewrite Es' in Hsea.
  destruct (Seasons series seasonNum) as [season|] eqn:Esn; [|contradiction].
  destruct Hsea as (Hnum & Hsn & _).
  destruct (Hseasons _ _ Esn) as (Hnum' & first & rest & El & En).
  split; [congruence|]. exists first, rest. split; [exact El | congruence].
Qed.

(** The library of the examples: two movies, three episodes of the series
    Foo, one of them without season number, and an episode without series
    name. *)
Lemma organizeMedia_listing_witness :
  (forall seriesName seasonNum,
      Permutation (map viewOf (listed library seriesName seasonNum))
                  (shown (sorted (grouped library)) seriesName seasonNum)
      /\ StronglySorted (fun a b => EpisodeNumber a <= EpisodeNumber b)
                        (shown (sorted (grouped library)) seriesName seasonNum))
  /\ Permutation
       (map viewOf (filter (fun item => negb (isEpisode item)) library))
       (Movies (sorted (grouped library))).
Proof.
pose proof (organizeMedia_listing library (sorted (grouped library))
              (sorted_organizes library)) as ([Hm _] & Hs & _).
split; [exact Hs | exact Hm].
Defined.

(** What is shown for it: the episodes of season 2 by episode number, the
    episode without season number under season 1, named after it, the
    episode without series under [Unknown Series], and the movies by
    name. *)
Example organizeMedia_library :
  shown (sorted (grouped library)) (go "Foo") 2
  = [viewOf s02e01; viewOf query.ep42]
  /\ option_map SeasonGroupName
       (match Series (sorted (grouped library)) (go "Foo") with
        | Some series => Seasons series 1
        | None => None
        end)
     = Some (go "Specials")
  /\ shown (sorted (grouped library)) (go "Foo") 1 = [viewOf special]
  /\ shown (sorted (grouped library)) (go "Unknown Series") 1
     = [viewOf query.episodeNoSeries]
  /\ map ViewName (Movies (sorted (grouped library))) = [go "Heat"; go "Ran"].
Proof. repeat split; vm_compute; reflexivity. Qed.

End listing_facts.

(** ** A blocked translation backend *)

Module wiring_facts.

Import subtitle handlers wiring.

Section Blocked.

Context {W : Type} `{Env W} `{translator.Backend W}.

Variable Unmarshal : gostring -> result (list translator.JSON).

Hypothesis Hblocked : blocked.

(** What the handler's translator answers then: the empty text for the
    empty text, the error of the page for any other. *)
Lemma google_blocked (text : gostring) (w : W) :
  exists w',
    TranslateToChineseTraditional (Translator := google Unmarshal) text w
    = (if streq text [] then inl [] else inr translator.htmlPage, w').
Proof.
cbn [TranslateToChineseTraditional google].
unfold translator.TranslateToChineseTraditional, translator.Translate.
destruct (streq text []); [now exists w|]. cbv zeta.
destruct (Hblocked (translator.mkQuery (go "en") (go "zh-TW")
                      (translator.cleanTextForTranslation text)) w)
  as (body & w' & -> & ->).
now exists w'.
Qed.

(** Every attempt fails in the same way, so the text comes back as it
    was. *)
Lemma translateWithRetry_blocked (text : gostring) (w : W) :
  let '(res, _, _) :=
    translateWithRetry (H0 := google Unmarshal) text 3 w in
  match res with
  | inl translated => translated = text
  | inr _ => text <> []
  end.
Proof.
unfold translateWithRetry. change (Z.to_nat 3) with 3%nat.
cbn [retryLoop]. unfold bind, call, ret.
change (1 >? 1) with false. change (1 + 1 >? 1) with true.
change (1 + 1 + 1 >? 1) with true. cbv beta iota.
destruct (google_blocked text w) as [w1 ->].
destruct (streq text []) eqn:Et.
{ cbv beta iota. apply streq_eq in Et. now subst. }
apply streq_neq in Et. cbv beta iota.
destruct (timeSleep ((1 + 1 - 1) * Second) w1) as [[] w2]. cbv beta iota.
destruct (google_blocked text w2) as [w3 ->].
rewrite (proj2 (streq_neq _ _) Et). cbv beta iota.
destruct (timeSleep ((1 + 1 + 1 - 1) * Second) w3) as [[] w4]. cbv beta iota.
destruct (google_blocked text w4) as [w5 ->].
rewrite (proj2 (streq_neq _ _) Et). cbv beta iota. exact Et.
Qed.

Lemma translateLoop_blocked (entries : list SubtitleEntry) :
  forall translated w,
  fst (fst (translateLoop (H0 := google Unmarshal) entries translated w))
  = translated ++ entries.
Proof.
induction entries as [|e rest IH]; intros translated w.
- cbn. now rewrite app_nil_r.
- cbn [translateLoop]. unfold bind at 1.
  pose proof (translateWithRetry_blocked (Text e) w) as Hr.
  destruct (translateWithRetry (H0 := google Unmarshal) (Text e) 3 w)
    as [[res w1] t1].
  match goal with
  | |- context [translateLoop rest ?acc w1] =>
    specialize (IH acc w1);
    destruct (translateLoop (H0 := google Unmarshal) rest acc w1)
      as [[out w2] t2]
  end.
  cbn [fst] in IH |- *. rewrite IH, <- app_assoc. cbn [app].
  do 2 f_equal. destruct e as [index start stop text]. cbn [Index StartTime EndTime Text] in *.
  destruct res as [translated'|err]; [now subst | reflexivity].
Qed.

Variable c : config.Config.


End Blocked.


(** The run: the cue with text costs three attempts, the cue without text
    one call, which sends no request. *)
Example blocked_backend_run :
  snd (TranslateEntries (H := scenario.env scenario.fallbackOnly)
         (H0 := google (H := captcha) translator.answerOf)
         [scenario.hello; silent] 0%nat)
  = [EvTranslate (go "Hello") (inr translator.htmlPage);
     EvSleep (1 * Second);
     EvTranslate (go "Hello") (inr translator.htmlPage);
     EvSleep (2 * Second);
     EvTranslate (go "Hello") (inr translator.htmlPage);
     EvTranslate [] (inl [])].
Proof. vm_compute. reflexivity. Qed.

End wiring_facts.

(** ** Starting up *)

Module startup_facts.

Import config environ startup.

Lemma getEnv_plain (env : Environ) (key : gostring) :
  getEnv env key [] = env key.
Proof.
unfold getEnv. destruct (streq (env key) []) eqn:E; [|reflexivity].
apply streq_eq in E. now rewrite E.
Qed.

(** X28: [main] goes on to listen exactly when the three variables
    JELLYFIN_API_KEY, OPENSUBTITLES_API_KEY and JELLYFIN_USER_ID are set and
    not empty; the address is then a colon and the port of the loaded
    configuration in decimal, whatever that port is.  Otherwise it stops
    with the message that names a variable that is missing. *)
Theorem main_starts (env : Environ) :
  ((exists addr, main env = Listen addr)
   <-> Forall (fun key => env key <> []) required)
  /\ (forall addr,
         main env = Listen addr -> addr = go ":" ++ fmt.d (Port (Load env)))
  /\ (forall msg,
         main env = Fatal msg ->
         exists key,
           In key required /\ env key = []
           /\ msg = key ++ go " environment variable is required").
Proof.
unfold main. cbv zeta.
cbn [Load JellyfinAPIKey OpenSubtitlesKey JellyfinUserID].
rewrite !getEnv_plain. unfold required.
destruct (streq (env (go "JELLYFIN_API_KEY")) []) eqn:E1.
{ apply streq_eq in E1. split; [|split].
  - split; [intros [addr E]; discriminate E|].
    intros Hall. inversion Hall; subst. contradiction.
  - discriminate.
  - intros msg E. injection E as <-. exists (go "JELLYFIN_API_KEY").
    split; [cbn; tauto|]. now split. }
destruct (streq (env (go "OPENSUBTITLES_API_KEY")) []) eqn:E2.
{ apply streq_eq in E2. split; [|split].
  - split; [intros [addr E]; discriminate E|].
    intros Hall. inversion Hall as [|? ? _ Hall']; subst.
    inversion Hall'; subst. contradiction.
  - discriminate.
  - intros msg E. injection E as <-. exists (go "OPENSUBTITLES_API_KEY").
    split; [cbn; tauto|]. now split. }
destruct (streq (env (go "JELLYFIN_USER_ID")) []) eqn:E3.
{ apply streq_eq in E3. split; [|split].
  - split; [intros [addr E]; discriminate E|].
    intros Hall. inversion Hall as [|? ? _ Hall']; subst.
    inversion Hall' as [|? ? _ Hall'']; subst.
    inversion Hall''; subst. contradiction.
  - discriminate.
  - intros msg E. injection E as <-. exists (go "JELLYFIN_USER_ID").
    split; [cbn; tauto|]. now split. }
apply streq_neq in E1, E2, E3. split; [|split].
- split; [|intros _; eexists; reflexivity].
  intros _. repeat (constructor; [assumption|]). constructor.
- intros addr E. injection E as <-. reflexivity.
- discriminate.
Qed.

(** With the three variables and the port [-5] the address is [:-5]; the
    environment of the compose file lacks the keys. *)
Example main_examples :
  main keyed = Listen (go ":-5")
  /\ main compose
     = Fatal (go "JELLYFIN_API_KEY environment variable is required").
Proof. split; vm_compute; reflexivity. Qed.

End startup_facts.

(** ** The requests of the catalog client *)

Module requests_facts.

Import requests.

Lemma TrimSuffix_snoc (b : gostring) (c : ascii) :
  strings.TrimSuffix (b ++ [c]) [c] = b.
Proof.
unfold strings.TrimSuffix, strings.HasSuffix.
rewrite rev_app_distr. cbn [rev app strings.HasPrefix].
rewrite Ascii.eqb_refl. destruct (rev b); cbn [andb strings.HasPrefix];
  rewrite length_app; cbn [length];
  replace (length b + 1 - 1)%nat with (length b) by lia;
  rewrite firstn_app, firstn_all, Nat.sub_diag; cbn [firstn];
  now rewrite app_nil_r.
Qed.

Lemma TrimSuffix_none (b : gostring) (c : ascii) :
  (forall b', b <> b' ++ [c]) -> strings.TrimSuffix b [c] = b.
Proof.
intros Hno. unfold strings.TrimSuffix, strings.HasSuffix.
cbn [rev app]. destruct (rev b) as [|x rb] eqn:Er; [reflexivity|].
cbn [strings.HasPrefix].
destruct (Ascii.eqb_spec x c) as [->|_]; [|reflexivity].
exfalso. apply (Hno (rev rb)). now apply utf8_facts.rev_cons_inv.
Qed.

(** X29: one slash at the end of the configured URL makes no difference.
    The client made from a URL followed by a slash has that URL as its
    base, and is the client made from the URL itself when the URL does not
    end with a slash; its three request URLs are the base followed by the
    path of the request, with the user and the item identifiers as they
    are. *)
Theorem NewClient_trailing_slash (baseURL apiKey userID : gostring) :
  BaseURL (NewClient (baseURL ++ go "/") apiKey userID) = baseURL
  /\ ((forall b', baseURL <> b' ++ go "/") ->
      NewClient (baseURL ++ go "/") apiKey userID
      = NewClient baseURL apiKey userID)
  /\ (forall itemID,
         itemURL (NewClient (baseURL ++ go "/") apiKey userID) itemID
         = baseURL ++ go "/Users/" ++ userID ++ go "/Items/" ++ itemID
         /\ refreshURL (NewClient (baseURL ++ go "/") apiKey userID) itemID
            = baseURL ++ go "/Items/" ++ itemID
              ++ go "/Refresh?metadataRefreshMode=FullRefresh&replaceAllMetadata=false")
  /\ itemsURL (NewClient (baseURL ++ go "/") apiKey userID)
     = baseURL ++ go "/Users/" ++ userID
       ++ go "/Items?Recursive=true&IncludeItemTypes=Movie,Episode&Fields=Path,MediaSources,MediaStreams".
Proof.
unfold itemURL, refreshURL, itemsURL, NewClient. cbn [BaseURL UserID].
change (go "/") with ["/"%char]. rewrite TrimSuffix_snoc.
split; [reflexivity|]. split; [|split; [intros itemID; split|]; reflexivity].
intros Hno. now rewrite (TrimSuffix_none baseURL "/"%char Hno).
Qed.

Lemma NewClient_trailing_slash_witness :
  NewClient (go "http://localhost:8096" ++ go "/") (go "key") (go "user")
  = NewClient (go "http://localhost:8096") (go "key") (go "user").
Proof.
apply NewClient_trailing_slash. intros b' E.
apply (f_equal (@rev ascii)) in E. rewrite rev_app_distr in E.
vm_compute in E. discriminate E.
Defined.

(** Only one slash is removed. *)
Example NewClient_two_slashes :
  itemURL (NewClient (go "http://localhost:8096//") (go "key") (go "user"))
          (go "ep42")
  = go "http://localhost:8096//Users/user/Items/ep42".
Proof. vm_compute. reflexivity. Qed.

End requests_facts.

(** ** The search request *)

Module searchrequest_facts.

Import jellyfin searchrequest.

Lemma GetSearchQuery_empty (item : MediaItem) :
  GetSearchQuery item = []
  <-> Name item = []
      /\ ~ (Type_ item = go "Episode" /\ SeriesName item <> [])
      /\ ~ (Type_ item = go "Movie" /\ 0 < ProductionYear item).
Proof.
unfold GetSearchQuery.
destruct (streq (Type_ item) (go "Episode")) eqn:Te.
- apply streq_eq in Te.
  destruct (streq (SeriesName item) []) eqn:Es; cbn [negb].
  + apply streq_eq in Es. split.
    * intros E. split; [exact E|]. split.
      -- intros [_ H]. now apply H.
      -- intros [H _]. rewrite Te in H. discriminate H.
    * now intros [E _].
  + apply streq_neq in Es. split.
    * intros E. destruct (SeriesName item); [now destruct Es | discriminate E].
    * intros (_ & H & _). exfalso. apply H. now split.
- apply streq_neq in Te.
  destruct (streq (Type_ item) (go "Movie")) eqn:Tm.
  + apply streq_eq in Tm.
    destruct (Z.gtb_spec (ProductionYear item) 0) as [Hy|Hy].
    * split.
      -- intros E. apply app_eq_nil in E as [_ E].
         apply app_eq_nil in E as [E _]. discriminate E.
      -- intros (_ & _ & H). exfalso. apply H. split; [exact Tm | lia].
    * split.
      -- intros E. split; [exact E|]. split.
         ++ intros [H _]. now apply Te.
         ++ intros [_ H]. lia.
      -- now intros [E _].
  + apply streq_neq in Tm. split.
    * intros E. split; [exact E|]. split.
      -- intros [H _]. now apply Te.
      -- intros [H _]. now apply Tm.
    * now intros [E _].
Qed.

(** X30: the search for an item never names an IMDb identifier and always
    names the language; it names a query unless the query of the item is
    empty, which happens exactly for an item without name that is neither
    an episode with a series name nor a movie with a year.  Such an item is
    searched by language alone. *)
Theorem paramsFor_language_alone (item : MediaItem) (language : gostring) :
  (forall value, ~ In (go "imdb_id", value) (paramsFor item language))
  /\ In (go "languages", language) (paramsFor item language)
  /\ (paramsFor item language = [(go "languages", language)]
      <-> Name item = []
          /\ ~ (Type_ item = go "Episode" /\ SeriesName item <> [])
          /\ ~ (Type_ item = go "Movie" /\ 0 < ProductionYear item))
  /\ (GetSearchQuery item <> [] ->
      paramsFor item language
      = [(go "query", GetSearchQuery item); (go "languages", language)]).
Proof.
rewrite <- GetSearchQuery_empty.
unfold paramsFor, searchParams. cbv zeta. cbn [streq negb app].
destruct (streq (GetSearchQuery item) []) eqn:E; cbn [negb app].
- apply streq_eq in E. split; [|split; [|split]].
  + intros value [H|[]]. discriminate H.
  + now left.
  + tauto.
  + congruence.
- apply streq_neq in E. split; [|split; [|split]].
  + intros value [H|[H|[]]]; discriminate H.
  + right. now left.
  + split; [intros H; discriminate H | intros H; now destruct E].
  + reflexivity.
Qed.

Lemma paramsFor_language_alone_witness :
  paramsFor query.ep42 (go "zh-TW")
  = [(go "query", go "Foo S02E05"); (go "languages", go "zh-TW")]
  /\ paramsFor nameless (go "zh-TW") = [(go "languages", go "zh-TW")].
Proof.
split.
- apply (proj2 (proj2 (proj2 (paramsFor_language_alone query.ep42
                                (go "zh-TW"))))).
  discriminate.
- apply (proj2 (proj1 (proj2 (proj2 (paramsFor_language_alone nameless
                                       (go "zh-TW")))))).
  split; [reflexivity|].
  split; intros [H1 H2]; [discriminate H1 | vm_compute in H2; discriminate H2].
Defined.

End searchrequest_facts.
